(** * SimplePTN: a shallow embedding of the Petri-net engine

    The development follows the three headers of the library,
    [place.hpp], [transition.hpp] and [petri_net.hpp], instantiated at the
    default template arguments [ID = std::string] and
    [TokenCounter = uint32_t].

    Objects that the C++ code reaches through [std::shared_ptr] live in a
    heap and are named by their address; a [shared_ptr] is an address, a
    null [shared_ptr] is [None].  The model is sequential: the net mutex is
    elided, every function runs to completion before the next one starts.
    Listeners and predicates are observers: a listener call is an entry in
    a log, a predicate is a function of what it can read from the
    transition it is handed; callbacks that call back into the net are
    outside the model. *)

From Stdlib Require Import ZArith.
From stdpp Require Import base gmap strings list.

Local Open Scope string_scope.
Local Open Scope list_scope.
Local Open Scope Z_scope.

(** ** Token counters: [uint32_t] with wrap-around *)

Definition TokenCounterT := Z.

Definition wrap32 (z : Z) : Z := z mod 2 ^ 32.

(** [a - b] and [a + b] on [uint32_t]. *)
Definition tok_sub (a b : TokenCounterT) : TokenCounterT := wrap32 (a - b).
Definition tok_add (a b : TokenCounterT) : TokenCounterT := wrap32 (a + b).

(** ** Heap objects *)

(** An address in the heap. *)
Abbreviation addr := nat (only parsing).

(** A [std::function] stored as a listener is opaque: it is named by a
    handle, and calling it is recorded in the event log. *)
Definition Listener := nat.

(** What a predicate can observe through the [const Transition &] it is
    given: the public [getID()] and [ready()]. *)
Record TransitionView := mkView {
  view_id : string;
  view_ready : bool
}.

Definition Pred := TransitionView -> bool.

Record Place := mkPlace {
  Place_id_ : string;
  Place_tokens_ : TokenCounterT;
  Place_on_change_ : option Listener;
  Place_outgoing_to_ : list addr;
  Place_ingoing_to_ : list addr
}.

Definition WeightPairT : Type := addr * TokenCounterT.

Record Transition := mkTransition {
  Transition_id_ : string;
  Transition_ingoing_ : list WeightPairT;
  Transition_outgoing_ : list WeightPairT;
  Transition_evaluate_condition_ : option Pred
}.

Record Heap := mkHeap {
  heap_places : list Place;
  heap_transitions : list Transition
}.

(** [place->tokens_].  A [shared_ptr] keeps its pointee alive, so the
    addresses held by a transition or a net are always allocated; the
    default below is what an unallocated address reads as. *)
Definition tokens_at (h : Heap) (place : addr) : TokenCounterT :=
  from_option Place_tokens_ 0 (heap_places h !! place).

Definition set_tokens (v : TokenCounterT) (p : Place) : Place :=
  mkPlace (Place_id_ p) v (Place_on_change_ p)
          (Place_outgoing_to_ p) (Place_ingoing_to_ p).

(** [place->tokens_ = v]. *)
Definition store_tokens (h : Heap) (place : addr) (v : TokenCounterT) : Heap :=
  mkHeap (alter (set_tokens v) place (heap_places h)) (heap_transitions h).

(** ** place.hpp *)

(** One call of a listener: the place it was installed on, the handle, the
    token count the listener reads from the place it is handed, and the
    previous count it is passed. *)
Record event := Notified {
  ev_place : addr;
  ev_listener : Listener;
  ev_tokens : TokenCounterT;
  ev_prev : TokenCounterT
}.

(** [Place::changed(prev)]: calls [on_change_] if it is set. *)
Definition Place_changed (h : Heap) (place : addr) (prev : TokenCounterT)
  : list event :=
  match heap_places h !! place with
  | Some p =>
      match Place_on_change_ p with
      | Some fn => [Notified place fn (Place_tokens_ p) prev]
      | None => []
      end
  | None => []
  end.

Definition Place_getTokens (h : Heap) (place : addr) : TokenCounterT :=
  tokens_at h place.

Definition set_on_change (fn : option Listener) (p : Place) : Place :=
  mkPlace (Place_id_ p) (Place_tokens_ p) fn
          (Place_outgoing_to_ p) (Place_ingoing_to_ p).

(** [Place::onChange(fn)]: replaces the single listener. *)
Definition Place_onChange (h : Heap) (place : addr) (fn : option Listener)
  : Heap :=
  mkHeap (alter (set_on_change fn) place (heap_places h)) (heap_transitions h).

(** ** transition.hpp *)

(** The loop of [Transition::readyAcquired]. *)
Fixpoint readyLoop (h : Heap) (ingoing : list WeightPairT) : bool :=
  match ingoing with
  | [] => true
  | (place, weight) :: rest =>
      if tokens_at h place <? weight then false else readyLoop h rest
  end.

Definition Transition_readyAcquired (h : Heap) (t : Transition) : bool :=
  readyLoop h (Transition_ingoing_ t).

Definition Transition_ready (h : Heap) (t : Transition) : bool :=
  Transition_readyAcquired h t.

(** The two mutation loops of [Transition::fire]; [op] is [tok_sub] for the
    ingoing pairs and [tok_add] for the outgoing ones.  Each step pushes
    the place and its current count on [places_to_notify], then stores the
    new count. *)
Fixpoint fireLoop (op : TokenCounterT -> TokenCounterT -> TokenCounterT)
    (pairs : list WeightPairT) (h : Heap) (places_to_notify : list WeightPairT)
  : Heap * list WeightPairT :=
  match pairs with
  | [] => (h, places_to_notify)
  | (place, weight) :: rest =>
      let places_to_notify' := places_to_notify ++ [(place, tokens_at h place)] in
      let h' := store_tokens h place (op (tokens_at h place) weight) in
      fireLoop op rest h' places_to_notify'
  end.

(** The locked part of [Transition::fire]: the readiness check and the
    mutation, giving [rdy], the heap and [places_to_notify]. *)
Definition fireLocked (h : Heap) (t : Transition)
  : bool * Heap * list WeightPairT :=
  let rdy := Transition_readyAcquired h t in
  if rdy then
    let '(h1, n1) := fireLoop tok_sub (Transition_ingoing_ t) h [] in
    let '(h2, n2) := fireLoop tok_add (Transition_outgoing_ t) h1 n1 in
    (rdy, h2, n2)
  else (rdy, h, []).

(** The notification loop, run after the lock is released. *)
Fixpoint notifyLoop (h : Heap) (places_to_notify : list WeightPairT)
  : list event :=
  match places_to_notify with
  | [] => []
  | (place, prev) :: rest => Place_changed h place prev ++ notifyLoop h rest
  end.

(** [Transition::fire]: whether it fired, the heap, the listener calls. *)
Definition Transition_fire (h : Heap) (t : Transition)
  : bool * Heap * list event :=
  let '(rdy, h', places_to_notify) := fireLocked h t in
  (rdy, h', notifyLoop h' places_to_notify).

Definition view_of (h : Heap) (t : Transition) : TransitionView :=
  mkView (Transition_id_ t) (Transition_ready h t).

(** [Transition::tick]. *)
Definition Transition_tick (h : Heap) (t : Transition)
  : bool * Heap * list event :=
  match Transition_evaluate_condition_ t with
  | Some evaluate_condition =>
      if evaluate_condition (view_of h t) then Transition_fire h t
      else (false, h, [])
  | None => (false, h, [])
  end.

(** ** Control: exceptions, [noexcept] and mutable state *)

Inductive exn :=
| invalid_argument (what : string)
| runtime_error (what : string).

(** How a call ends.  [Terminated] is [std::terminate], reached when an
    exception leaves a function declared [noexcept(true)]; [Undefined] is
    the dereference of a null pointer or of an address that holds no
    object; [OutOfFuel] is the recursion bound of the model running out. *)
Inductive outcome (A : Type) :=
| Returned (a : A)
| Thrown (e : exn)
| Terminated
| Undefined
| OutOfFuel.

Arguments Returned {A} a.
Arguments Thrown {A} e.
Arguments Terminated {A}.
Arguments Undefined {A}.
Arguments OutOfFuel {A}.

(** A computation over mutable state [S]: the state it leaves is kept
    whichever way it ends, as a C++ exception undoes nothing. *)
Definition M (S A : Type) : Type := S -> outcome A * S.

Definition ret {S A} (a : A) : M S A := fun s => (Returned a, s).

Definition bind {S A B} (m : M S A) (k : A -> M S B) : M S B :=
  fun s =>
    match m s with
    | (Returned a, s') => k a s'
    | (Thrown e, s') => (Thrown e, s')
    | (Terminated, s') => (Terminated, s')
    | (Undefined, s') => (Undefined, s')
    | (OutOfFuel, s') => (OutOfFuel, s')
    end.

Definition throw {S A} (e : exn) : M S A := fun s => (Thrown e, s).
Definition undefined {S A} : M S A := fun s => (Undefined, s).
Definition get {S} : M S S := fun s => (Returned s, s).
Definition modify {S} (f : S -> S) : M S unit := fun s => (Returned tt, f s).

(** A function declared [noexcept(true)]: an exception that reaches its
    boundary calls [std::terminate]. *)
Definition noexcept {S A} (m : M S A) : M S A :=
  fun s =>
    match m s with
    | (Thrown _, s') => (Terminated, s')
    | r => r
    end.

Notation "x <- m ;; k" := (bind m (fun x => k))
  (at level 100, m at next level, k at level 200, right associativity).
Notation "m >> k" := (bind m (fun _ => k))
  (at level 100, k at level 200, right associativity).

(** A range-based [for] loop whose body may throw. *)
Fixpoint for_each {S X} (body : X -> M S unit) (xs : list X) : M S unit :=
  match xs with
  | [] => ret tt
  | x :: rest => body x >> for_each body rest
  end.

(** ** Cascades: [Place::deepTick] and [Transition::deepTick] *)

Record Cascade := mkCascade {
  c_heap : Heap;
  c_seen : gset string;
  c_log : list event
}.

Definition cycle_detected : exn := runtime_error "Cycle detected".

(** [Transition::deepTick(seen)], with the [deepTick] of places as a
    parameter: it ticks, and when the tick fired it visits the places of
    the outgoing pairs in order. *)
Definition Transition_deepTick_with (Place_deepTick : addr -> M Cascade unit)
    (transition : addr) : M Cascade unit :=
  c <- get ;;
  match heap_transitions (c_heap c) !! transition with
  | None => undefined
  | Some t =>
      let '(fired, h', evs) := Transition_tick (c_heap c) t in
      modify (fun c => mkCascade h' (c_seen c) (c_log c ++ evs)) >>
      if fired then
        for_each (fun '(place, _) => Place_deepTick place)
                 (Transition_outgoing_ t)
      else ret tt
  end.

(** [Place::deepTick(seen)].  The recursion goes through a place at each
    level; [fuel] bounds its depth. *)
Fixpoint Place_deepTick (fuel : nat) (place : addr) : M Cascade unit :=
  match fuel with
  | O => fun c => (OutOfFuel, c)
  | S fuel' =>
      c <- get ;;
      match heap_places (c_heap c) !! place with
      | None => undefined
      | Some p =>
          if decide (Place_id_ p ∈ c_seen c) then throw cycle_detected
          else
            modify (fun c => mkCascade (c_heap c) ({[Place_id_ p]} ∪ c_seen c)
                                       (c_log c)) >>
            for_each (Transition_deepTick_with (Place_deepTick fuel'))
                     (Place_ingoing_to_ p) >>
            modify (fun c => mkCascade (c_heap c) (c_seen c ∖ {[Place_id_ p]})
                                       (c_log c))
      end
  end.

Definition Transition_deepTick (fuel : nat) : addr -> M Cascade unit :=
  Transition_deepTick_with (Place_deepTick fuel).

(** ** petri_net.hpp *)

Definition SketchWeightPairT : Type := string * TokenCounterT.

Record TransitionSketch := mkSketch {
  sketch_id : string;
  sketch_ingoing : list SketchWeightPairT;
  sketch_outgoing : list SketchWeightPairT
}.

(** [places_] may hold null pointers: [merge] moves the pointers out of the
    other net and leaves the vector at its length. *)
Record PetriNet := mkNet {
  places_ : list (option addr);
  transitions_ : list addr
}.

(** The nets of the program, the heap their objects live in, and the log
    of listener calls. *)
Record World := mkWorld {
  w_heap : Heap;
  w_nets : list PetriNet;
  w_log : list event
}.

(** The handle of a net. *)
Abbreviation net := nat (only parsing).

Definition Place_getID (h : Heap) (place : addr) : string :=
  from_option Place_id_ "" (heap_places h !! place).

Definition Transition_getID (h : Heap) (transition : addr) : string :=
  from_option Transition_id_ "" (heap_transitions h !! transition).

(** [std::find_if] with [match_id] over [places_]. *)
Fixpoint find_place (h : Heap) (places : list (option addr)) (id : string)
  : option addr :=
  match places with
  | [] => None
  | None :: rest => find_place h rest id
  | Some place :: rest =>
      if decide (Place_getID h place = id) then Some place
      else find_place h rest id
  end.

Fixpoint find_transition (h : Heap) (transitions : list addr) (id : string)
  : option addr :=
  match transitions with
  | [] => None
  | transition :: rest =>
      if decide (Transition_getID h transition = id) then Some transition
      else find_transition h rest id
  end.

Definition findPlaceAcquired (h : Heap) (n : PetriNet) (id : string)
  : option addr := find_place h (places_ n) id.

Definition findTransitionAcquired (h : Heap) (n : PetriNet) (id : string)
  : option addr := find_transition h (transitions_ n) id.

Definition get_net (n : net) : M World PetriNet :=
  w <- get ;;
  match w_nets w !! n with
  | Some N => ret N
  | None => undefined
  end.

Definition put_net (n : net) (N : PetriNet) : M World unit :=
  modify (fun w => mkWorld (w_heap w) (<[n := N]> (w_nets w)) (w_log w)).

Definition get_heap : M World Heap := w <- get ;; ret (w_heap w).

Definition put_heap (h : Heap) : M World unit :=
  modify (fun w => mkWorld h (w_nets w) (w_log w)).

Definition log_events (evs : list event) : M World unit :=
  modify (fun w => mkWorld (w_heap w) (w_nets w) (w_log w ++ evs)).

(** [PetriNet()]: a new, empty net. *)
Definition PetriNet_new : M World net :=
  w <- get ;;
  modify (fun w => mkWorld (w_heap w) (w_nets w ++ [mkNet [] []]) (w_log w)) >>
  ret (length (w_nets w)).

(** [new PlaceT(id, initial_tokens)]. *)
Definition new_Place (id : string) (initial_tokens : TokenCounterT)
  : M World addr :=
  h <- get_heap ;;
  put_heap (mkHeap (heap_places h ++ [mkPlace id initial_tokens None [] []])
                   (heap_transitions h)) >>
  ret (length (heap_places h)).

(** [new TransitionT(id, ingoing, outgoing, mutex_)]. *)
Definition new_Transition (id : string) (ingoing outgoing : list WeightPairT)
  : M World addr :=
  h <- get_heap ;;
  put_heap (mkHeap (heap_places h)
                   (heap_transitions h ++ [mkTransition id ingoing outgoing None])) >>
  ret (length (heap_transitions h)).

Definition PetriNet_findPlace (n : net) (id : string) : M World (option addr) :=
  N <- get_net n ;; h <- get_heap ;; ret (findPlaceAcquired h N id).

Definition PetriNet_findTransition (n : net) (id : string)
  : M World (option addr) :=
  N <- get_net n ;; h <- get_heap ;; ret (findTransitionAcquired h N id).

Definition addPlaceAcquired (n : net) (id : string)
    (initial_tokens : TokenCounterT) : M World addr :=
  N <- get_net n ;;
  h <- get_heap ;;
  match findPlaceAcquired h N id with
  | Some _ => throw (invalid_argument "PlaceID already exists")
  | None =>
      ptr <- new_Place id initial_tokens ;;
      put_net n (mkNet (places_ N ++ [Some ptr]) (transitions_ N)) >>
      ret ptr
  end.

Definition PetriNet_addPlace := addPlaceAcquired.

(** The two look-up loops of [addTransitionAcquired]. *)
Fixpoint resolve_pairs (h : Heap) (N : PetriNet)
    (pairs : list SketchWeightPairT) (acc : list WeightPairT)
  : M World (list WeightPairT) :=
  match pairs with
  | [] => ret acc
  | (pid, weight) :: rest =>
      match findPlaceAcquired h N pid with
      | None => throw (invalid_argument "Sketch contains invalid IDs")
      | Some place => resolve_pairs h N rest (acc ++ [(place, weight)])
      end
  end.

Definition push_ingoing_to (ptr : addr) (p : Place) : Place :=
  mkPlace (Place_id_ p) (Place_tokens_ p) (Place_on_change_ p)
          (Place_outgoing_to_ p) (Place_ingoing_to_ p ++ [ptr]).

Definition push_outgoing_to (ptr : addr) (p : Place) : Place :=
  mkPlace (Place_id_ p) (Place_tokens_ p) (Place_on_change_ p)
          (Place_outgoing_to_ p ++ [ptr]) (Place_ingoing_to_ p).

Definition alter_place (f : Place -> Place) (place : addr) : M World unit :=
  h <- get_heap ;;
  put_heap (mkHeap (alter f place (heap_places h)) (heap_transitions h)).

Definition addTransitionAcquired (n : net) (sketch : TransitionSketch)
  : M World addr :=
  N <- get_net n ;;
  h <- get_heap ;;
  match findTransitionAcquired h N (sketch_id sketch) with
  | Some _ => throw (invalid_argument "TransitionID already exists")
  | None =>
      ingoing <- resolve_pairs h N (sketch_ingoing sketch) [] ;;
      outgoing <- resolve_pairs h N (sketch_outgoing sketch) [] ;;
      ptr <- new_Transition (sketch_id sketch) ingoing outgoing ;;
      put_net n (mkNet (places_ N) (transitions_ N ++ [ptr])) >>
      for_each (fun '(place, _) => alter_place (push_ingoing_to ptr) place)
               ingoing >>
      for_each (fun '(place, _) => alter_place (push_outgoing_to ptr) place)
               outgoing >>
      ret ptr
  end.

Definition PetriNet_addTransition := addTransitionAcquired.

Definition set_evaluate_condition (c : option Pred) (t : Transition)
  : Transition :=
  mkTransition (Transition_id_ t) (Transition_ingoing_ t)
               (Transition_outgoing_ t) c.

(** [transition->evaluate_condition_ = c], which is what both
    [Transition::autoFire] overloads do. *)
Definition store_evaluate_condition (transition : addr) (c : option Pred)
  : M World unit :=
  h <- get_heap ;;
  put_heap (mkHeap (heap_places h)
                   (alter (set_evaluate_condition c) transition
                          (heap_transitions h))).

Definition Transition_autoFire (transition : addr) (c : option Pred)
  : M World unit := store_evaluate_condition transition c.

(** [Transition::autoFire()]: fire on every tick. *)
Definition Transition_autoFire_always (transition : addr) : M World unit :=
  store_evaluate_condition transition (Some (fun _ => true)).

(** [std::find_if] over [this->places_] with the lambda
    [p->getID() == place->getID()]: each call dereferences both pointers,
    and a null one is undefined behaviour. *)
Fixpoint exists_place_id (h : Heap) (places : list (option addr))
    (place : option addr) : M World bool :=
  match places with
  | [] => ret false
  | p :: rest =>
      match p, place with
      | Some p, Some place =>
          if decide (Place_getID h p = Place_getID h place) then ret true
          else exists_place_id h rest (Some place)
      | _, _ => undefined
      end
  end.

Definition exists_transition_id (h : Heap) (transitions : list addr)
    (id : string) : bool :=
  bool_decide (is_Some (find_transition h transitions id)).

Definition to_sketch_weight_pair (h : Heap) (wp : WeightPairT)
  : SketchWeightPairT := (Place_getID h wp.1, wp.2).

Definition SketchEvalCondPair : Type := TransitionSketch * option Pred.

(** The sketch of a live transition, with its predicate. *)
Definition sketch_of (h : Heap) (t : addr) : M World SketchEvalCondPair :=
  match heap_transitions h !! t with
  | None => undefined
  | Some T =>
      ret (mkSketch (Transition_id_ T)
                    (to_sketch_weight_pair h <$> Transition_ingoing_ T)
                    (to_sketch_weight_pair h <$> Transition_outgoing_ T),
           Transition_evaluate_condition_ T)
  end.

Fixpoint sketches_of (h : Heap) (transitions : list addr)
    (new_transitions : list SketchEvalCondPair)
  : M World (list SketchEvalCondPair) :=
  match transitions with
  | [] => ret new_transitions
  | t :: rest =>
      s <- sketch_of h t ;;
      sketches_of h rest (new_transitions ++ [s])
  end.

Definition clear_adjacency (p : Place) : Place :=
  mkPlace (Place_id_ p) (Place_tokens_ p) (Place_on_change_ p) [] [].

(** [PetriNet::merge(other, interconnections)], called on net [this]. *)
Definition PetriNet_merge (this other : net)
    (interconnections : list TransitionSketch) : M World unit :=
  (* Keep both nets locked: one net on both sides locks its mutex twice *)
  (if decide (this = other) then undefined else ret tt) >>
  Other <- get_net other ;;
  This <- get_net this ;;
  h <- get_heap ;;
  (* Check for duplicate PlaceIDs *)
  for_each (fun place : option addr =>
              dup <- exists_place_id h (places_ This) place ;;
              if dup : bool then throw (invalid_argument "Duplicate PlaceIDs")
              else ret tt) (places_ Other) >>
  (* Check for duplicate TransitionIDs in other *)
  for_each (fun transition =>
              if exists_transition_id h (transitions_ This)
                                      (Transition_getID h transition)
              then throw (invalid_argument "Duplicate TransactionIDs")
              else ret tt) (transitions_ Other) >>
  (* Check for duplicate TransitionIDs in interconnections *)
  for_each (fun sketch =>
              if exists_transition_id h (transitions_ This) (sketch_id sketch)
              then throw (invalid_argument "Duplicate TransitionIDs")
              else ret tt) interconnections >>
  (* Create sketches for each other transition *)
  new_transitions <- sketches_of h (transitions_ Other) [] ;;
  put_net other (mkNet (places_ Other) []) >>
  (* Move other places *)
  for_each (fun place : option addr =>
              match place with
              | None => undefined
              | Some p => alter_place clear_adjacency p
              end) (places_ Other) >>
  put_net this (mkNet (places_ This ++ places_ Other) (transitions_ This)) >>
  put_net other (mkNet ((fun _ => None) <$> places_ Other) []) >>
  (* Create other transitions *)
  for_each (fun '(sketch, eval_cond) =>
              addTransitionAcquired this sketch >>
              found <- PetriNet_findTransition this (sketch_id sketch) ;;
              match found with
              | None => undefined
              | Some t => store_evaluate_condition t eval_cond
              end) new_transitions >>
  (* Create interconnections *)
  for_each (fun sketch => addTransitionAcquired this sketch >> ret tt)
           interconnections.

(** [transition->fire()] and [transition->tick()] on an address, with the
    listener calls going to the log. *)
Definition fire_at (transition : addr) : M World bool :=
  h <- get_heap ;;
  match heap_transitions h !! transition with
  | None => undefined
  | Some t =>
      let '(rdy, h', evs) := Transition_fire h t in
      put_heap h' >> log_events evs >> ret rdy
  end.

Definition tick_at (transition : addr) : M World bool :=
  h <- get_heap ;;
  match heap_transitions h !! transition with
  | None => undefined
  | Some t =>
      let '(fired, h', evs) := Transition_tick h t in
      put_heap h' >> log_events evs >> ret fired
  end.

(** [PetriNet::tick]. *)
Definition PetriNet_tick (n : net) : M World unit :=
  noexcept (
    N <- get_net n ;;
    for_each (fun transition => tick_at transition >> ret tt) (transitions_ N)).

(** Runs a cascade on the heap of the world with a fresh [seen]. *)
Definition run_cascade (m : M Cascade unit) : M World unit :=
  fun w =>
    let '(r, c) := m (mkCascade (w_heap w) ∅ []) in
    (r, mkWorld (c_heap c) (w_nets w) (w_log w ++ c_log c)).

(** The depth of a cascade is at most the number of places: every level
    adds a place id to [seen]. *)
Definition cascade_fuel (h : Heap) : nat := S (length (heap_places h)).

(** [Place::deepTick()]. *)
Definition Place_deepTick_fresh (place : addr) : M World unit :=
  h <- get_heap ;;
  run_cascade (Place_deepTick (cascade_fuel h) place).

(** [Transition::deepTick()]. *)
Definition Transition_deepTick_fresh (transition : addr) : M World unit :=
  h <- get_heap ;;
  run_cascade (Transition_deepTick (cascade_fuel h) transition).

(** [PetriNet::deepTick(start_place_id)]. *)
Definition PetriNet_deepTick (n : net) (start_place_id : string)
  : M World unit :=
  ptr <- PetriNet_findPlace n start_place_id ;;
  match ptr with
  | None => throw (invalid_argument "Start place ID not found")
  | Some place => Place_deepTick_fresh place
  end.

(** The body of the loop of [deepTickCover]:
    [this->deepTick(place_ptr->getID())]. *)
Definition deepTickCover_body (n : net) (place_ptr : option addr)
  : M World unit :=
  match place_ptr with
  | None => undefined
  | Some p =>
      h <- get_heap ;;
      PetriNet_deepTick n (Place_getID h p)
  end.

(** [PetriNet::deepTickCover], declared [noexcept(true)]. *)
Definition PetriNet_deepTickCover (n : net) : M World unit :=
  noexcept (
    N <- get_net n ;;
    for_each (deepTickCover_body n) (places_ N)).

(** ** Auxiliary definitions for the statements *)

Definition allocated (h : Heap) (a : addr) : Prop :=
  (a < length (heap_places h))%nat.

(** The pairs of a transition in the order [fire] goes through them. *)
Inductive dir := Consume | Produce.

Definition step : Type := dir * WeightPairT.

Definition step_place (s : step) : addr := s.2.1.

Definition step_op (d : dir) : TokenCounterT -> TokenCounterT -> TokenCounterT :=
  match d with Consume => tok_sub | Produce => tok_add end.

Definition steps (t : Transition) : list step :=
  (pair Consume <$> Transition_ingoing_ t) ++
  (pair Produce <$> Transition_outgoing_ t).

Definition apply_step (h : Heap) (s : step) : Heap :=
  store_tokens h (step_place s)
               (step_op s.1 (tokens_at h (step_place s)) s.2.2).

Definition apply_steps (ss : list step) (h : Heap) : Heap :=
  foldl apply_step h ss.

(** For each pair in turn, its place and the count it holds just before the
    pair is applied. *)
Fixpoint prevs (h : Heap) (ss : list step) : list WeightPairT :=
  match ss with
  | [] => []
  | s :: rest =>
      (step_place s, tokens_at h (step_place s)) :: prevs (apply_step h s) rest
  end.

(** Firing changes token counts and nothing else. *)
Definition place_frame (p : Place) :=
  (Place_id_ p, Place_on_change_ p, Place_outgoing_to_ p, Place_ingoing_to_ p).

Definition same_frame (h h' : Heap) : Prop :=
  place_frame <$> heap_places h' = place_frame <$> heap_places h /\
  heap_transitions h' = heap_transitions h.

(** The listener calls made on the place at [a]. *)
Definition calls_to (a : addr) (evs : list event) : list event :=
  filter (fun e => ev_place e = a) evs.

(** The pairs of [t] that name the place at [a]. *)
Definition pairs_naming (a : addr) (t : Transition) : list step :=
  filter (fun s => step_place s = a) (steps t).

(** The sum of the weights of the pairs that name the place at [a]. *)
Fixpoint demand (a : addr) (pairs : list WeightPairT) : Z :=
  match pairs with
  | [] => 0
  | (place, weight) :: rest =>
      (if decide (place = a) then weight else 0) + demand a rest
  end.

Definition marking (h : Heap) : list (string * TokenCounterT) :=
  (fun p => (Place_id_ p, Place_tokens_ p)) <$> heap_places h.

(** The places and the transition of the test case of [fire()]. *)
Definition scenario_heap : Heap :=
  mkHeap [mkPlace "A" 3 None [] []; mkPlace "B" 4 None [] [];
          mkPlace "C" 5 None [] []; mkPlace "D" 0 None [] [];
          mkPlace "E" 0 None [] []] [].

Definition scenario_T : Transition :=
  mkTransition "T" [(0%nat, 2); (1%nat, 3); (2%nat, 4)]
               [(3%nat, 1); (4%nat, 1)] None.

(** A place with a listener that one transition both consumes from and
    produces into. *)
Definition loop_heap : Heap := mkHeap [mkPlace "A" 1 (Some 7%nat) [] []] [].

Definition loop_T : Transition :=
  mkTransition "T" [(0%nat, 1)] [(0%nat, 1)] None.

Definition empty_world : World := mkWorld (mkHeap [] []) [] [].

(** A program run from the empty world. *)
Definition run {A} (m : M World A) : outcome A * World := m empty_world.

(** A net with one place holding 3 tokens and a transition whose input
    list names that place in two pairs of weight 2. *)
Definition double_input_setup : M World addr :=
  n <- PetriNet_new ;;
  PetriNet_addPlace n "A" 3 >>
  PetriNet_addTransition n (mkSketch "T" [("A", 2); ("A", 2)] []).

(** The same net, with the transition fired once. *)
Definition double_input_program : M World bool :=
  t <- double_input_setup ;; fire_at t.

(** A net with a token on A and a transition from A to B that has no
    predicate installed. *)
Definition plain_setup : M World addr :=
  n <- PetriNet_new ;;
  PetriNet_addPlace n "A" 1 >>
  PetriNet_addPlace n "B" 0 >>
  PetriNet_addTransition n (mkSketch "T" [("A", 1)] [("B", 1)]).

(** Whether [tick()] gets as far as calling [fire()]. *)
Definition condition_holds (h : Heap) (t : Transition) : bool :=
  match Transition_evaluate_condition_ t with
  | Some evaluate_condition => evaluate_condition (view_of h t)
  | None => false
  end.

(** The ids of the places of the heap. *)
Definition place_ids (h : Heap) : gset string :=
  list_to_set (Place_id_ <$> heap_places h).

(** The number of place ids not yet on the path of a cascade. *)
Definition unseen (c : Cascade) : nat :=
  size (place_ids (c_heap c) ∖ c_seen c).

(** What every step of a cascade keeps: only token counts change, a step
    that returns leaves [seen] as it found it, and [k] levels of recursion
    are enough when fewer than [k] ids are unseen. *)
Definition cascade_step (k : nat) (m : M Cascade unit) : Prop :=
  forall c r c', m c = (r, c') ->
    same_frame (c_heap c) (c_heap c') /\
    (r = Returned tt -> c_seen c' = c_seen c) /\
    ((unseen c < k)%nat -> r <> OutOfFuel).

(** [net.addTransition(sketch)->autoFire()]. *)
Definition add_auto (n : net) (sketch : TransitionSketch) : M World unit :=
  t <- PetriNet_addTransition n sketch ;; Transition_autoFire_always t.

(** The net of the cycle-detection test, A -> B -> C -> D -> A with E fed
    by the last transition, at a marking given by the caller (the test has
    one token on A). *)
Definition cycle_net (a b c d e : TokenCounterT) : M World net :=
  n <- PetriNet_new ;;
  PetriNet_addPlace n "A" a >>
  PetriNet_addPlace n "B" b >>
  PetriNet_addPlace n "C" c >>
  PetriNet_addPlace n "D" d >>
  PetriNet_addPlace n "E" e >>
  add_auto n (mkSketch "AB" [("A", 1)] [("B", 1)]) >>
  add_auto n (mkSketch "BC" [("B", 1)] [("C", 1)]) >>
  add_auto n (mkSketch "CD" [("C", 1)] [("D", 1)]) >>
  add_auto n (mkSketch "DEA" [("D", 1)] [("E", 1); ("A", 1)]) >>
  ret n.

(** The diamond of the same test: A feeds B and C, both feed D. *)
Definition diamond_net : M World net :=
  n <- PetriNet_new ;;
  PetriNet_addPlace n "A" 1 >>
  PetriNet_addPlace n "B" 0 >>
  PetriNet_addPlace n "C" 0 >>
  PetriNet_addPlace n "D" 0 >>
  PetriNet_addPlace n "E" 0 >>
  add_auto n (mkSketch "ABC" [("A", 1)] [("B", 1); ("C", 1)]) >>
  add_auto n (mkSketch "BD" [("B", 1)] [("D", 1)]) >>
  add_auto n (mkSketch "CD" [("C", 1)] [("D", 1)]) >>
  add_auto n (mkSketch "AE" [("A", 1)] [("E", 1)]) >>
  ret n.

(** What [merge] leaves alone in a place: its id, its tokens and its
    listener. *)
Definition place_core (p : Place) :=
  (Place_id_ p, Place_tokens_ p, Place_on_change_ p).

Definition same_cores (w w' : World) : Prop :=
  place_core <$> heap_places (w_heap w') =
  place_core <$> heap_places (w_heap w).

(** The [places_] of net [n]. *)
Definition net_places (w : World) (n : net) : option (list (option addr)) :=
  places_ <$> w_nets w !! n.

(** Partial correctness: what holds when [m] returns normally. *)
Definition returns {S A} (m : M S A) (s : S) (Q : A -> S -> Prop) : Prop :=
  forall a s', m s = (Returned a, s') -> Q a s'.

(** The two nets of the merge tests, A with T1 and B with T2, the second
    with a listener on B. *)
Definition two_nets : M World (net * net) :=
  net1 <- PetriNet_new ;;
  net2 <- PetriNet_new ;;
  PetriNet_addPlace net1 "A" 1 >>
  PetriNet_addTransition net1 (mkSketch "T1" [] []) >>
  b <- PetriNet_addPlace net2 "B" 1 ;;
  PetriNet_addTransition net2 (mkSketch "T2" [] []) >>
  modify (fun w => mkWorld (Place_onChange (w_heap w) b (Some 3%nat))
                           (w_nets w) (w_log w)) >>
  ret (net1, net2).

(** [net1.merge(std::move(net2), {{"T3", {{"D", 1}}, {{"C", 2}}}})]: the
    interconnection names places that neither net has. *)
Definition merge_invalid_interconnection : M World unit :=
  nets <- two_nets ;;
  PetriNet_merge nets.1 nets.2 [mkSketch "T3" [("D", 1)] [("C", 2)]].

(** [net1.merge(std::move(net2), {{"T3", {{"A", 1}}, {{"B", 2}}}})]. *)
Definition merge_valid_interconnection : M World unit :=
  nets <- two_nets ;;
  PetriNet_merge nets.1 nets.2 [mkSketch "T3" [("A", 1)] [("B", 2)]].

(** Two nets that both have a place A, and the merge of the second into
    the first. *)
Definition two_nets_same_place : M World (net * net) :=
  net1 <- PetriNet_new ;;
  net2 <- PetriNet_new ;;
  PetriNet_addPlace net1 "A" 1 >>
  PetriNet_addPlace net2 "A" 1 >>
  ret (net1, net2).

Definition merge_duplicate_place : M World unit :=
  nets <- two_nets_same_place ;;
  PetriNet_merge nets.1 nets.2 [].

(** A step that changes neither the core of a place nor the [places_] of
    a net. *)
Definition keeps_places (w w' : World) : Prop :=
  same_cores w w' /\ forall n, net_places w' n = net_places w n.

Definition listener_at (h : Heap) (place : addr) : option Listener :=
  heap_places h !! place ≫= Place_on_change_.

(** What holds of the world from the point where [merge] has moved the
    places: the cores are those of the world [w] it started from, and
    [places_] of the receiving net is [ps]. *)
Definition moved (w : World) (this : net) (ps : list (option addr))
    (w' : World) : Prop :=
  same_cores w w' /\ net_places w' this = Some ps.

(** The heap that [cycle_net] builds, as a function of the marking. *)
Definition cycle_heap (a b c d e : TokenCounterT) : Heap :=
  mkHeap
    [mkPlace "A" a None [3%nat] [0%nat]; mkPlace "B" b None [0%nat] [1%nat];
     mkPlace "C" c None [1%nat] [2%nat]; mkPlace "D" d None [2%nat] [3%nat];
     mkPlace "E" e None [3%nat] []]
    [mkTransition "AB" [(0%nat, 1)] [(1%nat, 1)] (Some (fun _ => true));
     mkTransition "BC" [(1%nat, 1)] [(2%nat, 1)] (Some (fun _ => true));
     mkTransition "CD" [(2%nat, 1)] [(3%nat, 1)] (Some (fun _ => true));
     mkTransition "DEA" [(3%nat, 1)] [(4%nat, 1); (0%nat, 1)]
                  (Some (fun _ => true))].

Definition cycle_world (a b c d e : TokenCounterT) : World :=
  mkWorld (cycle_heap a b c d e)
          [mkNet [Some 0; Some 1; Some 2; Some 3; Some 4]%nat [0; 1; 2; 3]%nat]
          [].

(** The cascade from [place] runs into a cycle, whatever the log holds. *)
Definition throws_cycle (n : nat) (place : addr) (h : Heap)
    (seen : gset string) : Prop :=
  forall log, exists c',
    Place_deepTick n place (mkCascade h seen log) = (Thrown cycle_detected, c').

(** ** Further operations and the notions their properties use *)

(** [Transition::deepFire()]: fires, and when that succeeded cascades into
    the output places with one fresh [seen] for all of them. *)
Definition Transition_deepFire (transition : addr) : M World bool :=
  h <- get_heap ;;
  match heap_transitions h !! transition with
  | None => undefined
  | Some t =>
      fired <- fire_at transition ;;
      if fired : bool then
        h' <- get_heap ;;
        run_cascade
          (for_each (fun '(place, _) => Place_deepTick (cascade_fuel h') place)
                    (Transition_outgoing_ t)) >>
        ret true
      else ret false
  end.

(** Every counter of the heap is a [uint32_t] value. *)
Definition valid_tokens (h : Heap) : Prop :=
  Forall (fun p => 0 <= Place_tokens_ p < 2 ^ 32) (heap_places h).

(** The pairs of a list are sufficient at [h]. *)
Definition sufficient (h : Heap) (pairs : list WeightPairT) : Prop :=
  Forall (fun pw : WeightPairT => pw.2 <= tokens_at h pw.1) pairs.

(** What the steps naming the place at [a] add to it, consumed weights
    counting negatively. *)
Fixpoint net_delta (a : addr) (ss : list step) : Z :=
  match ss with
  | [] => 0
  | (d, (place, weight)) :: rest =>
      (if decide (place = a)
       then match d with Consume => - weight | Produce => weight end
       else 0) + net_delta a rest
  end.

(** Every place pointer of the net points into the heap. *)
Definition net_allocated (h : Heap) (N : PetriNet) : Prop :=
  forall a, Some a ∈ places_ N -> (a < length (heap_places h))%nat.

(** The ids of the places of a net, in registration order. *)
Definition net_place_ids (h : Heap) (N : PetriNet) : list string :=
  omap (fun o : option addr => Place_getID h <$> o) (places_ N).

(** The ids of the transitions of a net, in registration order. *)
Definition net_transition_ids (h : Heap) (N : PetriNet) : list string :=
  Transition_getID h <$> transitions_ N.

(** What the look-up loops of [addTransitionAcquired] compute when no id
    is missing. *)
Fixpoint resolved (h : Heap) (N : PetriNet) (pairs : list SketchWeightPairT)
  : option (list WeightPairT) :=
  match pairs with
  | [] => Some []
  | (pid, weight) :: rest =>
      match findPlaceAcquired h N pid, resolved h N rest with
      | Some place, Some l => Some ((place, weight) :: l)
      | _, _ => None
      end
  end.

(** The adjacency lists after [ptr] has been pushed on the list chosen by
    [push] of the place of every pair. *)
Definition wired (push : nat -> Place -> Place) (ptr : addr)
    (pairs : list WeightPairT) (places : list Place) : list Place :=
  foldl (fun l (pw : WeightPairT) => alter (push ptr) pw.1 l) places pairs.

Definition transition_id_exists : exn :=
  invalid_argument "TransitionID already exists".
Definition sketch_invalid : exn :=
  invalid_argument "Sketch contains invalid IDs".

(** The number of pairs that name the place at [a]. *)
Definition times_named (a : addr) (pairs : list WeightPairT) : nat :=
  length (filter (fun pw : WeightPairT => pw.1 = a) pairs).

(** Every place id of the pairs belongs to a place of the net. *)
Definition ids_known (h : Heap) (N : PetriNet)
    (pairs : list SketchWeightPairT) : Prop :=
  forall pid, pid ∈ pairs.*1 ->
    exists a, Some a ∈ places_ N /\ Place_getID h a = pid.

(** A place with [k] more copies of [ptr] at the end of the list of the
    transitions it feeds, and one with them at the end of the list of the
    transitions that feed it. *)
Definition more_ingoing_to (k : nat) (ptr : addr) (p : Place) : Place :=
  mkPlace (Place_id_ p) (Place_tokens_ p) (Place_on_change_ p)
          (Place_outgoing_to_ p) (Place_ingoing_to_ p ++ replicate k ptr).

Definition more_outgoing_to (k : nat) (ptr : addr) (p : Place) : Place :=
  mkPlace (Place_id_ p) (Place_tokens_ p) (Place_on_change_ p)
          (Place_outgoing_to_ p ++ replicate k ptr) (Place_ingoing_to_ p).

(** The world [addTransitionAcquired] leaves when it succeeds with the
    resolved pairs [ingoing] and [outgoing]. *)
Definition world_with_transition (n : net) (N : PetriNet) (id : string)
    (ingoing outgoing : list WeightPairT) (w : World) : World :=
  let ptr := length (heap_transitions (w_heap w)) in
  mkWorld
    (mkHeap
       (wired push_outgoing_to ptr outgoing
          (wired push_ingoing_to ptr ingoing (heap_places (w_heap w))))
       (heap_transitions (w_heap w) ++
        [mkTransition id ingoing outgoing None]))
    (<[n := mkNet (places_ N) (transitions_ N ++ [ptr])]> (w_nets w))
    (w_log w).

(** Every pointer a cascade follows points at an object: the transitions
    a place feeds, and the places of the output pairs of a transition. *)
Definition cascade_pointers_valid (h : Heap) : Prop :=
  (forall a p t, heap_places h !! a = Some p -> t ∈ Place_ingoing_to_ p ->
     is_Some (heap_transitions h !! t)) /\
  (forall t T pw, heap_transitions h !! t = Some T ->
     pw ∈ Transition_outgoing_ T -> is_Some (heap_places h !! pw.1)).

(** The ways a cascade may end. *)
Definition cascade_end (r : outcome unit) : Prop :=
  r = Returned tt \/ r = Thrown cycle_detected \/ r = OutOfFuel.

Definition start_place_missing : exn :=
  invalid_argument "Start place ID not found".

(** The three validation loops of [merge], as tests. *)
Definition place_id_taken (h : Heap) (This : PetriNet) (place : option addr)
  : bool :=
  match place with
  | Some p => bool_decide (is_Some (find_place h (places_ This) (Place_getID h p)))
  | None => false
  end.

Definition transition_id_taken (h : Heap) (This : PetriNet) (id : string)
  : bool := exists_transition_id h (transitions_ This) id.

Definition duplicate_place_ids : exn := invalid_argument "Duplicate PlaceIDs".
Definition duplicate_transaction_ids : exn :=
  invalid_argument "Duplicate TransactionIDs".
Definition duplicate_transition_ids : exn :=
  invalid_argument "Duplicate TransitionIDs".

(** The transition at [t], re-expressed as a sketch with its predicate the
    way [merge] does it, is [s]. *)
Definition sketched (h : Heap) (t : addr) (s : SketchEvalCondPair) : Prop :=
  exists T,
    heap_transitions h !! t = Some T /\
    s = (mkSketch (Transition_id_ T)
                  (to_sketch_weight_pair h <$> Transition_ingoing_ T)
                  (to_sketch_weight_pair h <$> Transition_outgoing_ T),
         Transition_evaluate_condition_ T).

(** The world while [merge] rebuilds transitions in net [this], which has
    the places [ps] and had the transitions [ts0] when the heap was [h0]:
    the sketches of [done] have been added, each is found under its id and
    reads back as it was, and nothing else has changed but adjacency
    lists. *)
Definition rebuilding (this : net) (ps : list (option addr))
    (ts0 : list addr) (h0 : Heap) (done : list SketchEvalCondPair)
    (s : World) : Prop :=
  exists extra more,
    w_nets s !! this = Some (mkNet ps (ts0 ++ extra)) /\
    length extra = length done /\
    place_core <$> heap_places (w_heap s) = place_core <$> heap_places h0 /\
    heap_transitions (w_heap s) = heap_transitions h0 ++ more /\
    (forall t, t ∈ ts0 ++ extra ->
       (t < length (heap_transitions (w_heap s)))%nat) /\
    forall sc, sc ∈ done ->
      exists t,
        find_transition (w_heap s) (ts0 ++ extra) (sketch_id sc.1) = Some t /\
        sketched (w_heap s) t sc.

(** The last two loops of [merge]: the transitions of the other net are
    created again in [this] from their sketches, with their predicates,
    and then the interconnections are created. *)
Definition merge_rebuild (this : net)
    (new_transitions : list SketchEvalCondPair)
    (interconnections : list TransitionSketch) : M World unit :=
  for_each (fun '(sketch, eval_cond) =>
              addTransitionAcquired this sketch >>
              found <- PetriNet_findTransition this (sketch_id sketch) ;;
              match found with
              | None => undefined
              | Some t => store_evaluate_condition t eval_cond
              end) new_transitions >>
  for_each (fun sketch => addTransitionAcquired this sketch >> ret tt)
           interconnections.

(** The nets when [merge] has moved the places of [Other] to [This]. *)
Definition nets_moved (this other : net) (This Other : PetriNet)
    (nets : list PetriNet) : list PetriNet :=
  <[other := mkNet ((fun _ => None) <$> places_ Other) []]>
    (<[this := mkNet (places_ This ++ places_ Other) (transitions_ This)]>
       (<[other := mkNet (places_ Other) []]> nets)).

From stdpp Require pretty.

(** ** examples/harbor_terminal.cpp *)

(** [place->onChange(fn)] on an address. *)
Definition onChange_at (place : addr) (fn : Listener) : M World unit :=
  modify (fun w => mkWorld (Place_onChange (w_heap w) place (Some fn))
                           (w_nets w) (w_log w)).

(** [EnabledSupplier<amount, per_tick>]: the names it generates. *)
Definition supplier_suffix (amount per_tick : Z) : string :=
  pretty.pretty amount +:+ "@" +:+ pretty.pretty per_tick.
Definition supplier_place_name (amount per_tick : Z) : string :=
  "supplier_stock_" +:+ supplier_suffix amount per_tick.
Definition supplier_transition_name (amount per_tick : Z) : string :=
  "supply_" +:+ supplier_suffix amount per_tick.

(** The predicate a supplier installs returns its flag [enabled_].  The
    predicate holds the supplier by reference, so writing the flag changes
    what the installed predicate returns: to the net, [enable()] and
    [disable()] replace the predicate by the one that returns the new
    value. *)
Definition enabled_pred (enabled_ : bool) : Pred := fun _ => enabled_.

Definition Supplier_install (amount per_tick : Z) (enabled_ : bool)
    (main_net : net) : M World unit :=
  found <- PetriNet_findTransition main_net
             (supplier_transition_name amount per_tick) ;;
  match found with
  | None => undefined
  | Some t => Transition_autoFire t (Some (enabled_pred enabled_))
  end.

(** [EnabledSupplier::attachToNet], on a supplier that is disabled as its
    constructor leaves it. *)
Definition EnabledSupplier_attachToNet (amount per_tick : Z) (main_net : net)
  : M World unit :=
  let place_name := supplier_place_name amount per_tick in
  let transition_name := supplier_transition_name amount per_tick in
  PetriNet_addPlace main_net place_name amount >>
  PetriNet_addTransition main_net
    (mkSketch transition_name [(place_name, per_tick)]
              [("freight", per_tick)]) >>
  Supplier_install amount per_tick false main_net.

Record PortNetManager := mkPort {
  net_ : net;
  enter_a_ : option addr;
  enter_b_ : option addr;
  leave_a_ : option addr;
  leave_b_ : option addr
}.

(** The handles of the two listeners of the port. *)
Definition freight_listener : Listener := 0%nat.
Definition on_port_change : Listener := 1%nat.

Definition onChange_found (found : option addr) (fn : Listener)
  : M World unit :=
  match found with
  | None => undefined
  | Some place => onChange_at place fn
  end.

(** [PortNetManager::PortNetManager()]. *)
Definition PortNetManager_new : M World PortNetManager :=
  net_ <- PetriNet_new ;;
  PetriNet_addPlace net_ "port_a" 0 >>
  PetriNet_addPlace net_ "port_a_free" 1 >>
  PetriNet_addPlace net_ "port_b" 0 >>
  PetriNet_addPlace net_ "port_b_free" 1 >>
  PetriNet_addPlace net_ "freight" 0 >>
  PetriNet_addTransition net_
    (mkSketch "enter_a" [("port_a_free", 1)] [("port_a", 1)]) >>
  PetriNet_addTransition net_
    (mkSketch "enter_b" [("port_b_free", 1)] [("port_b", 1)]) >>
  PetriNet_addTransition net_
    (mkSketch "leave_a" [("port_a", 1); ("freight", 2)] [("port_a_free", 1)]) >>
  PetriNet_addTransition net_
    (mkSketch "leave_b" [("port_b", 1); ("freight", 3)] [("port_b_free", 1)]) >>
  enter_a_ <- PetriNet_findTransition net_ "enter_a" ;;
  enter_b_ <- PetriNet_findTransition net_ "enter_b" ;;
  leave_a_ <- PetriNet_findTransition net_ "leave_a" ;;
  leave_b_ <- PetriNet_findTransition net_ "leave_b" ;;
  freight <- PetriNet_findPlace net_ "freight" ;;
  onChange_found freight freight_listener >>
  port_a <- PetriNet_findPlace net_ "port_a" ;;
  onChange_found port_a on_port_change >>
  port_b <- PetriNet_findPlace net_ "port_b" ;;
  onChange_found port_b on_port_change >>
  ret (mkPort net_ enter_a_ enter_b_ leave_a_ leave_b_).

(** [tryEnterA()] and the like: [fire()] through the stored pointer. *)
Definition fire_stored (transition : option addr) : M World bool :=
  match transition with
  | None => undefined
  | Some t => fire_at t
  end.

(** What the threads of [main] do, each call under the lock of the net or
    a plain write of a flag. *)
Inductive port_call :=
  | TryEnterA | TryEnterB | TryLeaveA | TryLeaveB
  | PortTick
  | SetEnabled1 (enabled_ : bool)
  | SetEnabled2 (enabled_ : bool).

Definition do_call (port : PortNetManager) (c : port_call) : M World unit :=
  match c with
  | TryEnterA => fire_stored (enter_a_ port) >> ret tt
  | TryEnterB => fire_stored (enter_b_ port) >> ret tt
  | TryLeaveA => fire_stored (leave_a_ port) >> ret tt
  | TryLeaveB => fire_stored (leave_b_ port) >> ret tt
  | PortTick => PetriNet_tick (net_ port)
  | SetEnabled1 b => Supplier_install 28 2 b (net_ port)
  | SetEnabled2 b => Supplier_install 10 1 b (net_ port)
  end.

(** The start of [main]: the port and its two suppliers. *)
Definition harbor_setup : M World PortNetManager :=
  port <- PortNetManager_new ;;
  EnabledSupplier_attachToNet 28 2 (net_ port) >>
  EnabledSupplier_attachToNet 10 1 (net_ port) >>
  ret port.

(** [main], with the calls of its threads in the order [calls] in which
    they take effect. *)
Definition harbor_main (calls : list port_call) : M World PortNetManager :=
  port <- harbor_setup ;;
  for_each (do_call port) calls >>
  ret port.

(** The token count of the place of net [n] with the id [id]. *)
Definition tokens_of (w : World) (n : net) (id : string)
  : option TokenCounterT :=
  N ← w_nets w !! n;
  place ← findPlaceAcquired (w_heap w) N id;
  Some (tokens_at (w_heap w) place).

(** The heap of the harbor as a function of the marking and of the
    predicates of the two supply transitions. *)
Definition harbor_heap (a af b bf fr s1 s2 : TokenCounterT)
    (c1 c2 : option Pred) : Heap :=
  mkHeap
    [mkPlace "port_a" a (Some on_port_change) [0%nat] [2%nat];
     mkPlace "port_a_free" af None [2%nat] [0%nat];
     mkPlace "port_b" b (Some on_port_change) [1%nat] [3%nat];
     mkPlace "port_b_free" bf None [3%nat] [1%nat];
     mkPlace "freight" fr (Some freight_listener) [4%nat; 5%nat]
             [2%nat; 3%nat];
     mkPlace "supplier_stock_28@2" s1 None [] [4%nat];
     mkPlace "supplier_stock_10@1" s2 None [] [5%nat]]
    [mkTransition "enter_a" [(1%nat, 1)] [(0%nat, 1)] None;
     mkTransition "enter_b" [(3%nat, 1)] [(2%nat, 1)] None;
     mkTransition "leave_a" [(0%nat, 1); (4%nat, 2)] [(1%nat, 1)] None;
     mkTransition "leave_b" [(2%nat, 1); (4%nat, 3)] [(3%nat, 1)] None;
     mkTransition "supply_28@2" [(5%nat, 2)] [(4%nat, 2)] c1;
     mkTransition "supply_10@1" [(6%nat, 1)] [(4%nat, 1)] c2].

Definition harbor_nets : list PetriNet :=
  [mkNet [Some 0; Some 1; Some 2; Some 3; Some 4; Some 5; Some 6]%nat
         [0; 1; 2; 3; 4; 5]%nat].

Definition harbor_port : PortNetManager :=
  mkPort 0%nat (Some 0%nat) (Some 1%nat) (Some 2%nat) (Some 3%nat).

(** The harbor with a marking in which each port holds a ship or is free,
    and the freight and the stocks are what the suppliers brought in. *)
Definition harbor_safe (w : World) : Prop :=
  exists a af b bf fr s1 s2 c1 c2,
    w_heap w = harbor_heap a af b bf fr s1 s2 c1 c2 /\
    w_nets w = harbor_nets /\
    0 <= a /\ 0 <= af /\ a + af = 1 /\
    0 <= b /\ 0 <= bf /\ b + bf = 1 /\
    0 <= fr /\ 0 <= s1 <= 28 /\ 0 <= s2 <= 10 /\ fr + s1 + s2 <= 38.

(** * Properties of [Transition::fire] *)

Lemma tokens_at_store_eq h a v :
  allocated h a -> tokens_at (store_tokens h a v) a = v.
Proof.
  unfold allocated, tokens_at, store_tokens. simpl. intros H.
  rewrite list_lookup_alter_eq.
  destruct (lookup_lt_is_Some_2 _ _ H) as [p ->]. reflexivity.
Qed.

Lemma tokens_at_store_ne h a b v :
  a <> b -> tokens_at (store_tokens h a v) b = tokens_at h b.
Proof.
  unfold tokens_at, store_tokens. simpl. intros H.
  now rewrite list_lookup_alter_ne.
Qed.

Lemma allocated_store h a v b :
  allocated (store_tokens h a v) b <-> allocated h b.
Proof. unfold allocated, store_tokens. simpl. now rewrite length_alter. Qed.

Lemma tokens_at_lookup h a p :
  heap_places h !! a = Some p -> tokens_at h a = Place_tokens_ p.
Proof. unfold tokens_at. now intros ->. Qed.

Lemma prevs_app h ss1 ss2 :
  prevs h (ss1 ++ ss2) = prevs h ss1 ++ prevs (apply_steps ss1 h) ss2.
Proof.
  revert h. induction ss1 as [|s ss1 IH]; intros h; simpl; [reflexivity|].
  now rewrite IH.
Qed.

Lemma fireLoop_steps d pairs h n :
  fireLoop (step_op d) pairs h n =
  (apply_steps (pair d <$> pairs) h, n ++ prevs h (pair d <$> pairs)).
Proof.
  revert h n. induction pairs as [|[place weight] rest IH]; intros h n; simpl.
  - now rewrite app_nil_r.
  - rewrite IH. unfold apply_steps. simpl. now rewrite <- app_assoc.
Qed.

Lemma fireLocked_ready h t :
  Transition_readyAcquired h t = true ->
  fireLocked h t = (true, apply_steps (steps t) h, prevs h (steps t)).
Proof.
  intros H. unfold fireLocked. rewrite H.
  rewrite (fireLoop_steps Consume), (fireLoop_steps Produce). simpl.
  unfold steps, apply_steps. now rewrite foldl_app, prevs_app.
Qed.

Lemma Transition_fire_ready h t :
  Transition_readyAcquired h t = true ->
  Transition_fire h t =
  (true, apply_steps (steps t) h,
   notifyLoop (apply_steps (steps t) h) (prevs h (steps t))).
Proof. intros H. unfold Transition_fire. now rewrite fireLocked_ready. Qed.

Lemma Transition_fire_not_ready h t :
  Transition_readyAcquired h t = false ->
  Transition_fire h t = (false, h, []).
Proof. intros H. unfold Transition_fire, fireLocked. now rewrite H. Qed.

Lemma same_frame_refl h : same_frame h h.
Proof. now split. Qed.

Lemma same_frame_trans h1 h2 h3 :
  same_frame h1 h2 -> same_frame h2 h3 -> same_frame h1 h3.
Proof. intros [A B] [C D]. split; congruence. Qed.

Lemma same_frame_store h a v : same_frame h (store_tokens h a v).
Proof.
  split; [|reflexivity]. unfold store_tokens. simpl.
  apply list_eq. intros i. rewrite !list_lookup_fmap.
  destruct (decide (i = a)) as [->|Hne].
  - rewrite list_lookup_alter_eq. rewrite <- option_fmap_compose.
    apply option_fmap_ext. reflexivity.
  - now rewrite list_lookup_alter_ne.
Qed.

Lemma same_frame_apply_steps ss h : same_frame h (apply_steps ss h).
Proof.
  revert h. induction ss as [|s ss IH]; intros h; simpl.
  - apply same_frame_refl.
  - eapply same_frame_trans; [|apply IH]. apply same_frame_store.
Qed.

Lemma same_frame_lookup h h' a p :
  same_frame h h' -> heap_places h !! a = Some p ->
  exists p', heap_places h' !! a = Some p' /\ place_frame p' = place_frame p.
Proof.
  intros [Hf _] Hp.
  assert (H : (place_frame <$> heap_places h') !! a = Some (place_frame p)).
  { rewrite Hf, list_lookup_fmap, Hp. reflexivity. }
  rewrite list_lookup_fmap in H.
  destruct (heap_places h' !! a) as [p'|]; [|discriminate].
  exists p'. split; [reflexivity|]. simpl in H. congruence.
Qed.

Lemma Transition_fire_same_frame h t :
  same_frame h (Transition_fire h t).1.2.
Proof.
  destruct (Transition_readyAcquired h t) eqn:E.
  - rewrite Transition_fire_ready by assumption. apply same_frame_apply_steps.
  - rewrite Transition_fire_not_ready by assumption. apply same_frame_refl.
Qed.

Lemma fire_returns_ready (h : Heap) (t : Transition) :
  (Transition_fire h t).1.1 = Transition_readyAcquired h t.
Proof.
  destruct (Transition_readyAcquired h t) eqn:E.
  - now rewrite Transition_fire_ready.
  - now rewrite Transition_fire_not_ready.
Qed.

(** ** Notifications of a firing *)

Lemma prevs_places h ss : (prevs h ss).*1 = step_place <$> ss.
Proof.
  revert h. induction ss as [|s ss IH]; intros h; simpl; [reflexivity|].
  now rewrite IH.
Qed.

Lemma prevs_lookup h ss i s :
  ss !! i = Some s ->
  prevs h ss !! i =
  Some (step_place s, tokens_at (apply_steps (take i ss) h) (step_place s)).
Proof.
  revert h i. induction ss as [|s0 ss IH]; intros h [|i] H; simpl in *;
    try discriminate.
  - now inversion H.
  - now apply IH.
Qed.

Lemma apply_step_other h s a :
  step_place s <> a -> tokens_at (apply_step h s) a = tokens_at h a.
Proof. intros H. unfold apply_step. now apply tokens_at_store_ne. Qed.

Lemma prevs_filter_length h ss a :
  length (filter (fun x : WeightPairT => x.1 = a) (prevs h ss)) =
  length (filter (fun s => step_place s = a) ss).
Proof.
  revert h. induction ss as [|s ss IH]; intros h; simpl; [reflexivity|].
  destruct (decide (step_place s = a)) as [E|E].
  - rewrite !filter_cons_True by assumption. simpl. now rewrite IH.
  - rewrite !filter_cons_False by assumption. apply IH.
Qed.

Lemma prevs_filter_single h ss a :
  length (filter (fun s => step_place s = a) ss) = 1%nat ->
  filter (fun x : WeightPairT => x.1 = a) (prevs h ss) = [(a, tokens_at h a)].
Proof.
  revert h. induction ss as [|s ss IH]; intros h; simpl; [discriminate|].
  destruct (decide (step_place s = a)) as [E|E].
  - rewrite !filter_cons_True by assumption. simpl. intros [= H].
    rewrite E. f_equal. apply nil_length_inv.
    now rewrite prevs_filter_length.
  - rewrite !filter_cons_False by assumption. intros H.
    rewrite IH by assumption. now rewrite apply_step_other.
Qed.

Lemma notifyLoop_calls h a p fn ptn :
  heap_places h !! a = Some p ->
  Place_on_change_ p = Some fn ->
  calls_to a (notifyLoop h ptn) =
  (fun x : WeightPairT => Notified a fn (Place_tokens_ p) x.2) <$>
  filter (fun x : WeightPairT => x.1 = a) ptn.
Proof.
  intros Hp Hfn. unfold calls_to.
  induction ptn as [|[place prev] rest IH]; simpl; [reflexivity|].
  rewrite filter_app, IH.
  destruct (decide (place = a)) as [->|Hne].
  - rewrite (filter_cons_True (fun x : WeightPairT => x.1 = a)) by reflexivity.
    unfold Place_changed. rewrite Hp, Hfn.
    rewrite (filter_cons_True (fun e => ev_place e = a)) by reflexivity.
    reflexivity.
  - rewrite (filter_cons_False (fun x : WeightPairT => x.1 = a)) by assumption.
    unfold Place_changed.
    destruct (heap_places h !! place) as [q|]; [|reflexivity].
    destruct (Place_on_change_ q); [|reflexivity].
    rewrite (filter_cons_False (fun e => ev_place e = a)) by assumption.
    reflexivity.
Qed.

(** C3, as stated, fails: a place that a transition both consumes from and
    produces into has its listener called twice by one successful
    [fire()], the second time with the count left by the first mutation. *)
Lemma fire_notifies_loop_place_twice :
  let '(rdy, h', evs) := Transition_fire loop_heap loop_T in
  rdy = true /\
  calls_to 0%nat evs = [Notified 0%nat 7%nat 1 1; Notified 0%nat 7%nat 1 0] /\
  length (calls_to 0%nat evs) <> 1%nat.
Proof. vm_compute. repeat split. discriminate. Qed.

(** C3, amended: a successful [fire()] records one entry per weight pair,
    inputs then outputs, each with the count its place held immediately
    before that pair was applied; every entry is one call of the listener
    of its place.  So a place with a listener is called once for each pair
    naming it (twice when it is both an input and an output), and a place
    named by exactly one pair is called exactly once, with the count it
    held before the firing. *)
Theorem fire_notifies_once_per_pair (h : Heap) (t : Transition) :
  (Transition_fire h t).1.1 = true ->
  let h' := (Transition_fire h t).1.2 in
  let evs := (Transition_fire h t).2 in
  let places_to_notify := (fireLocked h t).2 in
  places_to_notify.*1 = step_place <$> steps t /\
  (forall i s, steps t !! i = Some s ->
     places_to_notify !! i =
     Some (step_place s,
           tokens_at (apply_steps (take i (steps t)) h) (step_place s))) /\
  (forall a p fn,
     heap_places h !! a = Some p -> Place_on_change_ p = Some fn ->
     calls_to a evs =
       (fun x : WeightPairT => Notified a fn (tokens_at h' a) x.2) <$>
       filter (fun x : WeightPairT => x.1 = a) places_to_notify /\
     length (calls_to a evs) = length (pairs_naming a t) /\
     (length (pairs_naming a t) = 1%nat ->
      calls_to a evs = [Notified a fn (tokens_at h' a) (tokens_at h a)])).
Proof.
  rewrite fire_returns_ready. intros Hr.
  rewrite Transition_fire_ready, fireLocked_ready by assumption. simpl.
  split; [apply prevs_places|].
  split; [intros i s; apply prevs_lookup|].
  intros a p fn Hp Hfn.
  destruct (same_frame_lookup h (apply_steps (steps t) h) a p
              (same_frame_apply_steps _ _) Hp) as (p' & Hp' & Hfr).
  assert (Hfn' : Place_on_change_ p' = Some fn).
  { unfold place_frame in Hfr. congruence. }
  rewrite (notifyLoop_calls _ a p' fn _ Hp' Hfn').
  rewrite (tokens_at_lookup _ _ _ Hp').
  split; [reflexivity|]. split.
  - rewrite length_fmap. apply prevs_filter_length.
  - intros H1. unfold pairs_naming in H1.
    rewrite (prevs_filter_single h (steps t) a H1). reflexivity.
Qed.

Lemma fire_notifies_once_per_pair_witness :
  (Transition_fire loop_heap loop_T).1.1 = true /\
  length (calls_to 0%nat (Transition_fire loop_heap loop_T).2) =
  length (pairs_naming 0%nat loop_T).
Proof.
  split; [reflexivity|].
  destruct (fire_notifies_once_per_pair loop_heap loop_T eq_refl)
    as (_ & _ & H).
  destruct (H 0%nat _ 7%nat eq_refl eq_refl) as (_ & H2 & _).
  exact H2.
Defined.

(** C7: the concrete scenario.  With A=3, B=4, C=5, D=0, E=0 and T taking
    2, 3, 4 from A, B, C and giving 1 to each of D and E, the first
    [fire()] returns true and leaves one token on every place; the second
    returns false and changes nothing. *)
Theorem scenario_fire_twice :
  let '(r1, h1, _) := Transition_fire scenario_heap scenario_T in
  let '(r2, h2, _) := Transition_fire h1 scenario_T in
  r1 = true /\
  marking h1 = [("A", 1); ("B", 1); ("C", 1); ("D", 1); ("E", 1)] /\
  r2 = false /\
  h2 = h1.
Proof. vm_compute. repeat split. Qed.

(** C10: a [fire()] that returns false has recorded no place to notify,
    calls no listener and leaves the heap as it was. *)
Theorem fire_not_ready_notifies_nobody (h : Heap) (t : Transition) :
  (Transition_fire h t).1.1 = false ->
  (fireLocked h t).2 = [] /\
  Transition_fire h t = (false, h, []).
Proof.
  rewrite fire_returns_ready. intros H.
  rewrite Transition_fire_not_ready by assumption.
  unfold fireLocked. now rewrite H.
Qed.

Lemma fire_not_ready_notifies_nobody_witness :
  let h1 := (Transition_fire scenario_heap scenario_T).1.2 in
  (Transition_fire h1 scenario_T).1.1 = false /\
  Transition_fire h1 scenario_T = (false, h1, []).
Proof.
  split; [reflexivity|].
  apply (fire_not_ready_notifies_nobody
           (Transition_fire scenario_heap scenario_T).1.2 scenario_T).
  reflexivity.
Defined.

(** ** Token counts after a firing *)

Lemma demand_not_named a pairs : a ∉ pairs.*1 -> demand a pairs = 0.
Proof.
  induction pairs as [|[p w] rest IH]; simpl; [reflexivity|].
  intros H. apply not_elem_of_cons in H as [Hne Hrest].
  rewrite decide_False by congruence. now rewrite IH.
Qed.

Lemma wrap32_add_l a b : wrap32 (wrap32 a + b) = wrap32 (a + b).
Proof. unfold wrap32. apply Zplus_mod_idemp_l. Qed.

Lemma apply_steps_produce_tokens pairs h a :
  allocated h a ->
  tokens_at (apply_steps (pair Produce <$> pairs) h) a =
  if decide (a ∈ pairs.*1) then wrap32 (tokens_at h a + demand a pairs)
  else tokens_at h a.
Proof.
  revert h. induction pairs as [|[p w] rest IH]; intros h Ha; csimpl.
  - reflexivity.
  - unfold apply_steps in *. csimpl.
    rewrite IH by now apply allocated_store.
    unfold apply_step, step_place. csimpl.
    destruct (decide (p = a)) as [->|Hne].
    + rewrite tokens_at_store_eq by assumption.
      rewrite (decide_True (P := a ∈ a :: rest.*1)) by (apply elem_of_cons; now left).
      unfold tok_add. destruct (decide (a ∈ rest.*1)) as [Hin|Hout].
      * rewrite wrap32_add_l. f_equal. lia.
      * rewrite demand_not_named by assumption. f_equal. lia.
    + rewrite tokens_at_store_ne by assumption.
      destruct (decide (a ∈ rest.*1)) as [Hin|Hout].
      * rewrite decide_True by (apply elem_of_cons; now right).
        f_equal.
      * rewrite decide_False; [reflexivity|].
        intros H. apply elem_of_cons in H as [H|H]; congruence.
Qed.

(** C9: a transition with no input pairs is always ready, and every
    [fire()] of it returns true and adds to each place the weights of the
    output pairs naming it, in [uint32_t] arithmetic, whatever the
    marking. *)
Theorem fire_without_inputs (h : Heap) (t : Transition) :
  Transition_ingoing_ t = [] ->
  Transition_ready h t = true /\
  (Transition_fire h t).1.1 = true /\
  forall a p, heap_places h !! a = Some p ->
    tokens_at (Transition_fire h t).1.2 a =
    if decide (a ∈ (Transition_outgoing_ t).*1)
    then wrap32 (Place_tokens_ p + demand a (Transition_outgoing_ t))
    else Place_tokens_ p.
Proof.
  intros Hin.
  assert (Hr : Transition_readyAcquired h t = true).
  { unfold Transition_readyAcquired. now rewrite Hin. }
  split; [exact Hr|]. rewrite Transition_fire_ready by assumption. simpl.
  split; [reflexivity|]. intros a p Hp.
  unfold steps. rewrite Hin. simpl.
  rewrite apply_steps_produce_tokens by (eapply lookup_lt_Some; eassumption).
  now rewrite (tokens_at_lookup _ _ _ Hp).
Qed.

Lemma fire_without_inputs_witness :
  let t := mkTransition "T" [] [(3%nat, 1); (3%nat, 2)] None in
  Transition_ingoing_ t = [] /\
  (Transition_fire scenario_heap t).1.1 = true.
Proof.
  split; [reflexivity|].
  apply (fire_without_inputs scenario_heap
           (mkTransition "T" [] [(3%nat, 1); (3%nat, 2)] None) eq_refl).
Defined.

(** When no two input pairs name the same place, the readiness check does
    cover the whole demand on every place. *)
Lemma ready_covers_demand_distinct h pairs a :
  NoDup pairs.*1 -> readyLoop h pairs = true ->
  0 <= tokens_at h a -> demand a pairs <= tokens_at h a.
Proof.
  induction pairs as [|[p w] rest IH]; simpl; intros Hnd Hr H0; [lia|].
  apply NoDup_cons in Hnd as [Hp Hnd].
  destruct (tokens_at h p <? w) eqn:E; [discriminate|].
  apply Z.ltb_ge in E.
  destruct (decide (p = a)) as [->|Hne].
  - rewrite demand_not_named by assumption. lia.
  - specialize (IH Hnd Hr H0). lia.
Qed.

(** C2, the failing input: a place with 3 tokens named by two input pairs
    of weight 2.  Each pair passes the readiness check on its own, the
    demand of 4 exceeds the 3 tokens, and [fire()] goes through: the
    second subtraction takes 1 - 2 below zero and the count wraps to
    2^32 - 1. *)
Theorem fire_double_input_underflows :
  let '(r0, w0) := run double_input_setup in
  let '(r, w) := run double_input_program in
  marking (w_heap w0) = [("A", 3)] /\
  Transition_ingoing_ <$> heap_transitions (w_heap w0) =
    [[(0%nat, 2); (0%nat, 2)]] /\
  Transition_ready (w_heap w0) <$> heap_transitions (w_heap w0) = [true] /\
  demand 0%nat [(0%nat, 2); (0%nat, 2)] = 4 /\
  r = Returned true /\
  marking (w_heap w) = [("A", 4294967295)].
Proof. vm_compute. repeat split. Qed.

(** ** [Transition::deepTick] *)

Lemma Transition_tick_condition h t :
  Transition_tick h t =
  if condition_holds h t then Transition_fire h t else (false, h, []).
Proof.
  unfold Transition_tick, condition_holds.
  destruct (Transition_evaluate_condition_ t); reflexivity.
Qed.

Lemma Transition_deepTick_with_eq rec transition t c :
  heap_transitions (c_heap c) !! transition = Some t ->
  Transition_deepTick_with rec transition c =
  let '(fired, h', evs) := Transition_tick (c_heap c) t in
  let c' := mkCascade h' (c_seen c) (c_log c ++ evs) in
  if fired then
    for_each (fun '(place, _) => rec place) (Transition_outgoing_ t) c'
  else (Returned tt, c').
Proof.
  intros Ht. unfold Transition_deepTick_with, bind, get. cbv beta iota.
  rewrite Ht. destruct (Transition_tick (c_heap c) t) as [[fired h'] evs].
  unfold modify. cbv beta iota. now destruct fired.
Qed.

(** C1, as stated, fails: on a ready transition with no predicate
    installed, [deepTick()] returns without moving a token, where [fire()]
    returns true and moves it. *)
Lemma deepTick_without_predicate_does_not_fire :
  let '(r1, w1) := run (t <- plain_setup ;; Transition_deepTick_fresh t) in
  let '(r2, w2) := run (t <- plain_setup ;; fire_at t) in
  r1 = Returned tt /\ marking (w_heap w1) = [("A", 1); ("B", 0)] /\
  r2 = Returned true /\ marking (w_heap w2) = [("A", 0); ("B", 1)].
Proof. vm_compute. repeat split. Qed.

(** C1, amended: [Transition::deepTick(seen)] goes through [tick()].  When
    no predicate is installed, or the predicate does not hold, nothing is
    fired and no place is visited.  When the predicate holds, [fire()] is
    called, and the output places are visited, in order, exactly when it
    returned true. *)
Theorem deepTick_ticks_then_cascades (fuel : nat) (transition : addr)
    (t : Transition) (c : Cascade) :
  heap_transitions (c_heap c) !! transition = Some t ->
  (condition_holds (c_heap c) t = false ->
   Transition_deepTick fuel transition c = (Returned tt, c)) /\
  (condition_holds (c_heap c) t = true ->
   Transition_deepTick fuel transition c =
   let '(rdy, h', evs) := Transition_fire (c_heap c) t in
   let c' := mkCascade h' (c_seen c) (c_log c ++ evs) in
   if rdy then
     for_each (fun '(place, _) => Place_deepTick fuel place)
              (Transition_outgoing_ t) c'
   else (Returned tt, c')).
Proof.
  intros Ht. unfold Transition_deepTick.
  rewrite (Transition_deepTick_with_eq _ _ _ _ Ht).
  rewrite Transition_tick_condition.
  split; intros Hc; rewrite Hc.
  - rewrite app_nil_r. now destruct c.
  - reflexivity.
Qed.

Lemma deepTick_ticks_then_cascades_witness :
  let w := (run plain_setup).2 in
  let c := mkCascade (w_heap w) ∅ [] in
  heap_transitions (w_heap w) !! 0%nat =
    Some (mkTransition "T" [(0%nat, 1)] [(1%nat, 1)] None) /\
  Transition_deepTick 3 0%nat c = (Returned tt, c).
Proof.
  split; [reflexivity|].
  apply (deepTick_ticks_then_cascades 3 0%nat
           (mkTransition "T" [(0%nat, 1)] [(1%nat, 1)] None)
           (mkCascade (w_heap (run plain_setup).2) ∅ []) eq_refl).
  reflexivity.
Defined.

(** ** Cascades terminate *)

Lemma same_frame_place_ids h h' : same_frame h h' -> place_ids h' = place_ids h.
Proof.
  intros [Hf _]. unfold place_ids. f_equal.
  assert (E : forall l : list Place, Place_id_ <$> l = (fun x => x.1.1.1) <$> (place_frame <$> l)).
  { intros l. rewrite <- list_fmap_compose. reflexivity. }
  now rewrite !E, Hf.
Qed.

Lemma Transition_tick_same_frame h t : same_frame h (Transition_tick h t).1.2.
Proof.
  rewrite Transition_tick_condition. destruct (condition_holds h t).
  - apply Transition_fire_same_frame.
  - apply same_frame_refl.
Qed.

Lemma cascade_step_for_each {X} k (body : X -> M Cascade unit) xs :
  (forall x, cascade_step k (body x)) -> cascade_step k (for_each body xs).
Proof.
  intros Hbody. induction xs as [|x xs IH]; intros c r c' H; simpl in H.
  - inversion H; subst. split; [apply same_frame_refl|]. split; [reflexivity|discriminate].
  - unfold bind in H. destruct (body x c) as [r1 c1] eqn:E1.
    destruct (Hbody x _ _ _ E1) as (Hf1 & Hs1 & Hk1).
    destruct r1 as [[]| | | |].
    + destruct (IH _ _ _ H) as (Hf2 & Hs2 & Hk2).
      specialize (Hs1 eq_refl).
      split; [eapply same_frame_trans; eassumption|].
      split; [intros Hr; rewrite Hs2 by assumption; assumption|].
      intros Hlt. apply Hk2. unfold unseen in *.
      now rewrite (same_frame_place_ids _ _ Hf1), Hs1.
    + inversion H; subst. repeat split; try apply Hf1; try discriminate.
    + inversion H; subst. repeat split; try apply Hf1; try discriminate.
    + inversion H; subst. repeat split; try apply Hf1; try discriminate.
    + inversion H; subst. repeat split; try apply Hf1; try discriminate.
      assumption.
Qed.

Lemma cascade_step_Transition_deepTick k rec transition :
  (forall place, cascade_step k (rec place)) ->
  cascade_step k (Transition_deepTick_with rec transition).
Proof.
  intros Hrec c r c' H.
  destruct (heap_transitions (c_heap c) !! transition) as [t|] eqn:Ht.
  - rewrite (Transition_deepTick_with_eq _ _ _ _ Ht) in H.
    pose proof (Transition_tick_same_frame (c_heap c) t) as Hf.
    destruct (Transition_tick (c_heap c) t) as [[fired h'] evs]. simpl in Hf.
    destruct fired.
    + assert (Hl : cascade_step k (for_each (fun '(place, _) => rec place)
                                     (Transition_outgoing_ t))).
      { apply cascade_step_for_each. intros [place w]. apply Hrec. }
      destruct (Hl _ _ _ H) as (Hf2 & Hs2 & Hk2). simpl in *.
      split; [eapply same_frame_trans; eassumption|].
      split; [assumption|].
      intros Hlt. apply Hk2. unfold unseen in *. simpl.
      now rewrite (same_frame_place_ids _ _ Hf).
    + inversion H; subst. simpl. repeat split; try apply Hf; discriminate.
  - unfold Transition_deepTick_with, bind, get in H. cbv beta iota in H.
    rewrite Ht in H. inversion H; subst.
    split; [apply same_frame_refl|]. split; [reflexivity|discriminate].
Qed.

Lemma unseen_insert c id :
  id ∈ place_ids (c_heap c) -> id ∉ c_seen c ->
  (size (place_ids (c_heap c) ∖ ({[id]} ∪ c_seen c)) < unseen c)%nat.
Proof.
  intros Hin Hout. unfold unseen. apply subset_size. split.
  - intros x. rewrite !elem_of_difference, elem_of_union. tauto.
  - intros H. specialize (H id).
    rewrite !elem_of_difference, elem_of_union, elem_of_singleton in H. tauto.
Qed.

Lemma place_id_in_heap h place p :
  heap_places h !! place = Some p -> Place_id_ p ∈ place_ids h.
Proof.
  intros H. unfold place_ids. apply elem_of_list_to_set.
  apply list_elem_of_fmap. exists p. split; [reflexivity|].
  eapply list_elem_of_lookup_2. eassumption.
Qed.

Lemma cascade_step_Place_deepTick fuel place :
  cascade_step fuel (Place_deepTick fuel place).
Proof.
  revert place. induction fuel as [|fuel IH]; intros place c r c' H.
  - simpl in H. inversion H; subst.
    split; [apply same_frame_refl|]. split; [discriminate|]. lia.
  - simpl in H. unfold bind at 1 in H. unfold get in H. cbv beta iota in H.
    destruct (heap_places (c_heap c) !! place) as [p|] eqn:Hp.
    + destruct (decide (Place_id_ p ∈ c_seen c)) as [Hin|Hout].
      * inversion H; subst.
        split; [apply same_frame_refl|]. split; discriminate.
      * unfold bind at 1 in H. unfold modify at 1 in H. cbv beta iota in H.
        unfold bind at 1 in H.
        set (c1 := mkCascade (c_heap c) ({[Place_id_ p]} ∪ c_seen c) (c_log c)) in H.
        destruct (for_each (Transition_deepTick_with (Place_deepTick fuel))
                           (Place_ingoing_to_ p) c1) as [r2 c2] eqn:E2.
        assert (Hl : cascade_step fuel
                  (for_each (Transition_deepTick_with (Place_deepTick fuel))
                            (Place_ingoing_to_ p))).
        { apply cascade_step_for_each. intros t.
          apply cascade_step_Transition_deepTick. exact IH. }
        destruct (Hl _ _ _ E2) as (Hf2 & Hs2 & Hk2). simpl in Hf2, Hs2.
        assert (Hfuel : (unseen c < S fuel)%nat -> r2 <> OutOfFuel).
        { intros Hlt. apply Hk2.
          pose proof (unseen_insert c (Place_id_ p)
                        (place_id_in_heap _ _ _ Hp) Hout) as Hdec.
          unfold unseen at 1. simpl. lia. }
        destruct r2 as [[]| | | |]; inversion H; subst; simpl.
        -- split; [assumption|]. split; [|discriminate].
           intros _. rewrite Hs2 by reflexivity. apply set_eq. intros x.
           rewrite elem_of_difference, elem_of_union, elem_of_singleton.
           split; [tauto|]. intros Hx. split; [tauto|]. congruence.
        -- split; [assumption|]. split; discriminate.
        -- split; [assumption|]. split; discriminate.
        -- split; [assumption|]. split; discriminate.
        -- split; [assumption|]. split; [discriminate|assumption].
    + inversion H; subst.
      split; [apply same_frame_refl|]. split; discriminate.
Qed.

Lemma size_list_to_set_le (l : list string) :
  (size (list_to_set l : gset string) <= length l)%nat.
Proof.
  induction l as [|x l IH].
  - rewrite list_to_set_nil, size_empty. reflexivity.
  - rewrite list_to_set_cons, size_union_alt, size_singleton.
    pose proof (subseteq_size (list_to_set l ∖ {[x]}) (list_to_set l : gset string)) as H.
    assert (Hsub : (list_to_set l ∖ {[x]} : gset string) ⊆ list_to_set l).
    { intros y. rewrite elem_of_difference. tauto. }
    specialize (H Hsub). cbn [length]. lia.
Qed.

Lemma cascade_fuel_enough h seen log :
  (unseen (mkCascade h seen log) < cascade_fuel h)%nat.
Proof.
  unfold unseen, cascade_fuel, place_ids. simpl.
  pose proof (size_list_to_set_le (Place_id_ <$> heap_places h)) as H.
  rewrite length_fmap in H.
  assert (Hsub : (list_to_set (Place_id_ <$> heap_places h) ∖ seen : gset string)
                 ⊆ list_to_set (Place_id_ <$> heap_places h)).
  { intros y. rewrite elem_of_difference. tauto. }
  apply subseteq_size in Hsub. lia.
Qed.

(** The recursion bound is never reached: a cascade started by
    [Place::deepTick()] returns or throws. *)
Lemma Place_deepTick_fresh_total place w :
  (Place_deepTick_fresh place w).1 <> OutOfFuel.
Proof.
  unfold Place_deepTick_fresh, get_heap, bind, get, ret, run_cascade.
  cbv beta iota.
  destruct (Place_deepTick (cascade_fuel (w_heap w)) place
              (mkCascade (w_heap w) ∅ [])) as [r c] eqn:E.
  simpl. destruct (cascade_step_Place_deepTick _ _ _ _ _ E) as (_ & _ & H).
  apply H. apply cascade_fuel_enough.
Qed.

Lemma get_net_eq n w :
  get_net n w =
  match w_nets w !! n with
  | Some N => (Returned N, w)
  | None => (Undefined, w)
  end.
Proof.
  unfold get_net, bind, get. cbv beta iota. now destruct (w_nets w !! n).
Qed.

Lemma PetriNet_findPlace_eq n id w :
  PetriNet_findPlace n id w =
  match w_nets w !! n with
  | Some N => (Returned (findPlaceAcquired (w_heap w) N id), w)
  | None => (Undefined, w)
  end.
Proof.
  unfold PetriNet_findPlace, bind. rewrite get_net_eq.
  now destruct (w_nets w !! n).
Qed.

Lemma PetriNet_deepTick_eq n start_place_id w :
  PetriNet_deepTick n start_place_id w =
  match w_nets w !! n with
  | Some N =>
      match findPlaceAcquired (w_heap w) N start_place_id with
      | Some place => Place_deepTick_fresh place w
      | None => (Thrown (invalid_argument "Start place ID not found"), w)
      end
  | None => (Undefined, w)
  end.
Proof.
  unfold PetriNet_deepTick, bind. rewrite PetriNet_findPlace_eq.
  destruct (w_nets w !! n) as [N|]; [|reflexivity].
  now destruct (findPlaceAcquired (w_heap w) N start_place_id).
Qed.

Lemma PetriNet_deepTick_total n start_place_id w :
  (PetriNet_deepTick n start_place_id w).1 <> OutOfFuel.
Proof.
  rewrite PetriNet_deepTick_eq.
  destruct (w_nets w !! n) as [N|]; [|discriminate].
  destruct (findPlaceAcquired (w_heap w) N start_place_id) as [place|].
  - apply Place_deepTick_fresh_total.
  - discriminate.
Qed.

(** ** [deepTick] and [deepTickCover] on cycles *)

Lemma for_each_app_returned {S X} (body : X -> M S unit) pre xs s s1 :
  for_each body pre s = (Returned tt, s1) ->
  for_each body (pre ++ xs) s = for_each body xs s1.
Proof.
  revert s. induction pre as [|x pre IH]; intros s H; simpl in *.
  - now inversion H.
  - unfold bind in *. destruct (body x s) as [[[]| | | |] s'];
      try discriminate. now apply IH.
Qed.

Lemma noexcept_not_thrown {S A} (m : M S A) s e :
  (noexcept m s).1 <> Thrown e.
Proof.
  unfold noexcept. destruct (m s) as [[a|e'| | |] s']; discriminate.
Qed.

Lemma PetriNet_deepTickCover_eq n w :
  PetriNet_deepTickCover n w =
  match w_nets w !! n with
  | Some N => noexcept (for_each (deepTickCover_body n) (places_ N)) w
  | None => (Undefined, w)
  end.
Proof.
  unfold PetriNet_deepTickCover, noexcept, bind. rewrite get_net_eq.
  now destruct (w_nets w !! n).
Qed.

Lemma for_each_not_OutOfFuel {S X} (body : X -> M S unit) xs s :
  (forall x s1, (body x s1).1 <> OutOfFuel) ->
  (for_each body xs s).1 <> OutOfFuel.
Proof.
  intros Hbody. revert s. induction xs as [|x xs IH]; intros s; simpl.
  - discriminate.
  - unfold bind. specialize (Hbody x s).
    destruct (body x s) as [[[]| | | |] s1]; simpl in *;
      try discriminate; [apply IH|congruence].
Qed.

Lemma PetriNet_deepTickCover_total n w :
  (PetriNet_deepTickCover n w).1 <> OutOfFuel.
Proof.
  rewrite PetriNet_deepTickCover_eq.
  destruct (w_nets w !! n) as [N|]; [|discriminate].
  unfold noexcept.
  pose proof (for_each_not_OutOfFuel (deepTickCover_body n) (places_ N) w) as H.
  destruct (for_each (deepTickCover_body n) (places_ N) w) as [[[]| | | |] w'];
    simpl in *; try discriminate.
  apply H. intros [p|] s1; simpl; [|discriminate].
  unfold bind, get_heap, get, ret. cbv beta iota.
  apply PetriNet_deepTick_total.
Qed.

(** [deepTickCover()] is [noexcept]: no exception reaches its caller.
    When the roots before some place cascade without error and the
    cascade from that place runs into a cycle, [deepTickCover()] ends in
    [std::terminate], in the state the failed cascade left. *)
Lemma deepTickCover_cycle_terminates (n : net) (w : World) :
  (forall e, (PetriNet_deepTickCover n w).1 <> Thrown e) /\
  (forall N pre p post w1 w2,
     w_nets w !! n = Some N ->
     places_ N = pre ++ Some p :: post ->
     for_each (deepTickCover_body n) pre w = (Returned tt, w1) ->
     PetriNet_deepTick n (Place_getID (w_heap w1) p) w1 =
       (Thrown cycle_detected, w2) ->
     PetriNet_deepTickCover n w = (Terminated, w2)).
Proof.
  split.
  - intros e. rewrite PetriNet_deepTickCover_eq.
    destruct (w_nets w !! n); [apply noexcept_not_thrown|discriminate].
  - intros N pre p post w1 w2 HN Hp Hpre Hcyc.
    rewrite PetriNet_deepTickCover_eq, HN, Hp. unfold noexcept.
    rewrite (for_each_app_returned _ _ _ _ _ Hpre). simpl.
    unfold bind at 1. unfold bind at 1. unfold get_heap, bind at 1, get, ret.
    cbv beta iota. now rewrite Hcyc.
Qed.

(** C5, the failing input: the cycle net of the test.  [deepTick("A")]
    throws the cycle error to its caller; [deepTickCover()], whose first
    root is A, ends in [std::terminate] instead, with the same tokens
    moved. *)
Theorem deepTickCover_cycle_calls_terminate :
  let '(r1, w1) := run (n <- cycle_net 1 0 0 0 0 ;; PetriNet_deepTick n "A") in
  let '(r2, w2) := run (n <- cycle_net 1 0 0 0 0 ;; PetriNet_deepTickCover n) in
  r1 = Thrown cycle_detected /\ r2 = Terminated /\
  marking (w_heap w2) = marking (w_heap w1).
Proof. vm_compute. repeat split. Qed.

(** C6, the failing input: the cycle net of the test, where the only
    token is on A.  The net is cyclic, and [PetriNet::deepTick] is
    documented to throw on a net that is not acyclic; [deepTick("B")]
    returns without error, and without moving a token, because the
    cascade stops at the transition BC, which is not ready. *)
Theorem deepTick_from_empty_cycle_place_returns :
  let '(r0, w0) := run (cycle_net 1 0 0 0 0) in
  let '(r, w) := run (n <- cycle_net 1 0 0 0 0 ;; PetriNet_deepTick n "B") in
  r = Returned tt /\ r <> Thrown cycle_detected /\
  marking (w_heap w) = marking (w_heap w0).
Proof. vm_compute. repeat split. discriminate. Qed.

(** ** The cycle net at any marking *)

Lemma run_cycle_net a b c d e :
  run (cycle_net a b c d e) = (Returned 0%nat, cycle_world a b c d e).
Proof. reflexivity. Qed.

Lemma for_each_cons_thrown {S X} (body : X -> M S unit) x xs s e s' :
  body x s = (Thrown e, s') -> for_each body (x :: xs) s = (Thrown e, s').
Proof. intros H. simpl. unfold bind. now rewrite H. Qed.

Lemma for_each_cons_returned {S X} (body : X -> M S unit) x xs s s1 :
  body x s = (Returned tt, s1) ->
  for_each body (x :: xs) s = for_each body xs s1.
Proof. intros H. simpl. unfold bind. now rewrite H. Qed.

Lemma Place_deepTick_on_path n place c p :
  heap_places (c_heap c) !! place = Some p ->
  Place_id_ p ∈ c_seen c ->
  Place_deepTick (S n) place c = (Thrown cycle_detected, c).
Proof.
  intros Hp Hin. simpl. unfold bind at 1, get. cbv beta iota. rewrite Hp.
  now rewrite decide_True.
Qed.

Lemma Place_deepTick_off_path n place c p :
  heap_places (c_heap c) !! place = Some p ->
  Place_id_ p ∉ c_seen c ->
  Place_deepTick (S n) place c =
  let '(r, c2) :=
    for_each (Transition_deepTick n) (Place_ingoing_to_ p)
      (mkCascade (c_heap c) ({[Place_id_ p]} ∪ c_seen c) (c_log c)) in
  match r with
  | Returned _ =>
      (Returned tt,
       mkCascade (c_heap c2) (c_seen c2 ∖ {[Place_id_ p]}) (c_log c2))
  | _ => (r, c2)
  end.
Proof.
  intros Hp Hout. simpl. unfold bind at 1, get. cbv beta iota. rewrite Hp.
  rewrite decide_False by assumption.
  unfold bind, modify, Transition_deepTick. cbv beta iota.
  destruct (for_each _ _ _) as [[[]| | | |] c2]; reflexivity.
Qed.

Lemma Transition_deepTick_fires n transition t c :
  heap_transitions (c_heap c) !! transition = Some t ->
  condition_holds (c_heap c) t = true ->
  Transition_readyAcquired (c_heap c) t = true ->
  Transition_deepTick n transition c =
  for_each (fun '(place, _) => Place_deepTick n place)
    (Transition_outgoing_ t)
    (mkCascade (apply_steps (steps t) (c_heap c)) (c_seen c)
       (c_log c ++ notifyLoop (apply_steps (steps t) (c_heap c))
                              (prevs (c_heap c) (steps t)))).
Proof.
  intros Ht Hc Hr. unfold Transition_deepTick.
  rewrite (Transition_deepTick_with_eq _ _ _ _ Ht).
  now rewrite Transition_tick_condition, Hc, Transition_fire_ready.
Qed.

Lemma Transition_deepTick_not_ready n transition t c :
  heap_transitions (c_heap c) !! transition = Some t ->
  Transition_readyAcquired (c_heap c) t = false ->
  Transition_deepTick n transition c = (Returned tt, c).
Proof.
  intros Ht Hr. unfold Transition_deepTick.
  rewrite (Transition_deepTick_with_eq _ _ _ _ Ht).
  rewrite Transition_tick_condition.
  destruct (condition_holds (c_heap c) t).
  - rewrite Transition_fire_not_ready by assumption.
    rewrite app_nil_r. now destruct c.
  - rewrite app_nil_r. now destruct c.
Qed.

Lemma unit_ready t : 1 <= t -> (t <? 1) = false.
Proof. intros H. apply Z.ltb_ge. lia. Qed.

Lemma tok_add_1_pos t : 0 <= t < 2 ^ 32 - 1 -> 1 <= tok_add t 1.
Proof. intros H. unfold tok_add, wrap32. rewrite Z.mod_small; lia. Qed.

Lemma throws_cycle_on_path n place h seen p :
  heap_places h !! place = Some p -> Place_id_ p ∈ seen ->
  throws_cycle (S n) place h seen.
Proof.
  intros Hp Hin log. eexists.
  now apply (Place_deepTick_on_path n place (mkCascade h seen log) p).
Qed.

(** From a place off the path whose only transition fires towards
    [next]: the cascade throws if the cascade from [next] does. *)
Lemma throws_cycle_edge n place h seen p transition t next w :
  heap_places h !! place = Some p -> Place_id_ p ∉ seen ->
  Place_ingoing_to_ p = [transition] ->
  heap_transitions h !! transition = Some t ->
  condition_holds h t = true ->
  Transition_readyAcquired h t = true ->
  Transition_outgoing_ t = [(next, w)] ->
  throws_cycle n next (apply_steps (steps t) h) ({[Place_id_ p]} ∪ seen) ->
  throws_cycle (S n) place h seen.
Proof.
  intros Hp Hout Hin Ht Hc Hr Ho Hnext log.
  rewrite (Place_deepTick_off_path n place (mkCascade h seen log) p Hp Hout). cbn [c_heap c_seen c_log].
  rewrite Hin.
  destruct (Hnext (log ++ notifyLoop (apply_steps (steps t) h)
                                     (prevs h (steps t)))) as [c' Hc'].
  exists c'.
  erewrite for_each_cons_thrown; [reflexivity|].
  rewrite (Transition_deepTick_fires n transition t
             (mkCascade h ({[Place_id_ p]} ∪ seen) log)) by assumption.
  cbn [c_heap c_seen c_log]. rewrite Ho.
  now apply for_each_cons_thrown.
Qed.

Lemma Place_deepTick_leaf n place c q :
  heap_places (c_heap c) !! place = Some q ->
  Place_id_ q ∉ c_seen c ->
  Place_ingoing_to_ q = [] ->
  Place_deepTick (S n) place c = (Returned tt, c).
Proof.
  intros Hq Hout Hin. rewrite (Place_deepTick_off_path n place c q Hq Hout).
  rewrite Hin. simpl. destruct c as [h seen log]. simpl in *. do 2 f_equal.
  apply set_eq. intros x.
  rewrite elem_of_difference, elem_of_union, elem_of_singleton.
  split; [tauto|]. intros Hx. split; [tauto|]. congruence.
Qed.

(** The same for a transition with two outputs, the first a place that
    feeds no transition. *)
Lemma throws_cycle_edge_leaf n place h seen p transition t leaf q w1 next w2 :
  heap_places h !! place = Some p -> Place_id_ p ∉ seen ->
  Place_ingoing_to_ p = [transition] ->
  heap_transitions h !! transition = Some t ->
  condition_holds h t = true ->
  Transition_readyAcquired h t = true ->
  Transition_outgoing_ t = [(leaf, w1); (next, w2)] ->
  heap_places (apply_steps (steps t) h) !! leaf = Some q ->
  Place_id_ q ∉ {[Place_id_ p]} ∪ seen ->
  Place_ingoing_to_ q = [] ->
  throws_cycle (S n) next (apply_steps (steps t) h) ({[Place_id_ p]} ∪ seen) ->
  throws_cycle (S (S n)) place h seen.
Proof.
  intros Hp Hout Hin Ht Hc Hr Ho Hq Hqout Hqin Hnext log.
  rewrite (Place_deepTick_off_path (S n) place (mkCascade h seen log) p Hp Hout).
  cbn [c_heap c_seen c_log]. rewrite Hin.
  destruct (Hnext (log ++ notifyLoop (apply_steps (steps t) h)
                                     (prevs h (steps t)))) as [c' Hc'].
  exists c'.
  erewrite for_each_cons_thrown; [reflexivity|].
  rewrite (Transition_deepTick_fires (S n) transition t
             (mkCascade h ({[Place_id_ p]} ∪ seen) log)) by assumption.
  cbn [c_heap c_seen c_log]. rewrite Ho.
  erewrite for_each_cons_returned;
    [|apply (Place_deepTick_leaf n leaf _ q); assumption].
  now apply for_each_cons_thrown.
Qed.

Section CycleNet.
Variables a b c d e : TokenCounterT.
Variable seen : gset string.
Variable n : nat.

Lemma cycle_edge_AB :
  1 <= a -> "A" ∉ seen ->
  throws_cycle n 1 (cycle_heap (tok_sub a 1) (tok_add b 1) c d e)
               ({["A"]} ∪ seen) ->
  throws_cycle (S n) 0 (cycle_heap a b c d e) seen.
Proof.
  intros Ha Hs H.
  eapply throws_cycle_edge with (transition := 0%nat); try reflexivity;
    [exact Hs| |exact H].
  unfold Transition_readyAcquired. cbn -[Z.ltb]. now rewrite (unit_ready a).
Qed.

Lemma cycle_edge_BC :
  1 <= b -> "B" ∉ seen ->
  throws_cycle n 2 (cycle_heap a (tok_sub b 1) (tok_add c 1) d e)
               ({["B"]} ∪ seen) ->
  throws_cycle (S n) 1 (cycle_heap a b c d e) seen.
Proof.
  intros Hb Hs H.
  eapply throws_cycle_edge with (transition := 1%nat); try reflexivity;
    [exact Hs| |exact H].
  unfold Transition_readyAcquired. cbn -[Z.ltb]. now rewrite (unit_ready b).
Qed.

Lemma cycle_edge_CD :
  1 <= c -> "C" ∉ seen ->
  throws_cycle n 3 (cycle_heap a b (tok_sub c 1) (tok_add d 1) e)
               ({["C"]} ∪ seen) ->
  throws_cycle (S n) 2 (cycle_heap a b c d e) seen.
Proof.
  intros Hc Hs H.
  eapply throws_cycle_edge with (transition := 2%nat); try reflexivity;
    [exact Hs| |exact H].
  unfold Transition_readyAcquired. cbn -[Z.ltb]. now rewrite (unit_ready c).
Qed.

Lemma cycle_edge_DEA :
  1 <= d -> "D" ∉ seen -> "E" ∉ seen ->
  throws_cycle (S n) 0 (cycle_heap (tok_add a 1) b c (tok_sub d 1) (tok_add e 1))
               ({["D"]} ∪ seen) ->
  throws_cycle (S (S n)) 3 (cycle_heap a b c d e) seen.
Proof.
  intros Hd Hs He H.
  eapply throws_cycle_edge_leaf with (transition := 3%nat); try reflexivity;
    [exact Hs| | |exact H].
  - unfold Transition_readyAcquired. cbn -[Z.ltb]. now rewrite (unit_ready d).
  - simpl. rewrite elem_of_union, elem_of_singleton.
    intros [?|?]; [discriminate|contradiction].
Qed.

End CycleNet.

Ltac decide_seen := apply (bool_decide_unpack _); vm_compute; exact I.

Lemma Place_deepTick_idle n place c p transition t :
  heap_places (c_heap c) !! place = Some p ->
  Place_id_ p ∉ c_seen c ->
  Place_ingoing_to_ p = [transition] ->
  heap_transitions (c_heap c) !! transition = Some t ->
  Transition_readyAcquired (c_heap c) t = false ->
  Place_deepTick (S n) place c = (Returned tt, c).
Proof.
  intros Hp Hout Hin Ht Hr.
  rewrite (Place_deepTick_off_path n place c p Hp Hout). rewrite Hin.
  erewrite for_each_cons_returned;
    [|apply (Transition_deepTick_not_ready n transition t); assumption].
  simpl. destruct c as [h seen log]. simpl in *. do 2 f_equal.
  apply set_eq. intros x.
  rewrite elem_of_difference, elem_of_union, elem_of_singleton.
  split; [tauto|]. intros Hx. split; [tauto|]. congruence.
Qed.

Section CycleMarking.
Variables a b c d e : TokenCounterT.
Hypothesis Ha : 0 <= a < 2 ^ 32 - 1.
Hypothesis Hb : 0 <= b < 2 ^ 32 - 1.
Hypothesis Hc : 0 <= c < 2 ^ 32 - 1.
Hypothesis Hd : 0 <= d < 2 ^ 32 - 1.

Lemma cycle_from_A : 1 <= a -> throws_cycle 6 0 (cycle_heap a b c d e) ∅.
Proof.
  intros H.
  apply cycle_edge_AB; [exact H|decide_seen|].
  apply cycle_edge_BC; [now apply tok_add_1_pos|decide_seen|].
  apply cycle_edge_CD; [now apply tok_add_1_pos|decide_seen|].
  apply cycle_edge_DEA; [now apply tok_add_1_pos|decide_seen|decide_seen|].
  eapply throws_cycle_on_path; [reflexivity|decide_seen].
Qed.

Lemma cycle_from_B : 1 <= b -> throws_cycle 6 1 (cycle_heap a b c d e) ∅.
Proof.
  intros H.
  apply cycle_edge_BC; [exact H|decide_seen|].
  apply cycle_edge_CD; [now apply tok_add_1_pos|decide_seen|].
  apply cycle_edge_DEA; [now apply tok_add_1_pos|decide_seen|decide_seen|].
  apply cycle_edge_AB; [now apply tok_add_1_pos|decide_seen|].
  eapply throws_cycle_on_path; [reflexivity|decide_seen].
Qed.

Lemma cycle_from_C : 1 <= c -> throws_cycle 6 2 (cycle_heap a b c d e) ∅.
Proof.
  intros H.
  apply cycle_edge_CD; [exact H|decide_seen|].
  apply cycle_edge_DEA; [now apply tok_add_1_pos|decide_seen|decide_seen|].
  apply cycle_edge_AB; [now apply tok_add_1_pos|decide_seen|].
  apply cycle_edge_BC; [now apply tok_add_1_pos|decide_seen|].
  eapply throws_cycle_on_path; [reflexivity|decide_seen].
Qed.

Lemma cycle_from_D : 1 <= d -> throws_cycle 6 3 (cycle_heap a b c d e) ∅.
Proof.
  intros H.
  apply cycle_edge_DEA; [exact H|decide_seen|decide_seen|].
  apply cycle_edge_AB; [now apply tok_add_1_pos|decide_seen|].
  apply cycle_edge_BC; [now apply tok_add_1_pos|decide_seen|].
  apply cycle_edge_CD; [now apply tok_add_1_pos|decide_seen|].
  eapply throws_cycle_on_path; [reflexivity|decide_seen].
Qed.

End CycleMarking.

Lemma deepTick_cycle_world a b c d e start :
  run (n <- cycle_net a b c d e ;; PetriNet_deepTick n start) =
  PetriNet_deepTick 0 start (cycle_world a b c d e).
Proof. reflexivity. Qed.

Lemma Place_deepTick_fresh_eq place w :
  Place_deepTick_fresh place w =
  let '(r, c) := Place_deepTick (cascade_fuel (w_heap w)) place
                   (mkCascade (w_heap w) ∅ []) in
  (r, mkWorld (c_heap c) (w_nets w) (w_log w ++ c_log c)).
Proof. reflexivity. Qed.

Lemma deepTick_cycle_world_throws a b c d e start place :
  find_place (cycle_heap a b c d e)
             [Some 0; Some 1; Some 2; Some 3; Some 4]%nat start = Some place ->
  throws_cycle 6 place (cycle_heap a b c d e) ∅ ->
  (run (n <- cycle_net a b c d e ;; PetriNet_deepTick n start)).1 =
  Thrown cycle_detected.
Proof.
  intros Hf Ht. rewrite deepTick_cycle_world, PetriNet_deepTick_eq.
  cbn [cycle_world w_nets w_heap lookup list_lookup].
  unfold findPlaceAcquired. cbn [places_]. rewrite Hf.
  rewrite Place_deepTick_fresh_eq.
  change (w_heap (cycle_world a b c d e)) with (cycle_heap a b c d e).
  change (cascade_fuel (cycle_heap a b c d e)) with 6%nat.
  destruct (Ht []) as [c' Hc']. now rewrite Hc'.
Qed.

Lemma deepTick_cycle_world_idle a b c d e start place p transition t :
  find_place (cycle_heap a b c d e)
             [Some 0; Some 1; Some 2; Some 3; Some 4]%nat start = Some place ->
  heap_places (cycle_heap a b c d e) !! place = Some p ->
  Place_ingoing_to_ p = [transition] ->
  heap_transitions (cycle_heap a b c d e) !! transition = Some t ->
  Transition_readyAcquired (cycle_heap a b c d e) t = false ->
  run (n <- cycle_net a b c d e ;; PetriNet_deepTick n start) =
  (Returned tt, cycle_world a b c d e).
Proof.
  intros Hf Hp Hin Ht Hr. rewrite deepTick_cycle_world, PetriNet_deepTick_eq.
  cbn [cycle_world w_nets w_heap lookup list_lookup].
  unfold findPlaceAcquired. cbn [places_]. rewrite Hf.
  rewrite Place_deepTick_fresh_eq.
  change (w_heap (cycle_world a b c d e)) with (cycle_heap a b c d e).
  change (cascade_fuel (cycle_heap a b c d e)) with 6%nat.
  rewrite (Place_deepTick_idle 5 place (mkCascade (cycle_heap a b c d e) ∅ [])
             p transition t Hp (not_elem_of_empty _) Hin Ht Hr).
  reflexivity.
Qed.

Lemma unit_not_ready t : t < 1 -> (t <? 1) = true.
Proof. intros H. apply Z.ltb_lt. lia. Qed.

(** When the cycle is detected.  In the cycle net at any marking that
    leaves room for one more token on A, B, C and D, [deepTick] started
    from a place of the cycle that holds at least one token fails with
    the cycle error; started from a place of the cycle that holds none it
    returns without error and changes nothing, although the net is as
    cyclic as before.  In the diamond net, [deepTick] from A returns
    without error, D having been reached twice. *)
Theorem deepTick_cycle_and_diamond (a b c d e : TokenCounterT) :
  0 <= a < 2 ^ 32 - 1 -> 0 <= b < 2 ^ 32 - 1 ->
  0 <= c < 2 ^ 32 - 1 -> 0 <= d < 2 ^ 32 - 1 ->
  (forall start tokens,
     (start, tokens) ∈ [("A", a); ("B", b); ("C", c); ("D", d)] ->
     let r := run (n <- cycle_net a b c d e ;; PetriNet_deepTick n start) in
     (1 <= tokens -> r.1 = Thrown cycle_detected) /\
     (tokens < 1 -> r = (Returned tt, cycle_world a b c d e))) /\
  (let '(r, w) := run (n <- diamond_net ;; PetriNet_deepTick n "A") in
   r = Returned tt /\
   marking (w_heap w) = [("A", 0); ("B", 0); ("C", 0); ("D", 2); ("E", 0)]).
Proof.
  intros Ha Hb Hc Hd. split; [|vm_compute; split; reflexivity].
  intros start tokens Hin.
  repeat (apply elem_of_cons in Hin as [Hin|Hin]);
    [| | | |now apply elem_of_nil in Hin];
    injection Hin as -> ->; cbv zeta; split; intros H.
  - apply (deepTick_cycle_world_throws a b c d e "A" 0%nat eq_refl).
    now apply cycle_from_A.
  - eapply (deepTick_cycle_world_idle a b c d e "A" 0%nat); try reflexivity.
    unfold Transition_readyAcquired. cbn -[Z.ltb]. now rewrite unit_not_ready.
  - apply (deepTick_cycle_world_throws a b c d e "B" 1%nat eq_refl).
    now apply cycle_from_B.
  - eapply (deepTick_cycle_world_idle a b c d e "B" 1%nat); try reflexivity.
    unfold Transition_readyAcquired. cbn -[Z.ltb]. now rewrite unit_not_ready.
  - apply (deepTick_cycle_world_throws a b c d e "C" 2%nat eq_refl).
    now apply cycle_from_C.
  - eapply (deepTick_cycle_world_idle a b c d e "C" 2%nat); try reflexivity.
    unfold Transition_readyAcquired. cbn -[Z.ltb]. now rewrite unit_not_ready.
  - apply (deepTick_cycle_world_throws a b c d e "D" 3%nat eq_refl).
    now apply cycle_from_D.
  - eapply (deepTick_cycle_world_idle a b c d e "D" 3%nat); try reflexivity.
    unfold Transition_readyAcquired. cbn -[Z.ltb]. now rewrite unit_not_ready.
Qed.

Lemma deepTick_cycle_and_diamond_witness :
  (run (n <- cycle_net 1 0 0 0 0 ;; PetriNet_deepTick n "A")).1 =
    Thrown cycle_detected /\
  run (n <- cycle_net 1 0 0 0 0 ;; PetriNet_deepTick n "B") =
    (Returned tt, cycle_world 1 0 0 0 0).
Proof.
  assert (R1 : 0 <= 1 < 2 ^ 32 - 1) by (split; [discriminate|reflexivity]).
  assert (R0 : 0 <= 0 < 2 ^ 32 - 1) by (split; [discriminate|reflexivity]).
  destruct (deepTick_cycle_and_diamond 1 0 0 0 0 R1 R0 R0 R0) as [H _].
  split.
  - apply (H "A" 1); [apply elem_of_cons; now left|discriminate].
  - apply (H "B" 0); [|reflexivity].
    apply elem_of_cons; right; apply elem_of_cons; now left.
Defined.

(** ** [merge] *)

(** C4, the failing input: the test's merge with an interconnection that
    names places of neither net.  [merge] throws from
    [addTransitionAcquired], after it has emptied the other net and moved
    its place and its transition into this one. *)
Theorem merge_unknown_id_mutates :
  let '(_, w0) := run two_nets in
  let '(r, w) := run merge_invalid_interconnection in
  r = Thrown (invalid_argument "Sketch contains invalid IDs") /\
  w_nets w0 = [mkNet [Some 0%nat] [0%nat]; mkNet [Some 1%nat] [1%nat]] /\
  w_nets w = [mkNet [Some 0%nat; Some 1%nat] [0%nat; 2%nat]; mkNet [None] []].
Proof. vm_compute. repeat split. Qed.

(** The duplicate-id failure of [merge], by contrast, is found before
    anything is changed. *)
Lemma merge_duplicate_place_keeps_world :
  let '(_, w0) := run two_nets_same_place in
  let '(r, w) := run merge_duplicate_place in
  r = Thrown (invalid_argument "Duplicate PlaceIDs") /\ w = w0.
Proof. vm_compute. split; reflexivity. Qed.

Section Returns.
Context {S : Type}.

Lemma returns_ret {A} (a : A) (s : S) Q : Q a s -> returns (ret a) s Q.
Proof. intros H a' s' [= <- <-]. exact H. Qed.

Lemma returns_throw {A} e (s : S) (Q : A -> S -> Prop) :
  returns (throw e) s Q.
Proof. intros a s' [=]. Qed.

Lemma returns_undefined {A} (s : S) (Q : A -> S -> Prop) :
  returns undefined s Q.
Proof. intros a s' [=]. Qed.

Lemma returns_get (s : S) Q : Q s s -> returns get s Q.
Proof. intros H a' s' [= <- <-]. exact H. Qed.

Lemma returns_modify (f : S -> S) (s : S) Q :
  Q tt (f s) -> returns (modify f) s Q.
Proof. intros H a' s' [= <- <-]. exact H. Qed.

Lemma returns_bind {A B} (m : M S A) (k : A -> M S B) s Q :
  returns m s (fun a s1 => returns (k a) s1 Q) -> returns (bind m k) s Q.
Proof.
  intros H b s'. unfold bind. destruct (m s) as [[a|e| | |] s1] eqn:E;
    try discriminate.
  intros Hk. exact (H a s1 E b s' Hk).
Qed.

Lemma returns_weaken {A} (m : M S A) s (Q Q' : A -> S -> Prop) :
  returns m s Q -> (forall a s', Q a s' -> Q' a s') -> returns m s Q'.
Proof. intros H HQ a s' E. apply HQ, (H _ _ E). Qed.

Lemma returns_for_each {X} (body : X -> M S unit) xs (I : S -> Prop) s :
  I s ->
  (forall x s1, I s1 -> returns (body x) s1 (fun _ s2 => I s2)) ->
  returns (for_each body xs) s (fun _ s' => I s').
Proof.
  intros Hs Hbody. revert s Hs.
  induction xs as [|x xs IH]; intros s Hs; simpl.
  - now apply returns_ret.
  - apply returns_bind. eapply returns_weaken; [apply Hbody, Hs|].
    intros u s1 H1. now apply IH.
Qed.
End Returns.

Lemma keeps_places_refl w : keeps_places w w.
Proof. now split. Qed.

Lemma keeps_places_trans w1 w2 w3 :
  keeps_places w1 w2 -> keeps_places w2 w3 -> keeps_places w1 w3.
Proof.
  unfold keeps_places, same_cores. intros [A B] [C D].
  split; [congruence|]. intros n. now rewrite D, B.
Qed.

Lemma cores_alter (f : Place -> Place) a (l : list Place) :
  (forall p, place_core (f p) = place_core p) ->
  place_core <$> alter f a l = place_core <$> l.
Proof.
  intros Hf. apply list_eq. intros i. rewrite !list_lookup_fmap.
  destruct (decide (i = a)) as [->|Hne].
  - rewrite list_lookup_alter_eq, <- option_fmap_compose.
    apply option_fmap_ext. exact Hf.
  - now rewrite list_lookup_alter_ne.
Qed.

Ltac run_step E :=
  cbv [get_heap put_heap put_net log_events alter_place new_Transition
       new_Place store_evaluate_condition modify bind get ret throw
       undefined] in E;
  inversion E; subst; clear E.

Lemma returns_get_net n w (Q : PetriNet -> World -> Prop) :
  (forall N, w_nets w !! n = Some N -> Q N w) -> returns (get_net n) w Q.
Proof.
  intros H N w' E. rewrite get_net_eq in E.
  destruct (w_nets w !! n) as [N'|] eqn:En; inversion E; subst. now apply H.
Qed.

Lemma returns_alter_place f place w :
  (forall p, place_core (f p) = place_core p) ->
  returns (alter_place f place) w (fun _ w' => keeps_places w w').
Proof.
  intros Hf u w' E. run_step E. split; [|reflexivity].
  unfold same_cores. simpl. now apply cores_alter.
Qed.

Lemma returns_resolve_pairs h N pairs acc w :
  returns (resolve_pairs h N pairs acc) w (fun _ w' => w' = w).
Proof.
  revert acc. induction pairs as [|[pid weight] rest IH]; intros acc; simpl.
  - now apply returns_ret.
  - destruct (findPlaceAcquired h N pid); [apply IH|apply returns_throw].
Qed.

Lemma net_places_insert w n N N' h log :
  w_nets w !! n = Some N -> places_ N' = places_ N ->
  forall n', net_places (mkWorld h (<[n := N']> (w_nets w)) log) n' =
             net_places w n'.
Proof.
  intros HN Hp n'. unfold net_places. cbn [w_nets].
  destruct (decide (n' = n)) as [->|Hne].
  - rewrite list_lookup_insert_eq by (eapply lookup_lt_Some; eassumption).
    rewrite HN. simpl. now rewrite Hp.
  - now rewrite list_lookup_insert_ne by congruence.
Qed.

Lemma returns_addTransitionAcquired n sketch w :
  returns (addTransitionAcquired n sketch) w (fun _ w' => keeps_places w w').
Proof.
  unfold addTransitionAcquired.
  apply returns_bind, returns_get_net. intros N HN.
  apply returns_bind. intros h w1 E. run_step E.
  destruct (findTransitionAcquired (w_heap w1) N (sketch_id sketch));
    [apply returns_throw|].
  apply returns_bind. eapply returns_weaken; [apply returns_resolve_pairs|].
  intros ingoing w2 ->.
  apply returns_bind. eapply returns_weaken; [apply returns_resolve_pairs|].
  intros outgoing w2 ->.
  apply returns_bind. intros ptr w2 E. run_step E.
  apply returns_bind. intros u w3 E. run_step E. simpl.
  set (w3 := mkWorld _ _ _).
  assert (H3 : keeps_places w1 w3).
  { split; [reflexivity|]. now apply (net_places_insert w1 n N). }
  apply returns_bind.
  eapply returns_weaken;
    [apply (returns_for_each _ _ (keeps_places w1)); [exact H3|]|].
  { intros [place weight] s1 Hs1.
    eapply returns_weaken; [apply returns_alter_place; reflexivity|].
    intros u0 s2 H2. cbv beta in *. eapply keeps_places_trans; eassumption. }
  intros u w4 H4. cbv beta in H4.
  apply returns_bind.
  eapply returns_weaken;
    [apply (returns_for_each _ _ (keeps_places w1)); [exact H4|]|].
  { intros [place weight] s1 Hs1.
    eapply returns_weaken; [apply returns_alter_place; reflexivity|].
    intros u0 s2 H2. cbv beta in *. eapply keeps_places_trans; eassumption. }
  intros u' w5 H5. now apply returns_ret.
Qed.

Lemma moved_step w this ps w1 w2 :
  moved w this ps w1 -> keeps_places w1 w2 -> moved w this ps w2.
Proof.
  unfold moved, keeps_places, same_cores. intros [A B] [C D].
  split; [congruence|]. now rewrite D.
Qed.

Lemma returns_exists_place_id h places place w :
  returns (exists_place_id h places place) w (fun _ w' => w' = w).
Proof.
  induction places as [|p rest IH]; simpl.
  - now apply returns_ret.
  - destruct p as [p|], place as [place|]; try apply returns_undefined.
    destruct (decide (Place_getID h p = Place_getID h place));
      [now apply returns_ret|apply IH].
Qed.

Lemma returns_sketches_of h transitions acc w :
  returns (sketches_of h transitions acc) w (fun _ w' => w' = w).
Proof.
  revert acc. induction transitions as [|t rest IH]; intros acc; simpl.
  - now apply returns_ret.
  - apply returns_bind. unfold sketch_of.
    destruct (heap_transitions h !! t); [|apply returns_undefined].
    apply returns_ret. apply IH.
Qed.

Lemma returns_PetriNet_findTransition n id w :
  returns (PetriNet_findTransition n id) w (fun _ w' => w' = w).
Proof.
  unfold PetriNet_findTransition.
  apply returns_bind, returns_get_net. intros N HN.
  apply returns_bind. intros h w1 E. run_step E. now apply returns_ret.
Qed.

Lemma returns_store_evaluate_condition t c w :
  returns (store_evaluate_condition t c) w (fun _ w' => keeps_places w w').
Proof. intros u w' E. run_step E. now split. Qed.

Lemma returns_merge this other interconnections w :
  returns (PetriNet_merge this other interconnections) w
    (fun _ w' =>
       same_cores w w' /\
       exists This Other,
         w_nets w !! this = Some This /\ w_nets w !! other = Some Other /\
         net_places w' this = Some (places_ This ++ places_ Other)).
Proof.
  unfold PetriNet_merge. apply returns_bind.
  destruct (decide (this = other)) as [|Hne]; [apply returns_undefined|].
  apply returns_ret.
  apply returns_bind, returns_get_net. intros Other HO.
  apply returns_bind, returns_get_net. intros This HT.
  apply returns_bind. intros h w0 E. run_step E.
  (* the three checks leave the world as it is *)
  apply returns_bind.
  eapply returns_weaken;
    [apply (returns_for_each _ _ (eq w0)); [reflexivity|]|].
  { intros place s1 <-.
    apply returns_bind.
    eapply returns_weaken; [apply returns_exists_place_id|].
    intros [] s2 ->; [apply returns_throw|now apply returns_ret]. }
  intros u1 s1 <-. apply returns_bind.
  eapply returns_weaken;
    [apply (returns_for_each _ _ (eq w0)); [reflexivity|]|].
  { intros t s1 <-.
    destruct (exists_transition_id _ _ _);
      [apply returns_throw|now apply returns_ret]. }
  intros u2 s2 <-. apply returns_bind.
  eapply returns_weaken;
    [apply (returns_for_each _ _ (eq w0)); [reflexivity|]|].
  { intros sk s1 <-.
    destruct (exists_transition_id _ _ _);
      [apply returns_throw|now apply returns_ret]. }
  intros u3 s3 <-. apply returns_bind.
  eapply returns_weaken; [apply returns_sketches_of|].
  intros new_transitions s4 ->.
  (* other.transitions_.clear() and the adjacency lists *)
  apply returns_bind. intros u4 w1 E. run_step E.
  set (w1 := mkWorld _ _ _).
  assert (H1 : keeps_places w0 w1).
  { split; [reflexivity|]. now apply (net_places_insert w0 other Other). }
  apply returns_bind.
  eapply returns_weaken;
    [apply (returns_for_each _ _ (keeps_places w0)); [exact H1|]|].
  { intros [p|] s1 Hs1; [|apply returns_undefined].
    eapply returns_weaken; [apply returns_alter_place; reflexivity|].
    intros u0 s2 Hs2. cbv beta in *. eapply keeps_places_trans; eassumption. }
  intros u5 w2 H2. cbv beta in H2.
  (* the places move *)
  apply returns_bind. intros u6 w3 E. run_step E.
  apply returns_bind. intros u7 w4 E. run_step E. cbn [w_heap w_nets w_log].
  set (ps := places_ This ++ places_ Other).
  set (w4 := mkWorld _ _ _).
  assert (H4 : moved w0 this ps w4).
  { destruct H2 as [Hc Hn]. split; [exact Hc|].
    unfold net_places, w4. cbn [w_nets].
    rewrite list_lookup_insert_ne by congruence.
    rewrite list_lookup_insert_eq; [reflexivity|].
    specialize (Hn this). unfold net_places in Hn. rewrite HT in Hn.
    destruct (w_nets w2 !! this) eqn:E; [|discriminate].
    eapply lookup_lt_Some; eassumption. }
  (* the transitions are rebuilt *)
  apply returns_bind.
  eapply returns_weaken;
    [apply (returns_for_each _ _ (moved w0 this ps)); [exact H4|]|].
  { intros [sketch eval_cond] s1 Hs1.
    apply returns_bind.
    eapply returns_weaken; [apply returns_addTransitionAcquired|].
    intros ptr s2 Hs2. cbv beta in Hs2.
    apply returns_bind.
    eapply returns_weaken; [apply returns_PetriNet_findTransition|].
    intros [t|] s3 ->; [|apply returns_undefined].
    eapply returns_weaken; [apply returns_store_evaluate_condition|].
    intros u0 s4 Hs4. cbv beta in *.
    eapply moved_step; [|eassumption]. eapply moved_step; eassumption. }
  intros u8 w5 H5. cbv beta in H5.
  eapply returns_weaken;
    [apply (returns_for_each _ _ (moved w0 this ps)); [exact H5|]|].
  { intros sketch s1 Hs1.
    apply returns_bind.
    eapply returns_weaken; [apply returns_addTransitionAcquired|].
    intros ptr s2 Hs2. cbv beta in Hs2. apply returns_ret.
    eapply moved_step; eassumption. }
  intros u9 w6 [Hc Hn]. split; [exact Hc|].
  exists This, Other. auto.
Qed.

Lemma same_cores_lookup w w' p :
  same_cores w w' ->
  place_core <$> heap_places (w_heap w') !! p =
  place_core <$> heap_places (w_heap w) !! p.
Proof.
  intros H. unfold same_cores in H.
  now rewrite <- !list_lookup_fmap, H.
Qed.

(** C8: after a successful [merge], a place that was in the other net is
    in this net's collection, with the token count, the listener and the
    id it had before. *)
Theorem merge_keeps_moved_places (this other : net)
    (interconnections : list TransitionSketch) (w w' : World)
    (Other : PetriNet) (p : addr) :
  PetriNet_merge this other interconnections w = (Returned tt, w') ->
  w_nets w !! other = Some Other ->
  Some p ∈ places_ Other ->
  (exists ps, net_places w' this = Some ps /\ Some p ∈ ps) /\
  tokens_at (w_heap w') p = tokens_at (w_heap w) p /\
  listener_at (w_heap w') p = listener_at (w_heap w) p /\
  Place_getID (w_heap w') p = Place_getID (w_heap w) p.
Proof.
  intros Hm HO Hp.
  destruct (returns_merge _ _ _ _ _ _ Hm)
    as (Hc & This & Other' & HT & HO' & Hn).
  assert (Other' = Other) as -> by congruence.
  split.
  - exists (places_ This ++ places_ Other). split; [exact Hn|].
    apply elem_of_app. now right.
  - pose proof (same_cores_lookup _ _ p Hc) as Hl.
    unfold tokens_at, listener_at, Place_getID.
    destruct (heap_places (w_heap w') !! p) as [q'|],
             (heap_places (w_heap w) !! p) as [q|];
      simpl in Hl; try discriminate; [|auto].
    unfold place_core in Hl. simpl. inversion Hl. auto.
Qed.

Lemma merge_keeps_moved_places_witness :
  let w := (run two_nets).2 in
  let w' := (run merge_valid_interconnection).2 in
  tokens_at (w_heap w') 1%nat = tokens_at (w_heap w) 1%nat /\
  listener_at (w_heap w') 1%nat = Some 3%nat.
Proof.
  destruct (merge_keeps_moved_places 0%nat 1%nat
              [mkSketch "T3" [("A", 1)] [("B", 2)]]
              (run two_nets).2 (run merge_valid_interconnection).2
              (mkNet [Some 1%nat] [1%nat]) 1%nat eq_refl eq_refl
              (proj2 (list_elem_of_singleton _ _) eq_refl))
    as (_ & Ht & Hl & _).
  split; [exact Ht|exact Hl].
Defined.

(** * Further properties *)

(** ** [Transition::ready] and [Transition::fire] *)

Lemma readyLoop_sufficient (h : Heap) (pairs : list WeightPairT) :
  readyLoop h pairs = true <-> sufficient h pairs.
Proof.
  unfold sufficient.
  induction pairs as [|[place weight] rest IH]; simpl.
  - split; [constructor|reflexivity].
  - destruct (tokens_at h place <? weight) eqn:E.
    + split; [discriminate|]. intros H. apply Forall_cons in H as [H _].
      simpl in H. apply Z.ltb_lt in E. lia.
    + apply Z.ltb_ge in E. rewrite IH. split.
      * intros H. now apply Forall_cons.
      * intros H. now apply Forall_cons in H as [_ H].
Qed.

(** X1: [ready()] holds exactly when every input pair finds at least its
    weight on its place. *)
Theorem ready_iff_sufficient (h : Heap) (t : Transition) :
  Transition_ready h t = true <-> sufficient h (Transition_ingoing_ t).
Proof. apply readyLoop_sufficient. Qed.

Lemma net_delta_not_named a ss :
  a ∉ step_place <$> ss -> net_delta a ss = 0.
Proof.
  induction ss as [|[d [p w]] rest IH]; csimpl; [reflexivity|].
  intros H. apply not_elem_of_cons in H as [Hne Hrest].
  unfold step_place in Hne. simpl in Hne.
  rewrite decide_False by congruence. now rewrite IH.
Qed.

Lemma net_delta_app a ss1 ss2 :
  net_delta a (ss1 ++ ss2) = net_delta a ss1 + net_delta a ss2.
Proof.
  induction ss1 as [|[d [p w]] rest IH]; simpl; [reflexivity|].
  rewrite IH. lia.
Qed.

Lemma net_delta_consume a pairs :
  net_delta a (pair Consume <$> pairs) = - demand a pairs.
Proof.
  induction pairs as [|[p w] rest IH]; csimpl; [reflexivity|].
  rewrite IH. destruct (decide (p = a)); lia.
Qed.

Lemma net_delta_produce a pairs :
  net_delta a (pair Produce <$> pairs) = demand a pairs.
Proof.
  induction pairs as [|[p w] rest IH]; csimpl; [reflexivity|].
  rewrite IH. destruct (decide (p = a)); lia.
Qed.

Lemma net_delta_steps a t :
  net_delta a (steps t) =
  demand a (Transition_outgoing_ t) - demand a (Transition_ingoing_ t).
Proof.
  unfold steps. rewrite net_delta_app, net_delta_consume, net_delta_produce.
  lia.
Qed.

Lemma step_op_wrap d x w y :
  wrap32 (step_op d x w + y) =
  wrap32 (x + (match d with Consume => - w | Produce => w end + y)).
Proof.
  destruct d; unfold step_op, tok_sub, tok_add; rewrite wrap32_add_l;
    f_equal; lia.
Qed.

Lemma apply_steps_tokens ss h a :
  allocated h a ->
  tokens_at (apply_steps ss h) a =
  if decide (a ∈ step_place <$> ss)
  then wrap32 (tokens_at h a + net_delta a ss)
  else tokens_at h a.
Proof.
  revert h. induction ss as [|[d [p w]] rest IH]; intros h Ha; csimpl.
  - reflexivity.
  - unfold apply_steps in *. csimpl.
    rewrite IH by now apply allocated_store.
    unfold apply_step. change (step_place (d, (p, w))) with p.
    cbn [fst snd].
    destruct (decide (p = a)) as [->|Hne].
    + rewrite tokens_at_store_eq by assumption.
      rewrite (decide_True (P := a ∈ a :: (step_place <$> rest)))
        by (apply elem_of_cons; now left).
      destruct (decide (a ∈ step_place <$> rest)) as [Hin|Hout].
      * apply step_op_wrap.
      * rewrite net_delta_not_named by assumption.
        destruct d; unfold step_op, tok_sub, tok_add; f_equal; lia.
    + rewrite tokens_at_store_ne by assumption.
      destruct (decide (a ∈ step_place <$> rest)) as [Hin|Hout].
      * rewrite decide_True by (apply elem_of_cons; now right).
        f_equal.
      * rewrite decide_False; [reflexivity|].
        intros H. apply elem_of_cons in H as [H|H]; congruence.
Qed.

Lemma step_place_steps t :
  step_place <$> steps t =
  (Transition_ingoing_ t).*1 ++ (Transition_outgoing_ t).*1.
Proof.
  unfold steps. rewrite fmap_app, <- !list_fmap_compose. reflexivity.
Qed.

Lemma fire_token_deltas_eq (h : Heap) (t : Transition) (a : addr) (p : Place) :
  (Transition_fire h t).1.1 = true ->
  heap_places h !! a = Some p ->
  tokens_at (Transition_fire h t).1.2 a =
  if decide (a ∈ (Transition_ingoing_ t).*1 ++ (Transition_outgoing_ t).*1)
  then wrap32 (Place_tokens_ p - demand a (Transition_ingoing_ t)
               + demand a (Transition_outgoing_ t))
  else Place_tokens_ p.
Proof.
  rewrite fire_returns_ready. intros Hr Hp.
  rewrite Transition_fire_ready by assumption. simpl.
  rewrite apply_steps_tokens by (eapply lookup_lt_Some; eassumption).
  rewrite step_place_steps, net_delta_steps, (tokens_at_lookup _ _ _ Hp).
  destruct (decide _); [f_equal; lia|reflexivity].
Qed.

(** X2: a successful [fire()] leaves on every place named by a pair its
    old count minus the weights of the input pairs naming it plus the
    weights of the output pairs naming it, in [uint32_t] arithmetic, and
    leaves every other place's count as it was. *)
Theorem fire_token_deltas (h : Heap) (t : Transition) (a : addr) (p : Place) :
  (Transition_fire h t).1.1 = true ->
  heap_places h !! a = Some p ->
  tokens_at (Transition_fire h t).1.2 a =
  if decide (a ∈ (Transition_ingoing_ t).*1 ++ (Transition_outgoing_ t).*1)
  then wrap32 (Place_tokens_ p - demand a (Transition_ingoing_ t)
               + demand a (Transition_outgoing_ t))
  else Place_tokens_ p.
Proof. apply fire_token_deltas_eq. Qed.

Lemma fire_token_deltas_witness :
  tokens_at (Transition_fire scenario_heap scenario_T).1.2 1%nat = 1.
Proof.
  apply (fire_token_deltas scenario_heap scenario_T 1%nat
           (mkPlace "B" 4 None [] []) eq_refl eq_refl).
Defined.

Lemma demand_single a w pairs :
  NoDup pairs.*1 -> (a, w) ∈ pairs -> demand a pairs = w.
Proof.
  induction pairs as [|[p v] rest IH]; csimpl; intros Hnd Hin.
  - now apply elem_of_nil in Hin.
  - apply NoDup_cons in Hnd as [Hp Hnd].
    apply elem_of_cons in Hin as [Hin|Hin].
    + injection Hin as <- <-. rewrite decide_True by reflexivity.
      rewrite demand_not_named by assumption. lia.
    + rewrite decide_False.
      * rewrite IH by assumption. lia.
      * intros ->. apply Hp. apply list_elem_of_fmap. now exists (a, w).
Qed.

Lemma valid_tokens_at h a : valid_tokens h -> 0 <= tokens_at h a < 2 ^ 32.
Proof.
  intros Hv. unfold tokens_at.
  destruct (heap_places h !! a) as [p|] eqn:E; simpl; [|lia].
  unfold valid_tokens in Hv. rewrite Forall_forall in Hv.
  apply Hv. eapply list_elem_of_lookup_2. eassumption.
Qed.

(** X3: on a heap of [uint32_t] counts, when no two input pairs name the
    same place, a successful [fire()] takes exactly its weight from every
    input place that is not also an output, and the count stays at or
    above zero: the subtraction does not wrap. *)
Theorem fire_distinct_inputs_exact (h : Heap) (t : Transition)
    (a : addr) (w : TokenCounterT) :
  valid_tokens h ->
  NoDup (Transition_ingoing_ t).*1 ->
  (a, w) ∈ Transition_ingoing_ t ->
  a ∉ (Transition_outgoing_ t).*1 ->
  0 <= w ->
  allocated h a ->
  (Transition_fire h t).1.1 = true ->
  tokens_at (Transition_fire h t).1.2 a = tokens_at h a - w /\
  0 <= tokens_at (Transition_fire h t).1.2 a.
Proof.
  intros Hv Hnd Hin Hout Hw Ha Hf.
  destruct (lookup_lt_is_Some_2 _ _ Ha) as [p Hp].
  rewrite (fire_token_deltas_eq h t a p Hf Hp).
  rewrite decide_True.
  2:{ apply elem_of_app. left. apply list_elem_of_fmap. now exists (a, w). }
  rewrite (demand_single a w _ Hnd Hin), (demand_not_named _ _ Hout).
  rewrite <- (tokens_at_lookup _ _ _ Hp).
  rewrite fire_returns_ready in Hf.
  apply readyLoop_sufficient in Hf. unfold sufficient in Hf.
  rewrite Forall_forall in Hf. specialize (Hf _ Hin). simpl in Hf.
  pose proof (valid_tokens_at h a Hv) as Hr.
  unfold wrap32. rewrite Z.mod_small by lia. lia.
Qed.

Lemma fire_distinct_inputs_exact_witness :
  tokens_at (Transition_fire scenario_heap scenario_T).1.2 2%nat = 5 - 4 /\
  0 <= tokens_at (Transition_fire scenario_heap scenario_T).1.2 2%nat.
Proof.
  apply (fire_distinct_inputs_exact scenario_heap scenario_T 2%nat 4).
  - repeat constructor; simpl; lia.
  - repeat constructor; vm_compute; intros H;
      repeat (apply elem_of_cons in H as [H|H]; [discriminate|]);
      now apply elem_of_nil in H.
  - apply elem_of_cons; right. apply elem_of_cons; right.
    apply elem_of_cons; now left.
  - vm_compute. intros H.
    repeat (apply elem_of_cons in H as [H|H]; [discriminate|]).
    now apply elem_of_nil in H.
  - lia.
  - unfold allocated. simpl. lia.
  - reflexivity.
Defined.

(** ** [Place::onChange] *)

Lemma same_frame_listener_at h h' a :
  same_frame h h' -> listener_at h' a = listener_at h a.
Proof.
  intros [Hf _]. unfold listener_at.
  assert (H : (place_frame <$> heap_places h') !! a =
              (place_frame <$> heap_places h) !! a) by now rewrite Hf.
  rewrite !list_lookup_fmap in H.
  destruct (heap_places h' !! a) as [p'|], (heap_places h !! a) as [p|];
    simpl in *; try discriminate; [|reflexivity].
  unfold place_frame in H. congruence.
Qed.

Lemma notifyLoop_listener h ptn e :
  e ∈ notifyLoop h ptn -> listener_at h (ev_place e) = Some (ev_listener e).
Proof.
  induction ptn as [|[place prev] rest IH]; simpl; intros H.
  - now apply elem_of_nil in H.
  - apply elem_of_app in H as [H|H]; [|now apply IH].
    unfold Place_changed in H. unfold listener_at.
    destruct (heap_places h !! place) as [p|] eqn:Hp;
      [|now apply elem_of_nil in H].
    destruct (Place_on_change_ p) as [fn|] eqn:Hfn;
      [|now apply elem_of_nil in H].
    apply list_elem_of_singleton in H. subst e. simpl. now rewrite Hp.
Qed.

Lemma fire_events_listener h t e :
  e ∈ (Transition_fire h t).2 ->
  listener_at h (ev_place e) = Some (ev_listener e).
Proof.
  intros H.
  rewrite <- (same_frame_listener_at h _ _ (Transition_fire_same_frame h t)).
  unfold Transition_fire in *.
  destruct (fireLocked h t) as [[rdy h'] ptn]. simpl in *.
  now apply (notifyLoop_listener h' ptn).
Qed.

Lemma listener_at_onChange h a fn :
  listener_at (Place_onChange h a fn) a =
  if decide (a < length (heap_places h))%nat then fn else None.
Proof.
  unfold listener_at, Place_onChange. simpl. rewrite list_lookup_alter_eq.
  destruct (decide _) as [H|H].
  - destruct (lookup_lt_is_Some_2 _ _ H) as [p ->]. reflexivity.
  - rewrite lookup_ge_None_2 by lia. reflexivity.
Qed.

(** X4: [onChange] has one slot.  Setting a listener twice leaves the
    later one, setting a listener changes no token count, and whatever a
    later [fire()] reports for that place goes to the listener set last:
    to nobody after [onChange(nullptr)]. *)
Theorem onChange_replaces (h : Heap) (a : addr) (fn1 fn2 : option Listener) :
  Place_onChange (Place_onChange h a fn1) a fn2 = Place_onChange h a fn2 /\
  marking (Place_onChange h a fn2) = marking h /\
  forall t e,
    e ∈ calls_to a (Transition_fire (Place_onChange h a fn2) t).2 ->
    fn2 = Some (ev_listener e).
Proof.
  split; [|split].
  - unfold Place_onChange. simpl. f_equal. apply list_eq. intros i.
    destruct (decide (i = a)) as [->|Hne].
    + rewrite !list_lookup_alter_eq.
      destruct (heap_places h !! a); reflexivity.
    + now rewrite !list_lookup_alter_ne.
  - unfold marking, Place_onChange. simpl. apply list_eq. intros i.
    rewrite !list_lookup_fmap.
    destruct (decide (i = a)) as [->|Hne].
    + rewrite list_lookup_alter_eq, <- option_fmap_compose.
      apply option_fmap_ext. reflexivity.
    + now rewrite list_lookup_alter_ne.
  - intros t e He. unfold calls_to in He.
    apply list_elem_of_filter in He as [Hpl He].
    apply fire_events_listener in He. rewrite Hpl in He.
    rewrite listener_at_onChange in He.
    destruct (decide _); [assumption|discriminate].
Qed.

Lemma onChange_replaces_witness :
  Some 9%nat = Some (ev_listener (Notified 0%nat 9%nat 1 1)).
Proof.
  apply (proj2 (proj2 (onChange_replaces loop_heap 0%nat (Some 7%nat)
                         (Some 9%nat))) loop_T (Notified 0%nat 9%nat 1 1)).
  vm_compute. constructor.
Defined.

(** ** Look-up and construction *)

Lemma find_place_Some h places id a :
  find_place h places id = Some a ->
  Some a ∈ places /\ Place_getID h a = id.
Proof.
  induction places as [|[p|] rest IH]; simpl; intros H.
  - discriminate.
  - destruct (decide (Place_getID h p = id)) as [E|E].
    + injection H as <-. split; [apply elem_of_cons; now left|exact E].
    + destruct (IH H) as [Hin Hid]. split; [|exact Hid].
      apply elem_of_cons. now right.
  - destruct (IH H) as [Hin Hid]. split; [|exact Hid].
    apply elem_of_cons. now right.
Qed.

Lemma find_place_None h places id :
  find_place h places id = None <->
  forall a, Some a ∈ places -> Place_getID h a <> id.
Proof.
  induction places as [|[p|] rest IH]; simpl.
  - split; [|reflexivity]. intros _ a H. now apply elem_of_nil in H.
  - destruct (decide (Place_getID h p = id)) as [E|E].
    + split; [discriminate|]. intros H. exfalso. apply (H p); [|exact E].
      apply elem_of_cons. now left.
    + rewrite IH. split.
      * intros H a Ha. apply elem_of_cons in Ha as [Ha|Ha].
        -- injection Ha as ->. exact E.
        -- now apply H.
      * intros H a Ha. apply H. apply elem_of_cons. now right.
  - rewrite IH. split.
    + intros H a Ha. apply elem_of_cons in Ha as [Ha|Ha]; [discriminate|].
      now apply H.
    + intros H a Ha. apply H. apply elem_of_cons. now right.
Qed.

Lemma find_transition_Some h transitions id a :
  find_transition h transitions id = Some a ->
  a ∈ transitions /\ Transition_getID h a = id.
Proof.
  induction transitions as [|t rest IH]; simpl; intros H.
  - discriminate.
  - destruct (decide (Transition_getID h t = id)) as [E|E].
    + injection H as <-. split; [apply elem_of_cons; now left|exact E].
    + destruct (IH H) as [Hin Hid]. split; [|exact Hid].
      apply elem_of_cons. now right.
Qed.

Lemma find_transition_None h transitions id :
  find_transition h transitions id = None <->
  forall a, a ∈ transitions -> Transition_getID h a <> id.
Proof.
  induction transitions as [|t rest IH]; simpl.
  - split; [|reflexivity]. intros _ a H. now apply elem_of_nil in H.
  - destruct (decide (Transition_getID h t = id)) as [E|E].
    + split; [discriminate|]. intros H. exfalso. apply (H t); [|exact E].
      apply elem_of_cons. now left.
    + rewrite IH. split.
      * intros H a Ha. apply elem_of_cons in Ha as [->|Ha]; [exact E|].
        now apply H.
      * intros H a Ha. apply H. apply elem_of_cons. now right.
Qed.

Lemma PetriNet_findTransition_eq n id w :
  PetriNet_findTransition n id w =
  match w_nets w !! n with
  | Some N => (Returned (findTransitionAcquired (w_heap w) N id), w)
  | None => (Undefined, w)
  end.
Proof.
  unfold PetriNet_findTransition, bind. rewrite get_net_eq.
  now destruct (w_nets w !! n).
Qed.

(** X5: [findPlace] and [findTransition] change nothing and always
    return.  What they return is an object of the net with the id asked
    for, and they return null only when the net has no object with that
    id. *)
Theorem find_returns_object_with_id (n : net) (id : string) (w : World)
    (N : PetriNet) :
  w_nets w !! n = Some N ->
  (exists o, PetriNet_findPlace n id w = (Returned o, w) /\
     match o with
     | Some a => Some a ∈ places_ N /\ Place_getID (w_heap w) a = id
     | None => forall a, Some a ∈ places_ N -> Place_getID (w_heap w) a <> id
     end) /\
  (exists o, PetriNet_findTransition n id w = (Returned o, w) /\
     match o with
     | Some t => t ∈ transitions_ N /\ Transition_getID (w_heap w) t = id
     | None =>
         forall t, t ∈ transitions_ N -> Transition_getID (w_heap w) t <> id
     end).
Proof.
  intros HN. split.
  - rewrite PetriNet_findPlace_eq, HN. eexists. split; [reflexivity|].
    unfold findPlaceAcquired.
    destruct (find_place (w_heap w) (places_ N) id) as [a|] eqn:E.
    + now apply find_place_Some.
    + now apply find_place_None.
  - rewrite PetriNet_findTransition_eq, HN. eexists. split; [reflexivity|].
    unfold findTransitionAcquired.
    destruct (find_transition (w_heap w) (transitions_ N) id) as [a|] eqn:E.
    + now apply find_transition_Some.
    + now apply find_transition_None.
Qed.

Lemma find_returns_object_with_id_witness :
  exists o, PetriNet_findPlace 0%nat "C" (cycle_world 1 0 0 0 0) =
              (Returned o, cycle_world 1 0 0 0 0).
Proof.
  destruct (find_returns_object_with_id 0%nat "C" (cycle_world 1 0 0 0 0)
              _ eq_refl) as [[o [H _]] _].
  exists o. exact H.
Defined.

Lemma addPlaceAcquired_eq n id k w N :
  w_nets w !! n = Some N ->
  addPlaceAcquired n id k w =
  match findPlaceAcquired (w_heap w) N id with
  | Some _ => (Thrown (invalid_argument "PlaceID already exists"), w)
  | None =>
      (Returned (length (heap_places (w_heap w))),
       mkWorld (mkHeap (heap_places (w_heap w) ++ [mkPlace id k None [] []])
                       (heap_transitions (w_heap w)))
               (<[n := mkNet (places_ N ++
                                [Some (length (heap_places (w_heap w)))])
                             (transitions_ N)]> (w_nets w))
               (w_log w))
  end.
Proof.
  intros HN. unfold addPlaceAcquired, bind at 1. rewrite get_net_eq, HN.
  unfold bind at 1, get_heap, bind at 1, get, ret. cbv beta iota.
  destruct (findPlaceAcquired (w_heap w) N id); reflexivity.
Qed.

(** X6: [addPlace] with an id that a place of the net already has throws
    [invalid_argument] and leaves the world as it was. *)
Theorem addPlace_duplicate_throws (n : net) (id : string)
    (k : TokenCounterT) (w : World) (N : PetriNet) (a : addr) :
  w_nets w !! n = Some N ->
  Some a ∈ places_ N -> Place_getID (w_heap w) a = id ->
  PetriNet_addPlace n id k w =
  (Thrown (invalid_argument "PlaceID already exists"), w).
Proof.
  intros HN Ha Hid. unfold PetriNet_addPlace.
  rewrite (addPlaceAcquired_eq _ _ _ _ _ HN). unfold findPlaceAcquired.
  destruct (find_place (w_heap w) (places_ N) id) eqn:E; [reflexivity|].
  exfalso. rewrite find_place_None in E. now apply (E a).
Qed.

Lemma addPlace_duplicate_throws_witness :
  PetriNet_addPlace 0%nat "B" 5 (cycle_world 1 0 0 0 0) =
  (Thrown (invalid_argument "PlaceID already exists"), cycle_world 1 0 0 0 0).
Proof.
  apply (addPlace_duplicate_throws 0%nat "B" 5 (cycle_world 1 0 0 0 0)
           _ 1%nat eq_refl); [|reflexivity].
  apply elem_of_cons; right. apply elem_of_cons; now left.
Defined.

Lemma Place_getID_app_allocated h a p :
  (a < length (heap_places h))%nat ->
  Place_getID (mkHeap (heap_places h ++ [p]) (heap_transitions h)) a =
  Place_getID h a.
Proof.
  intros H. unfold Place_getID. simpl. now rewrite lookup_app_l.
Qed.

Lemma find_place_app h places1 places2 id :
  find_place h (places1 ++ places2) id =
  match find_place h places1 id with
  | Some a => Some a
  | None => find_place h places2 id
  end.
Proof.
  induction places1 as [|[p|] rest IH]; simpl; [reflexivity| |exact IH].
  destruct (decide (Place_getID h p = id)); [reflexivity|exact IH].
Qed.

Lemma find_place_ext h h' places id :
  (forall a, Some a ∈ places -> Place_getID h' a = Place_getID h a) ->
  find_place h' places id = find_place h places id.
Proof.
  induction places as [|[p|] rest IH]; simpl; intros H; [reflexivity| |].
  - rewrite (H p) by (apply elem_of_cons; now left).
    rewrite IH; [reflexivity|].
    intros a Ha. apply H. apply elem_of_cons. now right.
  - apply IH. intros a Ha. apply H. apply elem_of_cons. now right.
Qed.

Lemma net_place_ids_ext h h' N :
  (forall a, Some a ∈ places_ N -> Place_getID h' a = Place_getID h a) ->
  net_place_ids h' N = net_place_ids h N.
Proof.
  unfold net_place_ids. induction (places_ N) as [|[p|] rest IH];
    simpl; intros H; [reflexivity| |].
  - rewrite (H p) by (apply elem_of_cons; now left). f_equal.
    apply IH. intros a Ha. apply H. apply elem_of_cons. now right.
  - apply IH. intros a Ha. apply H. apply elem_of_cons. now right.
Qed.

(** X7: [addPlace] with an id that no place of the net has returns a new
    place that [findPlace] finds under that id, holding the initial
    tokens and no listener; every other id is looked up as before, the
    places already there keep their counts, and the other nets are not
    touched. *)
Theorem addPlace_fresh_registers (n : net) (id : string)
    (k : TokenCounterT) (w : World) (N : PetriNet) :
  w_nets w !! n = Some N ->
  net_allocated (w_heap w) N ->
  (forall a, Some a ∈ places_ N -> Place_getID (w_heap w) a <> id) ->
  exists ptr w' N',
    PetriNet_addPlace n id k w = (Returned ptr, w') /\
    w_nets w' !! n = Some N' /\
    PetriNet_findPlace n id w' = (Returned (Some ptr), w') /\
    tokens_at (w_heap w') ptr = k /\
    listener_at (w_heap w') ptr = None /\
    (forall id', id' <> id ->
       findPlaceAcquired (w_heap w') N' id' =
       findPlaceAcquired (w_heap w) N id') /\
    marking (w_heap w') = marking (w_heap w) ++ [(id, k)] /\
    net_place_ids (w_heap w') N' = net_place_ids (w_heap w) N ++ [id] /\
    (forall n', n' <> n -> w_nets w' !! n' = w_nets w !! n').
Proof.
  intros HN Hal Hfresh. unfold PetriNet_addPlace.
  rewrite (addPlaceAcquired_eq _ _ _ _ _ HN). unfold findPlaceAcquired.
  rewrite (proj2 (find_place_None _ _ _) Hfresh).
  set (ptr := length (heap_places (w_heap w))).
  set (h' := mkHeap (heap_places (w_heap w) ++ [mkPlace id k None [] []])
                    (heap_transitions (w_heap w))).
  set (N' := mkNet (places_ N ++ [Some ptr]) (transitions_ N)).
  assert (Hn : (n < length (w_nets w))%nat) by (eapply lookup_lt_Some; eassumption).
  assert (Hold : forall a, Some a ∈ places_ N ->
                   Place_getID h' a = Place_getID (w_heap w) a).
  { intros a Ha. apply Place_getID_app_allocated. now apply Hal. }
  assert (Hnew : Place_getID h' ptr = id).
  { unfold Place_getID, h', ptr. simpl.
    rewrite lookup_app_r by lia. now rewrite Nat.sub_diag. }
  exists ptr, (mkWorld h' (<[n := N']> (w_nets w)) (w_log w)), N'.
  split; [reflexivity|]. cbn [w_nets w_heap].
  assert (HN' : <[n := N']> (w_nets w) !! n = Some N')
    by now apply list_lookup_insert_eq.
  split; [exact HN'|]. split; [|split; [|split; [|split; [|split; [|split]]]]].
  - rewrite PetriNet_findPlace_eq. cbn [w_nets w_heap]. rewrite HN'.
    unfold findPlaceAcquired, N'. cbn [places_].
    rewrite find_place_app, (find_place_ext (w_heap w) h') by exact Hold.
    rewrite (proj2 (find_place_None _ _ _) Hfresh). simpl.
    now rewrite decide_True.
  - unfold tokens_at, h', ptr. simpl.
    rewrite lookup_app_r by lia. now rewrite Nat.sub_diag.
  - unfold listener_at, h', ptr. simpl.
    rewrite lookup_app_r by lia. now rewrite Nat.sub_diag.
  - intros id' Hne. unfold N'. cbn [places_].
    rewrite find_place_app, (find_place_ext (w_heap w) h') by exact Hold.
    destruct (find_place (w_heap w) (places_ N) id'); [reflexivity|].
    simpl. rewrite decide_False; [reflexivity|]. rewrite Hnew. congruence.
  - unfold marking, h'. simpl. now rewrite fmap_app.
  - unfold net_place_ids, N'. cbn [places_]. rewrite omap_app. simpl.
    rewrite Hnew. f_equal. now apply net_place_ids_ext.
  - intros n' Hne. now apply list_lookup_insert_ne.
Qed.

Lemma addPlace_fresh_registers_witness :
  exists ptr w' N',
    PetriNet_addPlace 0%nat "F" 7 (cycle_world 1 0 0 0 0) = (Returned ptr, w') /\
    w_nets w' !! 0%nat = Some N' /\
    PetriNet_findPlace 0%nat "F" w' = (Returned (Some ptr), w').
Proof.
  destruct (addPlace_fresh_registers 0%nat "F" 7 (cycle_world 1 0 0 0 0)
              _ eq_refl) as (ptr & w' & N' & H1 & H2 & H3 & _).
  - intros a Ha. cbn in *.
    repeat (apply elem_of_cons in Ha as [Ha|Ha];
            [injection Ha as ->; lia|]).
    now apply elem_of_nil in Ha.
  - intros a Ha. cbn in Ha.
    repeat (apply elem_of_cons in Ha as [Ha|Ha];
            [injection Ha as ->; discriminate|]).
    now apply elem_of_nil in Ha.
  - exists ptr, w', N'. auto.
Defined.

Lemma elem_of_net_place_ids h N id :
  id ∈ net_place_ids h N <->
  exists a, Some a ∈ places_ N /\ Place_getID h a = id.
Proof.
  unfold net_place_ids. rewrite list_elem_of_omap. split.
  - intros ([a|] & Hin & Hx); simpl in Hx; [|discriminate].
    injection Hx as <-. now exists a.
  - intros (a & Hin & Hid). exists (Some a). split; [exact Hin|].
    simpl. now rewrite Hid.
Qed.

(** X8: [addPlace] keeps the place ids of a net pairwise distinct and its
    place pointers valid, whether it returns or throws. *)
Theorem addPlace_keeps_ids_unique (n : net) (id : string)
    (k : TokenCounterT) (w w' : World) (N : PetriNet) (r : outcome nat) :
  w_nets w !! n = Some N ->
  net_allocated (w_heap w) N ->
  NoDup (net_place_ids (w_heap w) N) ->
  PetriNet_addPlace n id k w = (r, w') ->
  exists N', w_nets w' !! n = Some N' /\
    net_allocated (w_heap w') N' /\
    NoDup (net_place_ids (w_heap w') N').
Proof.
  intros HN Hal Hnd. unfold PetriNet_addPlace.
  rewrite (addPlaceAcquired_eq _ _ _ _ _ HN). unfold findPlaceAcquired.
  destruct (find_place (w_heap w) (places_ N) id) as [a|] eqn:E.
  - intros [= <- <-]. now exists N.
  - rewrite find_place_None in E. intros [= <- <-]. cbn [w_nets w_heap].
    set (ptr := length (heap_places (w_heap w))).
    set (h' := mkHeap (heap_places (w_heap w) ++ [mkPlace id k None [] []])
                      (heap_transitions (w_heap w))).
    exists (mkNet (places_ N ++ [Some ptr]) (transitions_ N)).
    split; [apply list_lookup_insert_eq; eapply lookup_lt_Some; eassumption|].
    split.
    + intros a Ha. cbn [places_] in Ha. unfold h'. simpl.
      rewrite length_app. simpl.
      apply elem_of_app in Ha as [Ha|Ha].
      * specialize (Hal a Ha). lia.
      * apply list_elem_of_singleton in Ha. injection Ha as ->.
        unfold ptr. lia.
    + unfold net_place_ids. cbn [places_]. rewrite omap_app. simpl.
      assert (Hnew : Place_getID h' ptr = id).
      { unfold Place_getID, h', ptr. simpl.
        rewrite lookup_app_r by lia. now rewrite Nat.sub_diag. }
      rewrite Hnew.
      assert (Hold : omap (fun o : option nat => Place_getID h' <$> o)
                       (places_ N) = net_place_ids (w_heap w) N).
      { apply net_place_ids_ext. intros a Ha.
        apply Place_getID_app_allocated. now apply Hal. }
      rewrite Hold. apply NoDup_app. split; [exact Hnd|].
      split; [|apply NoDup_singleton].
      intros x Hx Hx'. apply list_elem_of_singleton in Hx'. subst x.
      apply elem_of_net_place_ids in Hx as (a & Ha & Hid).
      now apply (E a).
Qed.

Lemma addPlace_keeps_ids_unique_witness :
  exists N', w_nets (PetriNet_addPlace 0%nat "F" 7 (cycle_world 1 0 0 0 0)).2
               !! 0%nat = Some N' /\
    NoDup (net_place_ids
             (w_heap (PetriNet_addPlace 0%nat "F" 7 (cycle_world 1 0 0 0 0)).2)
             N').
Proof.
  destruct (addPlace_keeps_ids_unique 0%nat "F" 7 (cycle_world 1 0 0 0 0)
              (PetriNet_addPlace 0%nat "F" 7 (cycle_world 1 0 0 0 0)).2
              _ (PetriNet_addPlace 0%nat "F" 7 (cycle_world 1 0 0 0 0)).1
              eq_refl) as (N' & H1 & _ & H2).
  - intros a Ha. cbn in *.
    repeat (apply elem_of_cons in Ha as [Ha|Ha];
            [injection Ha as ->; lia|]).
    now apply elem_of_nil in Ha.
  - apply (bool_decide_unpack _). vm_compute. exact I.
  - reflexivity.
  - exists N'. auto.
Defined.

(** ** [addTransition] *)

Lemma resolve_pairs_eq h N pairs acc w :
  resolve_pairs h N pairs acc w =
  match resolved h N pairs with
  | Some l => (Returned (acc ++ l), w)
  | None => (Thrown sketch_invalid, w)
  end.
Proof.
  revert acc. induction pairs as [|[pid weight] rest IH]; intros acc; simpl.
  - now rewrite app_nil_r.
  - destruct (findPlaceAcquired h N pid) as [place|]; [|reflexivity].
    rewrite IH. destruct (resolved h N rest); [|reflexivity].
    now rewrite <- app_assoc.
Qed.

Lemma for_each_alter_place push ptr (pairs : list WeightPairT) w :
  for_each (fun '(place, _) => alter_place (push ptr) place) pairs w =
  (Returned tt,
   mkWorld (mkHeap (wired push ptr pairs (heap_places (w_heap w)))
                   (heap_transitions (w_heap w)))
           (w_nets w) (w_log w)).
Proof.
  revert w. induction pairs as [|[place weight] rest IH]; intros w; simpl.
  - now destruct w as [[] ? ?].
  - unfold bind at 1, alter_place at 1, bind at 1, get_heap, bind at 1, get,
      ret, put_heap, modify. cbv beta iota. rewrite IH. reflexivity.
Qed.

Lemma addTransitionAcquired_eq n sketch w N :
  w_nets w !! n = Some N ->
  addTransitionAcquired n sketch w =
  match findTransitionAcquired (w_heap w) N (sketch_id sketch) with
  | Some _ => (Thrown transition_id_exists, w)
  | None =>
      match resolved (w_heap w) N (sketch_ingoing sketch),
            resolved (w_heap w) N (sketch_outgoing sketch) with
      | Some ingoing, Some outgoing =>
          let ptr := length (heap_transitions (w_heap w)) in
          (Returned ptr,
           mkWorld
             (mkHeap
                (wired push_outgoing_to ptr outgoing
                   (wired push_ingoing_to ptr ingoing
                      (heap_places (w_heap w))))
                (heap_transitions (w_heap w) ++
                 [mkTransition (sketch_id sketch) ingoing outgoing None]))
             (<[n := mkNet (places_ N) (transitions_ N ++ [ptr])]> (w_nets w))
             (w_log w))
      | _, _ => (Thrown sketch_invalid, w)
      end
  end.
Proof.
  intros HN. unfold addTransitionAcquired, bind at 1. rewrite get_net_eq, HN.
  unfold bind at 1, get_heap, bind at 1, get, ret. cbv beta iota.
  destruct (findTransitionAcquired (w_heap w) N (sketch_id sketch));
    [reflexivity|].
  unfold bind at 1. rewrite resolve_pairs_eq.
  destruct (resolved (w_heap w) N (sketch_ingoing sketch)) as [ingoing|];
    [|reflexivity].
  unfold bind at 1. rewrite resolve_pairs_eq.
  destruct (resolved (w_heap w) N (sketch_outgoing sketch)) as [outgoing|];
    [|reflexivity].
  simpl app.
  unfold bind at 1, new_Transition, bind at 1, get_heap, bind at 1, get, ret.
  cbv beta iota.
  unfold bind at 1, put_heap, modify. cbv beta iota.
  unfold bind at 1, put_net, modify. cbv beta iota.
  unfold bind at 1. rewrite for_each_alter_place.
  unfold bind at 1. rewrite for_each_alter_place. reflexivity.
Qed.

Lemma resolved_None h N pairs :
  resolved h N pairs = None ->
  exists pid, pid ∈ pairs.*1 /\
    forall a, Some a ∈ places_ N -> Place_getID h a <> pid.
Proof.
  induction pairs as [|[pid weight] rest IH]; csimpl; [discriminate|].
  unfold findPlaceAcquired at 1.
  destruct (find_place h (places_ N) pid) as [place|] eqn:E.
  - destruct (resolved h N rest); [discriminate|]. intros _.
    destruct (IH eq_refl) as (pid' & Hin & Hno). exists pid'.
    split; [apply elem_of_cons; now right|exact Hno].
  - intros _. exists pid. split; [apply elem_of_cons; now left|].
    now apply find_place_None.
Qed.

Lemma resolved_Some h N pairs l :
  resolved h N pairs = Some l ->
  to_sketch_weight_pair h <$> l = pairs /\
  forall pw, pw ∈ l -> Some pw.1 ∈ places_ N.
Proof.
  revert l. induction pairs as [|[pid weight] rest IH]; intros l; csimpl.
  - intros [= <-]. split; [reflexivity|]. intros pw H.
    now apply elem_of_nil in H.
  - unfold findPlaceAcquired at 1.
    destruct (find_place h (places_ N) pid) as [place|] eqn:E;
      [|discriminate].
    destruct (resolved h N rest) as [l'|]; [|discriminate].
    intros [= <-]. destruct (IH l' eq_refl) as [Hs Hin].
    apply find_place_Some in E as [Hpl Hid]. split.
    + csimpl. rewrite Hs. unfold to_sketch_weight_pair. simpl.
      now rewrite Hid.
    + intros pw Hpw. apply elem_of_cons in Hpw as [->|Hpw]; [exact Hpl|].
      now apply Hin.
Qed.

Lemma resolved_known h N pairs :
  ids_known h N pairs -> is_Some (resolved h N pairs).
Proof.
  intros Hk. destruct (resolved h N pairs) eqn:E; [eauto|].
  apply resolved_None in E as (pid & Hin & Hno).
  destruct (Hk pid Hin) as (a & Ha & Hid). now destruct (Hno a Ha).
Qed.

(** X9: a failing [addTransition] changes nothing.  It throws
    [invalid_argument] for one of two reasons: the net already has a
    transition with the id of the sketch, or, the id being new, the
    sketch names a place id that no place of the net has. *)
Theorem addTransition_failure_keeps_world (n : net)
    (sketch : TransitionSketch) (w w' : World) (N : PetriNet) (e : exn) :
  w_nets w !! n = Some N ->
  PetriNet_addTransition n sketch w = (Thrown e, w') ->
  w' = w /\
  ((e = transition_id_exists /\
    exists t, t ∈ transitions_ N /\
      Transition_getID (w_heap w) t = sketch_id sketch) \/
   (e = sketch_invalid /\
    (forall t, t ∈ transitions_ N ->
       Transition_getID (w_heap w) t <> sketch_id sketch) /\
    exists pid,
      pid ∈ (sketch_ingoing sketch ++ sketch_outgoing sketch).*1 /\
      forall a, Some a ∈ places_ N -> Place_getID (w_heap w) a <> pid)).
Proof.
  intros HN. unfold PetriNet_addTransition.
  rewrite (addTransitionAcquired_eq _ _ _ _ HN). unfold findTransitionAcquired.
  destruct (find_transition (w_heap w) (transitions_ N) (sketch_id sketch))
    as [t|] eqn:Ef.
  - intros [= <- <-]. split; [reflexivity|]. left. split; [reflexivity|].
    exists t. now apply find_transition_Some.
  - rewrite find_transition_None in Ef.
    destruct (resolved (w_heap w) N (sketch_ingoing sketch)) as [ingoing|] eqn:Ei.
    + destruct (resolved (w_heap w) N (sketch_outgoing sketch)) as [outgoing|] eqn:Eo;
        [discriminate|].
      intros [= <- <-]. split; [reflexivity|]. right.
      split; [reflexivity|]. split; [exact Ef|].
      apply resolved_None in Eo as (pid & Hin & Hno). exists pid.
      split; [|exact Hno]. rewrite fmap_app. apply elem_of_app. now right.
    + intros [= <- <-]. split; [reflexivity|]. right.
      split; [reflexivity|]. split; [exact Ef|].
      apply resolved_None in Ei as (pid & Hin & Hno). exists pid.
      split; [|exact Hno]. rewrite fmap_app. apply elem_of_app. now left.
Qed.

Lemma addTransition_failure_keeps_world_witness :
  (PetriNet_addTransition 0%nat (mkSketch "T" [("A", 1)] [("Z", 1)])
     (cycle_world 1 0 0 0 0)).2 = cycle_world 1 0 0 0 0.
Proof.
  apply (addTransition_failure_keeps_world 0%nat
           (mkSketch "T" [("A", 1)] [("Z", 1)]) (cycle_world 1 0 0 0 0)
           _ _ sketch_invalid eq_refl eq_refl).
Defined.

Lemma wired_cons push ptr pw pairs places :
  wired push ptr (pw :: pairs) places =
  wired push ptr pairs (alter (push ptr) pw.1 places).
Proof. reflexivity. Qed.

Lemma times_named_cons a (pw : WeightPairT) pairs :
  times_named a (pw :: pairs) =
  if decide (pw.1 = a) then S (times_named a pairs) else times_named a pairs.
Proof.
  unfold times_named. destruct (decide (pw.1 = a)) as [E|E].
  - now rewrite filter_cons_True.
  - now rewrite filter_cons_False.
Qed.

Lemma wired_ingoing_lookup ptr pairs places a :
  wired push_ingoing_to ptr pairs places !! a =
  more_ingoing_to (times_named a pairs) ptr <$> places !! a.
Proof.
  revert places. induction pairs as [|pw rest IH]; intros places.
  - simpl. destruct (places !! a) as [[]|]; [|reflexivity].
    unfold more_ingoing_to. simpl. now rewrite app_nil_r.
  - rewrite wired_cons, IH, times_named_cons. destruct pw as [p0 w0].
    cbn [fst]. destruct (decide (p0 = a)) as [->|Hne].
    + rewrite list_lookup_alter_eq.
      destruct (places !! a) as [[]|]; [|reflexivity].
      unfold more_ingoing_to, push_ingoing_to. simpl.
      now rewrite <- app_assoc.
    + now rewrite list_lookup_alter_ne.
Qed.

Lemma wired_outgoing_lookup ptr pairs places a :
  wired push_outgoing_to ptr pairs places !! a =
  more_outgoing_to (times_named a pairs) ptr <$> places !! a.
Proof.
  revert places. induction pairs as [|pw rest IH]; intros places.
  - simpl. destruct (places !! a) as [[]|]; [|reflexivity].
    unfold more_outgoing_to. simpl. now rewrite app_nil_r.
  - rewrite wired_cons, IH, times_named_cons. destruct pw as [p0 w0].
    cbn [fst]. destruct (decide (p0 = a)) as [->|Hne].
    + rewrite list_lookup_alter_eq.
      destruct (places !! a) as [[]|]; [|reflexivity].
      unfold more_outgoing_to, push_outgoing_to. simpl.
      now rewrite <- app_assoc.
    + now rewrite list_lookup_alter_ne.
Qed.

Lemma wired_both_lookup ptr ingoing outgoing places a :
  wired push_outgoing_to ptr outgoing
    (wired push_ingoing_to ptr ingoing places) !! a =
  (fun p => more_outgoing_to (times_named a outgoing) ptr
              (more_ingoing_to (times_named a ingoing) ptr p)) <$>
  places !! a.
Proof.
  rewrite wired_outgoing_lookup, wired_ingoing_lookup.
  now destruct (places !! a).
Qed.

Lemma wired_both_cores ptr ingoing outgoing places :
  place_core <$> wired push_outgoing_to ptr outgoing
                   (wired push_ingoing_to ptr ingoing places) =
  place_core <$> places.
Proof.
  apply list_eq. intros a. rewrite !list_lookup_fmap, wired_both_lookup.
  now destruct (places !! a).
Qed.

Lemma cores_Place_getID (l l' : list Place) tr tr' a :
  place_core <$> l' = place_core <$> l ->
  Place_getID (mkHeap l' tr') a = Place_getID (mkHeap l tr) a.
Proof.
  intros H. unfold Place_getID. simpl.
  assert (E : (place_core <$> l') !! a = (place_core <$> l) !! a)
    by now rewrite H.
  rewrite !list_lookup_fmap in E.
  destruct (l' !! a) as [p'|], (l !! a) as [p|]; simpl in *;
    try discriminate; [|reflexivity].
  unfold place_core in E. congruence.
Qed.

Lemma cores_marking (l l' : list Place) tr tr' :
  place_core <$> l' = place_core <$> l ->
  marking (mkHeap l' tr') = marking (mkHeap l tr).
Proof.
  intros H. unfold marking. simpl.
  assert (E : forall x : list Place,
             (fun p => (Place_id_ p, Place_tokens_ p)) <$> x =
             (fun c => (c.1.1, c.1.2)) <$> (place_core <$> x)).
  { intros x. rewrite <- list_fmap_compose. reflexivity. }
  now rewrite !E, H.
Qed.

Lemma find_transition_added h ts T id :
  Transition_id_ T = id ->
  find_transition h ts id = None ->
  find_transition (mkHeap (heap_places h) (heap_transitions h ++ [T]))
                  (ts ++ [length (heap_transitions h)]) id =
  Some (length (heap_transitions h)).
Proof.
  intros HT. set (h' := mkHeap _ _).
  assert (Hnew : Transition_getID h' (length (heap_transitions h)) = id).
  { unfold Transition_getID, h'. simpl.
    rewrite lookup_app_r by lia. now rewrite Nat.sub_diag. }
  induction ts as [|t rest IH]; simpl; intros H.
  - now rewrite decide_True.
  - destruct (decide (Transition_getID h t = id)) as [E|E]; [discriminate|].
    destruct (decide (t = length (heap_transitions h))) as [->|Hne].
    + now rewrite decide_True.
    + rewrite decide_False; [now apply IH|].
      intros E'. apply E. rewrite <- E'. unfold Transition_getID, h'. simpl.
      destruct (decide (t < length (heap_transitions h))%nat).
      * now rewrite lookup_app_l.
      * rewrite (lookup_ge_None_2 (heap_transitions h ++ [T]))
          by (rewrite length_app; simpl; lia).
        now rewrite (lookup_ge_None_2 (heap_transitions h)) by lia.
Qed.

Lemma addTransition_Returned_inv n sketch w N ptr w' :
  w_nets w !! n = Some N ->
  addTransitionAcquired n sketch w = (Returned ptr, w') ->
  exists ingoing outgoing,
    find_transition (w_heap w) (transitions_ N) (sketch_id sketch) = None /\
    resolved (w_heap w) N (sketch_ingoing sketch) = Some ingoing /\
    resolved (w_heap w) N (sketch_outgoing sketch) = Some outgoing /\
    ptr = length (heap_transitions (w_heap w)) /\
    w' = world_with_transition n N (sketch_id sketch) ingoing outgoing w.
Proof.
  intros HN. rewrite (addTransitionAcquired_eq _ _ _ _ HN).
  unfold findTransitionAcquired.
  destruct (find_transition _ _ _); [discriminate|].
  destruct (resolved (w_heap w) N (sketch_ingoing sketch)) as [ingoing|];
    [|discriminate].
  destruct (resolved (w_heap w) N (sketch_outgoing sketch)) as [outgoing|];
    [|discriminate].
  intros [= <- <-]. exists ingoing, outgoing. auto.
Qed.

Lemma world_with_transition_getID n N id ingoing outgoing w a :
  Place_getID (w_heap (world_with_transition n N id ingoing outgoing w)) a =
  Place_getID (w_heap w) a.
Proof.
  unfold world_with_transition. cbn [w_heap]. destruct (w_heap w).
  apply cores_Place_getID, wired_both_cores.
Qed.

Lemma to_sketch_weight_pair_ext h h' (l : list WeightPairT) :
  (forall a, Place_getID h' a = Place_getID h a) ->
  to_sketch_weight_pair h' <$> l = to_sketch_weight_pair h <$> l.
Proof.
  intros H. apply list_fmap_ext. intros i [a wt] _.
  unfold to_sketch_weight_pair. simpl. now rewrite H.
Qed.

Lemma find_transition_heap_places pl pl' tr ts id :
  find_transition (mkHeap pl tr) ts id = find_transition (mkHeap pl' tr) ts id.
Proof.
  induction ts as [|t rest IH]; simpl; [reflexivity|].
  unfold Transition_getID at 1 3. simpl. now rewrite IH.
Qed.

(** X10: [addTransition] with a new id and a sketch whose place ids all
    belong to places of the net returns a new transition.
    [findTransition] finds it under the id of the sketch, it has no
    predicate, its pairs point at places of the net, and re-expressing it
    as a sketch, as [merge] does, gives the sketch back.  No token count
    and no [places_] changes. *)
Theorem addTransition_registers (n : net) (sketch : TransitionSketch)
    (w : World) (N : PetriNet) :
  w_nets w !! n = Some N ->
  (forall t, t ∈ transitions_ N ->
     Transition_getID (w_heap w) t <> sketch_id sketch) ->
  ids_known (w_heap w) N (sketch_ingoing sketch) ->
  ids_known (w_heap w) N (sketch_outgoing sketch) ->
  exists ptr w' T,
    PetriNet_addTransition n sketch w = (Returned ptr, w') /\
    PetriNet_findTransition n (sketch_id sketch) w' =
      (Returned (Some ptr), w') /\
    heap_transitions (w_heap w') !! ptr = Some T /\
    sketch_of (w_heap w') ptr w' = (Returned (sketch, None), w') /\
    (forall pw, pw ∈ Transition_ingoing_ T ++ Transition_outgoing_ T ->
       Some pw.1 ∈ places_ N) /\
    marking (w_heap w') = marking (w_heap w) /\
    net_places w' n = Some (places_ N).
Proof.
  intros HN Hfresh Hin Hout. unfold PetriNet_addTransition.
  rewrite (addTransitionAcquired_eq _ _ _ _ HN). unfold findTransitionAcquired.
  apply find_transition_None in Hfresh. rewrite Hfresh.
  destruct (resolved_known _ _ _ Hin) as [ingoing Ei].
  destruct (resolved_known _ _ _ Hout) as [outgoing Eo].
  rewrite Ei, Eo. cbv zeta.
  fold (world_with_transition n N (sketch_id sketch) ingoing outgoing w).
  set (w' := world_with_transition n N (sketch_id sketch) ingoing outgoing w).
  set (ptr := length (heap_transitions (w_heap w))).
  set (T := mkTransition (sketch_id sketch) ingoing outgoing None).
  assert (Hn : (n < length (w_nets w))%nat)
    by (eapply lookup_lt_Some; eassumption).
  assert (HT : heap_transitions (w_heap w') !! ptr = Some T).
  { unfold w', world_with_transition, ptr. cbn [w_heap heap_transitions].
    rewrite lookup_app_r by lia. now rewrite Nat.sub_diag. }
  assert (HN' : w_nets w' !! n =
                Some (mkNet (places_ N) (transitions_ N ++ [ptr]))).
  { unfold w', world_with_transition. cbn [w_nets].
    now apply list_lookup_insert_eq. }
  destruct (resolved_Some _ _ _ _ Ei) as [Hsi Hpi].
  destruct (resolved_Some _ _ _ _ Eo) as [Hso Hpo].
  exists ptr, w', T. split; [reflexivity|].
  split; [|split; [exact HT|split; [|split; [|split]]]].
  - rewrite PetriNet_findTransition_eq, HN'. unfold findTransitionAcquired.
    cbn [transitions_]. f_equal. f_equal.
    unfold w', world_with_transition. cbn [w_heap].
    rewrite (find_transition_heap_places _ (heap_places (w_heap w))).
    exact (find_transition_added (w_heap w) (transitions_ N) T
             (sketch_id sketch) eq_refl Hfresh).
  - unfold sketch_of. rewrite HT. unfold ret. f_equal. f_equal.
    unfold T. cbn [Transition_id_ Transition_ingoing_ Transition_outgoing_
                   Transition_evaluate_condition_].
    rewrite !(to_sketch_weight_pair_ext (w_heap w) (w_heap w'))
      by (intros a; apply world_with_transition_getID).
    rewrite Hsi, Hso. now destruct sketch.
  - intros pw Hpw. unfold T in Hpw. simpl in Hpw.
    apply elem_of_app in Hpw as [Hpw|Hpw]; [now apply Hpi|now apply Hpo].
  - unfold w', world_with_transition. cbn [w_heap]. destruct (w_heap w).
    apply cores_marking, wired_both_cores.
  - unfold net_places. now rewrite HN'.
Qed.

Lemma addTransition_registers_witness :
  exists ptr w' T,
    PetriNet_addTransition 0%nat (mkSketch "EA" [("E", 1)] [("A", 2)])
      (cycle_world 1 0 0 0 0) = (Returned ptr, w') /\
    PetriNet_findTransition 0%nat "EA" w' = (Returned (Some ptr), w') /\
    heap_transitions (w_heap w') !! ptr = Some T.
Proof.
  destruct (addTransition_registers 0%nat
              (mkSketch "EA" [("E", 1)] [("A", 2)]) (cycle_world 1 0 0 0 0)
              _ eq_refl) as (ptr & w' & T & H1 & H2 & H3 & _).
  - intros t Ht. cbn in Ht.
    repeat (apply elem_of_cons in Ht as [->|Ht]; [discriminate|]).
    now apply elem_of_nil in Ht.
  - intros pid Hp. apply list_elem_of_singleton in Hp. subst pid.
    exists 4%nat. split; [|reflexivity].
    cbn. do 4 (apply elem_of_cons; right). apply elem_of_cons; now left.
  - intros pid Hp. apply list_elem_of_singleton in Hp. subst pid.
    exists 0%nat. split; [|reflexivity].
    cbn. apply elem_of_cons; now left.
  - exists ptr, w', T. auto.
Defined.

(** X11: a successful [addTransition] appends the new transition to the
    list of fed transitions of the place of each input pair and to the
    list of feeding transitions of the place of each output pair, once
    per pair naming the place, and changes nothing else in any place. *)
Theorem addTransition_wires_adjacency (n : net) (sketch : TransitionSketch)
    (w w' : World) (N : PetriNet) (ptr a : addr) (p : Place) :
  w_nets w !! n = Some N ->
  PetriNet_addTransition n sketch w = (Returned ptr, w') ->
  heap_places (w_heap w) !! a = Some p ->
  exists T,
    heap_transitions (w_heap w') !! ptr = Some T /\
    heap_places (w_heap w') !! a =
    Some (more_outgoing_to (times_named a (Transition_outgoing_ T)) ptr
            (more_ingoing_to (times_named a (Transition_ingoing_ T)) ptr p)).
Proof.
  intros HN Hadd Hp.
  destruct (addTransition_Returned_inv _ _ _ _ _ _ HN Hadd)
    as (ingoing & outgoing & _ & _ & _ & -> & ->).
  exists (mkTransition (sketch_id sketch) ingoing outgoing None). split.
  - unfold world_with_transition. cbn [w_heap heap_transitions].
    rewrite lookup_app_r by lia. now rewrite Nat.sub_diag.
  - unfold world_with_transition. cbn [w_heap heap_places].
    rewrite wired_both_lookup, Hp. reflexivity.
Qed.

Lemma addTransition_wires_adjacency_witness :
  exists T,
    heap_transitions
      (w_heap (PetriNet_addTransition 0%nat
                 (mkSketch "AA" [("A", 1); ("A", 1)] [("B", 1)])
                 (cycle_world 1 0 0 0 0)).2) !! 4%nat = Some T.
Proof.
  destruct (addTransition_wires_adjacency 0%nat
              (mkSketch "AA" [("A", 1); ("A", 1)] [("B", 1)])
              (cycle_world 1 0 0 0 0)
              (PetriNet_addTransition 0%nat
                 (mkSketch "AA" [("A", 1); ("A", 1)] [("B", 1)])
                 (cycle_world 1 0 0 0 0)).2
              _ 4%nat 0%nat _ eq_refl eq_refl eq_refl) as (T & H & _).
  exists T. exact H.
Defined.

(** ** [PetriNet::tick] *)

Lemma tick_at_eq t w T :
  heap_transitions (w_heap w) !! t = Some T ->
  tick_at t w =
  (Returned (Transition_tick (w_heap w) T).1.1,
   mkWorld (Transition_tick (w_heap w) T).1.2 (w_nets w)
           (w_log w ++ (Transition_tick (w_heap w) T).2)).
Proof.
  intros HT. unfold tick_at, bind at 1, get_heap, bind at 1, get, ret.
  cbv beta iota. rewrite HT.
  destruct (Transition_tick (w_heap w) T) as [[fired h'] evs]. reflexivity.
Qed.

Lemma Transition_tick_no_predicate h T :
  Transition_evaluate_condition_ T = None ->
  Transition_tick h T = (false, h, []).
Proof. intros H. unfold Transition_tick. now rewrite H. Qed.

Lemma tick_loop ts w :
  (forall t, t ∈ ts -> is_Some (heap_transitions (w_heap w) !! t)) ->
  exists w',
    for_each (fun transition => tick_at transition >> ret tt) ts w =
      (Returned tt, w') /\
    w_nets w' = w_nets w /\
    same_frame (w_heap w) (w_heap w') /\
    ((forall t T, t ∈ ts -> heap_transitions (w_heap w) !! t = Some T ->
        Transition_evaluate_condition_ T = None) -> w' = w).
Proof.
  revert w. induction ts as [|t rest IH]; intros w Hal; simpl.
  - exists w. split; [reflexivity|]. split; [reflexivity|].
    split; [apply same_frame_refl|reflexivity].
  - destruct (Hal t) as [T HT]; [apply elem_of_cons; now left|].
    unfold bind at 1, bind at 1. rewrite (tick_at_eq _ _ _ HT).
    unfold ret. cbv beta iota.
    pose proof (Transition_tick_same_frame (w_heap w) T) as Hf.
    set (w1 := mkWorld _ _ _).
    destruct (IH w1) as (w' & Hrun & Hn & Hf' & Hid).
    { intros t' Ht'. unfold w1. cbn [w_heap]. destruct Hf as [_ ->].
      apply Hal. apply elem_of_cons. now right. }
    exists w'. split; [exact Hrun|]. split; [exact Hn|].
    split; [eapply same_frame_trans; [exact Hf|exact Hf']|].
    intros Hnone.
    assert (E1 : w1 = w).
    { unfold w1.
      rewrite (Transition_tick_no_predicate (w_heap w) T)
        by (apply (Hnone t); [apply elem_of_cons; now left|exact HT]).
      simpl. rewrite app_nil_r. now destruct w. }
    transitivity w1; [|exact E1]. apply Hid. rewrite E1.
    intros t' T' Ht'. apply Hnone. apply elem_of_cons. now right.
Qed.

(** X12: on a net whose transition pointers are valid, [tick()] always
    returns; it leaves every net as it was and changes nothing in the
    heap but token counts.  When no transition of the net has a predicate
    installed it changes nothing at all. *)
Theorem tick_only_moves_tokens (n : net) (w : World) (N : PetriNet) :
  w_nets w !! n = Some N ->
  (forall t, t ∈ transitions_ N ->
     is_Some (heap_transitions (w_heap w) !! t)) ->
  exists w',
    PetriNet_tick n w = (Returned tt, w') /\
    w_nets w' = w_nets w /\
    same_frame (w_heap w) (w_heap w') /\
    ((forall t T, t ∈ transitions_ N ->
        heap_transitions (w_heap w) !! t = Some T ->
        Transition_evaluate_condition_ T = None) -> w' = w).
Proof.
  intros HN Hal. destruct (tick_loop (transitions_ N) w Hal)
    as (w' & Hrun & Hrest).
  exists w'. split; [|exact Hrest].
  unfold PetriNet_tick, noexcept, bind at 1. rewrite get_net_eq, HN.
  cbv beta iota. now rewrite Hrun.
Qed.

Lemma tick_only_moves_tokens_witness :
  exists w',
    PetriNet_tick 0%nat (cycle_world 1 0 0 0 0) = (Returned tt, w') /\
    w_nets w' = w_nets (cycle_world 1 0 0 0 0).
Proof.
  destruct (tick_only_moves_tokens 0%nat (cycle_world 1 0 0 0 0) _ eq_refl)
    as (w' & H1 & H2 & _).
  - intros t Ht. cbn in Ht.
    repeat (apply elem_of_cons in Ht as [->|Ht]; [eexists; reflexivity|]).
    now apply elem_of_nil in Ht.
  - exists w'. auto.
Defined.

(** ** [deepTick] *)

Lemma same_frame_is_Some_place h h' a :
  same_frame h h' ->
  is_Some (heap_places h !! a) -> is_Some (heap_places h' !! a).
Proof.
  intros Hf [p Hp]. destruct (same_frame_lookup _ _ _ _ Hf Hp) as (p' & Hp' & _).
  eauto.
Qed.

Lemma same_frame_pointers_valid h h' :
  same_frame h h' -> cascade_pointers_valid h -> cascade_pointers_valid h'.
Proof.
  intros Hf [Hp Ht]. pose proof Hf as [Hpl Htr]. split.
  - intros a p' t Hp' Hin. rewrite Htr.
    assert (E : (place_frame <$> heap_places h') !! a =
                (place_frame <$> heap_places h) !! a) by now rewrite Hpl.
    rewrite !list_lookup_fmap, Hp' in E.
    destruct (heap_places h !! a) as [p|] eqn:Hpa; [|discriminate].
    simpl in E. apply (Hp a p t Hpa).
    unfold place_frame in E. injection E as _ _ _ E. now rewrite <- E.
  - intros t T pw HT Hin. rewrite Htr in HT.
    eapply same_frame_is_Some_place; [exact Hf|]. eapply Ht; eassumption.
Qed.

Lemma cascade_end_for_each {X} k (ok : X -> Heap -> Prop)
    (body : X -> M Cascade unit) :
  (forall x h h', same_frame h h' -> ok x h -> ok x h') ->
  (forall x, cascade_step k (body x)) ->
  (forall x c r c', cascade_pointers_valid (c_heap c) -> ok x (c_heap c) ->
     body x c = (r, c') -> cascade_end r) ->
  forall xs c r c',
    cascade_pointers_valid (c_heap c) ->
    (forall x, x ∈ xs -> ok x (c_heap c)) ->
    for_each body xs c = (r, c') -> cascade_end r.
Proof.
  intros Hok Hstep Hbody xs.
  induction xs as [|x xs IH]; intros c r c' Hv Hxs H; simpl in H.
  - injection H as <- <-. now left.
  - unfold bind in H. destruct (body x c) as [r1 c1] eqn:E1.
    assert (Hx : ok x (c_heap c)) by (apply Hxs; apply elem_of_cons; now left).
    pose proof (Hbody _ _ _ _ Hv Hx E1) as Hend.
    destruct (Hstep x _ _ _ E1) as (Hf & _ & _).
    destruct r1 as [[]| | | |]; try (injection H as <- <-; exact Hend).
    apply (IH c1 r c'); [eapply same_frame_pointers_valid; eassumption| |exact H].
    intros y Hy. eapply Hok; [exact Hf|]. apply Hxs. apply elem_of_cons.
    now right.
Qed.

Lemma cascade_end_Transition_deepTick k rec :
  (forall place, cascade_step k (rec place)) ->
  (forall place c r c', cascade_pointers_valid (c_heap c) ->
     is_Some (heap_places (c_heap c) !! place) ->
     rec place c = (r, c') -> cascade_end r) ->
  forall transition c r c',
    cascade_pointers_valid (c_heap c) ->
    is_Some (heap_transitions (c_heap c) !! transition) ->
    Transition_deepTick_with rec transition c = (r, c') -> cascade_end r.
Proof.
  intros Hstep Hrec transition c r c' Hv [T HT] H.
  rewrite (Transition_deepTick_with_eq _ _ _ _ HT) in H.
  pose proof (Transition_tick_same_frame (c_heap c) T) as Hf.
  destruct (Transition_tick (c_heap c) T) as [[fired h'] evs]. simpl in Hf.
  destruct fired; [|injection H as <- <-; now left].
  eapply (cascade_end_for_each k
            (fun (pw : WeightPairT) h => is_Some (heap_places h !! pw.1))
            (fun '(place, _) => rec place)); [| | | | |exact H].
  - intros x h1 h2 Hf12. now apply same_frame_is_Some_place.
  - intros [place wt]. apply Hstep.
  - intros [place wt] c1 r1 c1' Hv1 Hok1. now apply Hrec.
  - simpl. eapply same_frame_pointers_valid; eassumption.
  - intros pw Hpw. simpl. eapply same_frame_is_Some_place; [exact Hf|].
    destruct Hv as [_ Hv]. eapply Hv; eassumption.
Qed.

Lemma cascade_end_Place_deepTick fuel :
  forall place c r c',
    cascade_pointers_valid (c_heap c) ->
    is_Some (heap_places (c_heap c) !! place) ->
    Place_deepTick fuel place c = (r, c') -> cascade_end r.
Proof.
  induction fuel as [|fuel IH]; intros place c r c' Hv [p Hp] H.
  - simpl in H. injection H as <- <-. right. now right.
  - destruct (decide (Place_id_ p ∈ c_seen c)) as [Hin|Hout].
    + rewrite (Place_deepTick_on_path fuel place c p Hp Hin) in H.
      injection H as <- <-. right. now left.
    + rewrite (Place_deepTick_off_path fuel place c p Hp Hout) in H.
      destruct (for_each (Transition_deepTick fuel) (Place_ingoing_to_ p) _)
        as [r2 c2] eqn:E2.
      assert (Hend : cascade_end r2).
      { eapply (cascade_end_for_each fuel
                  (fun t h => is_Some (heap_transitions h !! t))
                  (Transition_deepTick fuel)); [| | | | |exact E2].
        - intros x h1 h2 [_ Hf12]. now rewrite Hf12.
        - intros t. apply cascade_step_Transition_deepTick.
          intros pl. apply cascade_step_Place_deepTick.
        - intros t c1 r1 c1' Hv1 Hok1.
          apply (cascade_end_Transition_deepTick fuel (Place_deepTick fuel));
            [|exact IH|exact Hv1|exact Hok1].
          intros pl. apply cascade_step_Place_deepTick.
        - exact Hv.
        - intros t Ht. simpl. destruct Hv as [Hv _]. eapply Hv; eassumption. }
      destruct r2 as [[]| | | |]; injection H as <- <-;
        [now left|exact Hend..].
Qed.

Lemma Place_deepTick_fresh_ends place w r w' :
  cascade_pointers_valid (w_heap w) ->
  is_Some (heap_places (w_heap w) !! place) ->
  Place_deepTick_fresh place w = (r, w') ->
  w_nets w' = w_nets w /\ same_frame (w_heap w) (w_heap w') /\
  (r = Returned tt \/ r = Thrown cycle_detected).
Proof.
  intros Hv Hp. rewrite Place_deepTick_fresh_eq.
  destruct (Place_deepTick (cascade_fuel (w_heap w)) place
              (mkCascade (w_heap w) ∅ [])) as [r1 c1] eqn:E.
  intros [= <- <-]. cbn [w_nets w_heap].
  destruct (cascade_step_Place_deepTick _ _ _ _ _ E) as (Hf & _ & Hfuel).
  split; [reflexivity|]. split; [exact Hf|].
  destruct (cascade_end_Place_deepTick _ place (mkCascade (w_heap w) ∅ [])
              r1 c1 Hv Hp E) as [H|[H|H]];
    [now left|now right|].
  exfalso. apply Hfuel; [apply cascade_fuel_enough|exact H].
Qed.

(** X13: on a net whose pointers are valid, [deepTick(id)] ends in one of
    three ways.  With an id that no place of the net has it throws
    [invalid_argument] and changes nothing; otherwise it returns or
    throws the cycle error.  In every case the nets are as before and
    nothing in the heap but token counts has changed. *)
Theorem deepTick_outcomes (n : net) (id : string) (w : World)
    (N : PetriNet) :
  w_nets w !! n = Some N ->
  net_allocated (w_heap w) N ->
  cascade_pointers_valid (w_heap w) ->
  exists r w',
    PetriNet_deepTick n id w = (r, w') /\
    w_nets w' = w_nets w /\
    same_frame (w_heap w) (w_heap w') /\
    match findPlaceAcquired (w_heap w) N id with
    | None => r = Thrown start_place_missing /\ w' = w
    | Some _ => r = Returned tt \/ r = Thrown cycle_detected
    end.
Proof.
  intros HN Hal Hv. rewrite PetriNet_deepTick_eq, HN.
  unfold findPlaceAcquired.
  destruct (find_place (w_heap w) (places_ N) id) as [place|] eqn:E.
  - destruct (Place_deepTick_fresh place w) as [r w'] eqn:Er.
    exists r, w'. split; [reflexivity|].
    apply find_place_Some in E as [Hin _].
    destruct (Place_deepTick_fresh_ends place w r w' Hv) as (H1 & H2 & H3);
      [apply lookup_lt_is_Some_2; now apply Hal|exact Er|auto].
  - eexists _, _. split; [reflexivity|]. split; [reflexivity|].
    split; [apply same_frame_refl|]. now split.
Qed.

Lemma cycle_world_allocated a b c d e :
  net_allocated (cycle_heap a b c d e)
    (mkNet [Some 0; Some 1; Some 2; Some 3; Some 4]%nat [0; 1; 2; 3]%nat).
Proof.
  intros x Hx. cbn in *.
  repeat (apply elem_of_cons in Hx as [Hx|Hx]; [injection Hx as ->; lia|]).
  now apply elem_of_nil in Hx.
Qed.

Lemma cycle_world_pointers_valid a b c d e :
  cascade_pointers_valid (cycle_heap a b c d e).
Proof.
  split.
  - intros x p t Hp Ht.
    do 5 (destruct x as [|x]; [injection Hp as <-; cbn in Ht;
      repeat (apply elem_of_cons in Ht as [->|Ht]; [eexists; reflexivity|]);
      now apply elem_of_nil in Ht|]).
    discriminate.
  - intros t T pw HT Hpw.
    do 4 (destruct t as [|t]; [injection HT as <-; cbn in Hpw;
      repeat (apply elem_of_cons in Hpw as [->|Hpw]; [eexists; reflexivity|]);
      now apply elem_of_nil in Hpw|]).
    discriminate.
Qed.

Lemma deepTick_outcomes_witness :
  exists r w',
    PetriNet_deepTick 0%nat "Z" (cycle_world 1 0 0 0 0) = (r, w') /\
    w_nets w' = w_nets (cycle_world 1 0 0 0 0).
Proof.
  destruct (deepTick_outcomes 0%nat "Z" (cycle_world 1 0 0 0 0) _ eq_refl
              (cycle_world_allocated 1 0 0 0 0)
              (cycle_world_pointers_valid 1 0 0 0 0))
    as (r & w' & H1 & H2 & _).
  exists r, w'. auto.
Defined.

Lemma same_frame_length h h' :
  same_frame h h' -> length (heap_places h') = length (heap_places h).
Proof.
  intros [Hf _]. apply (f_equal length) in Hf. now rewrite !length_fmap in Hf.
Qed.

Lemma same_frame_net_allocated h h' N :
  same_frame h h' -> net_allocated h N -> net_allocated h' N.
Proof.
  intros Hf Hal a Ha. rewrite (same_frame_length _ _ Hf). now apply Hal.
Qed.

Lemma deepTickCover_loop n N ps w0 w :
  w_nets w !! n = Some N ->
  (forall o, o ∈ ps -> o ∈ places_ N) ->
  None ∉ ps ->
  net_allocated (w_heap w) N ->
  cascade_pointers_valid (w_heap w) ->
  w_nets w = w_nets w0 ->
  same_frame (w_heap w0) (w_heap w) ->
  exists r w',
    for_each (deepTickCover_body n) ps w = (r, w') /\
    w_nets w' = w_nets w0 /\
    same_frame (w_heap w0) (w_heap w') /\
    (r = Returned tt \/
     (r = Thrown cycle_detected /\
      exists p w1,
        Some p ∈ ps /\
        w_nets w1 = w_nets w0 /\
        same_frame (w_heap w0) (w_heap w1) /\
        PetriNet_deepTick n (Place_getID (w_heap w1) p) w1 =
          (Thrown cycle_detected, w'))).
Proof.
  revert w. induction ps as [|o ps IH]; intros w HN Hsub Hnn Hal Hv Hn0 Hf0.
  - exists (Returned tt), w. split; [reflexivity|]. split; [exact Hn0|].
    split; [exact Hf0|now left].
  - apply not_elem_of_cons in Hnn as [Ho Hnn].
    destruct o as [p|]; [|congruence].
    assert (Hp : Some p ∈ places_ N) by (apply Hsub; apply elem_of_cons; now left).
    simpl. unfold bind at 1, bind at 1, get_heap, bind at 1, get, ret.
    cbv beta iota.
    destruct (PetriNet_deepTick n (Place_getID (w_heap w) p) w) as [r1 w1] eqn:Ed.
    pose proof Ed as Ed'. rewrite PetriNet_deepTick_eq, HN in Ed'.
    unfold findPlaceAcquired in Ed'.
    destruct (find_place (w_heap w) (places_ N) (Place_getID (w_heap w) p))
      as [place|] eqn:E.
    2:{ rewrite find_place_None in E. now destruct (E p Hp). }
    apply find_place_Some in E as [Hin _].
    destruct (Place_deepTick_fresh_ends place w r1 w1 Hv) as (Hn1 & Hf1 & Hr1);
      [apply lookup_lt_is_Some_2; now apply Hal|exact Ed'|].
    destruct Hr1 as [->| ->].
    + destruct (IH w1) as (r & w' & Hrun & Hn & Hf & Hr).
      * now rewrite Hn1.
      * intros o Ho'. apply Hsub. apply elem_of_cons. now right.
      * exact Hnn.
      * eapply same_frame_net_allocated; eassumption.
      * eapply same_frame_pointers_valid; eassumption.
      * congruence.
      * eapply same_frame_trans; eassumption.
      * exists r, w'. split; [exact Hrun|]. split; [exact Hn|].
        split; [exact Hf|].
        destruct Hr as [->|(-> & q & w2 & Hq & Hq')]; [now left|].
        right. split; [reflexivity|]. exists q, w2.
        split; [apply elem_of_cons; now right|exact Hq'].
    + exists (Thrown cycle_detected), w1. split; [reflexivity|].
      split; [congruence|].
      split; [eapply same_frame_trans; eassumption|].
      right. split; [reflexivity|]. exists p, w.
      split; [apply elem_of_cons; now left|]. auto.
Qed.

(** X14: on a net with no null place pointer and valid pointers, every
    [deepTick(id)] that [deepTickCover()] calls finds its start place, so
    the loop never fails with the error of an unknown id.  Either every
    call returns, and then [deepTickCover()] returns; or the call for one
    of the places of the net throws the cycle error, and then
    [deepTickCover()], being [noexcept], ends in [std::terminate] in the
    state that call left.  The nets are as before and nothing in the heap
    but token counts has changed. *)
Theorem deepTickCover_outcomes (n : net) (w : World) (N : PetriNet) :
  w_nets w !! n = Some N ->
  None ∉ places_ N ->
  net_allocated (w_heap w) N ->
  cascade_pointers_valid (w_heap w) ->
  exists r0 w',
    for_each (deepTickCover_body n) (places_ N) w = (r0, w') /\
    w_nets w' = w_nets w /\
    same_frame (w_heap w) (w_heap w') /\
    ((r0 = Returned tt /\
      PetriNet_deepTickCover n w = (Returned tt, w')) \/
     (r0 = Thrown cycle_detected /\
      PetriNet_deepTickCover n w = (Terminated, w') /\
      exists p w1,
        Some p ∈ places_ N /\
        w_nets w1 = w_nets w /\
        same_frame (w_heap w) (w_heap w1) /\
        PetriNet_deepTick n (Place_getID (w_heap w1) p) w1 =
          (Thrown cycle_detected, w'))).
Proof.
  intros HN Hnn Hal Hv.
  destruct (deepTickCover_loop n N (places_ N) w w HN (fun o H => H) Hnn Hal
              Hv eq_refl (same_frame_refl _))
    as (r & w' & Hrun & Hn & Hf & Hr).
  exists r, w'. split; [exact Hrun|]. split; [exact Hn|]. split; [exact Hf|].
  rewrite PetriNet_deepTickCover_eq, HN. unfold noexcept. rewrite Hrun.
  destruct Hr as [->|(-> & Hcyc)]; [now left|right; auto].
Qed.

Lemma deepTickCover_outcomes_witness :
  exists w',
    PetriNet_deepTickCover 0%nat (cycle_world 1 0 0 0 0) = (Terminated, w') /\
    exists p w1,
      PetriNet_deepTick 0%nat (Place_getID (w_heap w1) p) w1 =
        (Thrown cycle_detected, w').
Proof.
  destruct (deepTickCover_outcomes 0%nat (cycle_world 1 0 0 0 0) _ eq_refl)
    as (r0 & w' & H1 & _ & _ & H4).
  - cbn. intros H.
    repeat (apply elem_of_cons in H as [H|H]; [discriminate|]).
    now apply elem_of_nil in H.
  - apply cycle_world_allocated.
  - apply cycle_world_pointers_valid.
  - destruct H4 as [[-> _]|(_ & H5 & p & w1 & _ & _ & _ & H6)].
    + vm_compute in H1. discriminate.
    + exists w'. split; [exact H5|]. now exists p, w1.
Defined.

(** X15: no cascade nests deeper than the heap has places, so the bound
    the model puts on the recursion is never reached: [deepTick] and
    [deepTickCover] end on every world. *)
Theorem cascades_terminate (n : net) (id : string) (place : addr)
    (w : World) :
  (Place_deepTick_fresh place w).1 <> OutOfFuel /\
  (PetriNet_deepTick n id w).1 <> OutOfFuel /\
  (PetriNet_deepTickCover n w).1 <> OutOfFuel.
Proof.
  split; [apply Place_deepTick_fresh_total|].
  split; [apply PetriNet_deepTick_total|apply PetriNet_deepTickCover_total].
Qed.

(** ** [Transition::deepFire] *)

Lemma fire_at_eq t w T :
  heap_transitions (w_heap w) !! t = Some T ->
  fire_at t w =
  (Returned (Transition_fire (w_heap w) T).1.1,
   mkWorld (Transition_fire (w_heap w) T).1.2 (w_nets w)
           (w_log w ++ (Transition_fire (w_heap w) T).2)).
Proof.
  intros HT. unfold fire_at, bind at 1, get_heap, bind at 1, get, ret.
  cbv beta iota. rewrite HT.
  destruct (Transition_fire (w_heap w) T) as [[rdy h'] evs]. reflexivity.
Qed.

Lemma run_cascade_outputs_ends (pairs : list WeightPairT) w r w' :
  cascade_pointers_valid (w_heap w) ->
  (forall pw, pw ∈ pairs -> is_Some (heap_places (w_heap w) !! pw.1)) ->
  run_cascade
    (for_each (fun '(place, _) =>
                 Place_deepTick (cascade_fuel (w_heap w)) place) pairs) w =
    (r, w') ->
  w_nets w' = w_nets w /\ same_frame (w_heap w) (w_heap w') /\
  (r = Returned tt \/ r = Thrown cycle_detected).
Proof.
  intros Hv Hal. unfold run_cascade.
  set (fuel := cascade_fuel (w_heap w)).
  destruct (for_each (fun '(place, _) => Place_deepTick fuel place) pairs
              (mkCascade (w_heap w) ∅ [])) as [r1 c1] eqn:E.
  intros [= <- <-]. cbn [w_nets w_heap].
  assert (Hstep : cascade_step fuel
            (for_each (fun '(place, _) => Place_deepTick fuel place) pairs)).
  { apply cascade_step_for_each. intros [place wt].
    apply cascade_step_Place_deepTick. }
  destruct (Hstep _ _ _ E) as (Hf & _ & Hfuel).
  split; [reflexivity|]. split; [exact Hf|].
  assert (Hend : cascade_end r1).
  { eapply (cascade_end_for_each fuel
              (fun (pw : WeightPairT) h => is_Some (heap_places h !! pw.1))
              (fun '(place, _) => Place_deepTick fuel place));
      [| | | | |exact E].
    - intros x h1 h2 Hf12. now apply same_frame_is_Some_place.
    - intros [place wt]. apply cascade_step_Place_deepTick.
    - intros [place wt] c r2 c2 Hv2 Hok2.
      now apply cascade_end_Place_deepTick.
    - exact Hv.
    - exact Hal. }
  destruct Hend as [H|[H|H]]; [now left|now right|].
  exfalso. apply Hfuel; [apply cascade_fuel_enough|exact H].
Qed.

(** X16: [deepFire()] does not look at the predicate.  On a transition
    that is not ready it returns false and changes nothing.  On a ready
    one it fires and cascades: the listeners of [fire()] are called, and
    from the heap [fire()] leaves [deepTick(seen)] runs on the place of
    every output pair in turn, with one set [seen] that starts empty.
    When all of them return, [deepFire()] returns true; when one throws
    the cycle error, [deepFire()] throws it, with the tokens moved so far.
    The nets are as before and nothing in the heap but token counts has
    changed. *)
Theorem deepFire_outcomes (t : addr) (w : World) (T : Transition) :
  heap_transitions (w_heap w) !! t = Some T ->
  cascade_pointers_valid (w_heap w) ->
  exists r w',
    Transition_deepFire t w = (r, w') /\
    w_nets w' = w_nets w /\
    same_frame (w_heap w) (w_heap w') /\
    if Transition_ready (w_heap w) T
    then
      let fired := (Transition_fire (w_heap w) T).1.2 in
      let evs := (Transition_fire (w_heap w) T).2 in
      exists r0 c,
        for_each (fun '(place, _) => Place_deepTick (cascade_fuel fired) place)
                 (Transition_outgoing_ T) (mkCascade fired ∅ []) = (r0, c) /\
        w' = mkWorld (c_heap c) (w_nets w) (w_log w ++ evs ++ c_log c) /\
        ((r0 = Returned tt /\ r = Returned true) \/
         (r0 = Thrown cycle_detected /\ r = Thrown cycle_detected))
    else r = Returned false /\ w' = w.
Proof.
  intros HT Hv. unfold Transition_deepFire, bind at 1, get_heap, bind at 1,
    get, ret. cbv beta iota. rewrite HT.
  unfold bind at 1. rewrite (fire_at_eq _ _ _ HT).
  unfold Transition_ready. rewrite <- fire_returns_ready.
  pose proof (Transition_fire_same_frame (w_heap w) T) as Hf.
  destruct (Transition_fire (w_heap w) T) as [[rdy h'] evs] eqn:Ef.
  cbn [fst snd] in *.
  destruct rdy.
  - unfold bind at 1, get_heap, bind at 1, get, ret. cbv beta iota.
    cbn [w_heap]. unfold bind at 1.
    set (w1 := mkWorld h' (w_nets w) (w_log w ++ evs)).
    destruct (for_each (fun '(place, _) =>
                          Place_deepTick (cascade_fuel h') place)
                       (Transition_outgoing_ T) (mkCascade h' ∅ []))
      as [r0 c] eqn:E0.
    assert (E1 : run_cascade
                   (for_each (fun '(place, _) =>
                                Place_deepTick (cascade_fuel (w_heap w1)) place)
                             (Transition_outgoing_ T)) w1 =
                 (r0, mkWorld (c_heap c) (w_nets w)
                              (w_log w ++ evs ++ c_log c))).
    { unfold run_cascade. cbn [w1 w_heap w_nets w_log]. rewrite E0.
      now rewrite <- app_assoc. }
    assert (Hv1 : cascade_pointers_valid (w_heap w1))
      by (eapply same_frame_pointers_valid; eassumption).
    assert (Hal1 : forall pw, pw ∈ Transition_outgoing_ T ->
              is_Some (heap_places (w_heap w1) !! pw.1)).
    { intros pw Hpw. cbn [w1 w_heap].
      eapply same_frame_is_Some_place; [exact Hf|].
      destruct Hv as [_ Hv]. eapply Hv; eassumption. }
    destruct (run_cascade_outputs_ends _ _ _ _ Hv1 Hal1 E1)
      as (Hn & Hf2 & Hr).
    + cbn [w1 w_heap] in E1. rewrite E1. cbn [w_heap] in Hf2.
      assert (Hf3 : same_frame (w_heap w) (c_heap c))
        by (eapply same_frame_trans; eassumption).
      destruct Hr as [->| ->].
      * exists (Returned true), (mkWorld (c_heap c) (w_nets w)
                                     (w_log w ++ evs ++ c_log c)).
        split; [reflexivity|]. split; [reflexivity|]. split; [exact Hf3|].
        exists (Returned tt), c. split; [reflexivity|].
        split; [reflexivity|]. now left.
      * exists (Thrown cycle_detected),
          (mkWorld (c_heap c) (w_nets w) (w_log w ++ evs ++ c_log c)).
        split; [reflexivity|]. split; [reflexivity|]. split; [exact Hf3|].
        exists (Thrown cycle_detected), c. split; [reflexivity|].
        split; [reflexivity|]. now right.
  - exists (Returned false), (mkWorld h' (w_nets w) (w_log w ++ evs)).
    split; [reflexivity|]. split; [reflexivity|]. split; [exact Hf|].
    split; [reflexivity|].
    assert (Hnr : (Transition_fire (w_heap w) T).1.1 = false)
      by now rewrite Ef.
    rewrite fire_returns_ready in Hnr.
    rewrite (Transition_fire_not_ready _ _ Hnr) in Ef.
    injection Ef as <- <-. rewrite app_nil_r. now destruct w.
Qed.

Lemma deepFire_outcomes_witness :
  exists w',
    Transition_deepFire 0%nat (cycle_world 1 0 0 0 0) =
      (Thrown cycle_detected, w') /\
    marking (w_heap w') =
      [("A", 0); ("B", 1); ("C", 0); ("D", 0); ("E", 1)].
Proof.
  destruct (deepFire_outcomes 0%nat (cycle_world 1 0 0 0 0) _ eq_refl
              (cycle_world_pointers_valid 1 0 0 0 0))
    as (r & w' & H1 & _ & _ & H4).
  change (Transition_ready _ _) with true in H4. cbv iota zeta in H4.
  destruct H4 as (r0 & c & H5 & -> & H6).
  vm_compute in H5. injection H5 as <- <-.
  destruct H6 as [[[=] _]|[_ ->]].
  eexists. split; [exact H1|reflexivity].
Defined.

(** ** [merge]: validation *)

Lemma for_each_ext {S X} (body body' : X -> M S unit) xs s :
  (forall x s1, x ∈ xs -> body x s1 = body' x s1) ->
  for_each body xs s = for_each body' xs s.
Proof.
  revert s. induction xs as [|x xs IH]; intros s H; simpl; [reflexivity|].
  unfold bind. rewrite (H x s) by (apply elem_of_cons; now left).
  destruct (body' x s) as [[[]| | | |] s1]; try reflexivity.
  apply IH. intros y s2 Hy. apply H. apply elem_of_cons. now right.
Qed.

Lemma for_each_check {S X} (test : X -> bool) (e : exn) xs (s : S) :
  for_each (fun x => if test x then throw e else ret tt) xs s =
  if existsb test xs then (Thrown e, s) else (Returned tt, s).
Proof.
  induction xs as [|x xs IH]; simpl; [reflexivity|].
  unfold bind. destruct (test x); simpl; [reflexivity|exact IH].
Qed.

Lemma existsb_elem_of {X} (test : X -> bool) xs :
  existsb test xs = true <-> exists x, x ∈ xs /\ test x = true.
Proof.
  rewrite existsb_exists. split; intros (x & Hx & Ht); exists x;
    (split; [now apply list_elem_of_In|exact Ht]).
Qed.

Lemma exists_place_id_eq h ps p w :
  None ∉ ps ->
  exists_place_id h ps (Some p) w =
  (Returned (bool_decide (is_Some (find_place h ps (Place_getID h p)))), w).
Proof.
  induction ps as [|[q|] ps IH]; simpl; intros Hnn.
  - reflexivity.
  - apply not_elem_of_cons in Hnn as [_ Hnn].
    destruct (decide (Place_getID h q = Place_getID h p)).
    + reflexivity.
    + now apply IH.
  - exfalso. apply Hnn. apply elem_of_cons. now left.
Qed.

Lemma merge_check_places h This ps w :
  None ∉ places_ This -> None ∉ ps ->
  for_each (fun place : option nat =>
              dup <- exists_place_id h (places_ This) place ;;
              if dup : bool then throw duplicate_place_ids else ret tt) ps w =
  if existsb (place_id_taken h This) ps
  then (Thrown duplicate_place_ids, w) else (Returned tt, w).
Proof.
  intros HT Hps. rewrite <- for_each_check. apply for_each_ext.
  intros [p|] s1 Hx; [|contradiction].
  unfold bind. rewrite exists_place_id_eq by assumption. reflexivity.
Qed.

Ltac merge_checks Hne HT HO HnT HnO :=
  unfold PetriNet_merge; rewrite decide_False by exact Hne;
  unfold bind at 1, ret at 1; cbv beta iota;
  unfold bind at 1; rewrite get_net_eq, HO;
  unfold bind at 1; rewrite get_net_eq, HT;
  unfold bind at 1, get_heap, bind at 1, get, ret at 1; cbv beta iota;
  unfold bind at 1;
  fold duplicate_place_ids duplicate_transaction_ids duplicate_transition_ids;
  rewrite (merge_check_places _ _ _ _ HnT HnO).

Section MergeValidation.
Variables this other : net.
Variable interconnections : list TransitionSketch.
Variable w : World.
Variables This Other : PetriNet.
Hypothesis Hne : this <> other.
Hypothesis HT : w_nets w !! this = Some This.
Hypothesis HO : w_nets w !! other = Some Other.
Hypothesis HnT : None ∉ places_ This.
Hypothesis HnO : None ∉ places_ Other.

Lemma merge_place_check_fails :
  existsb (place_id_taken (w_heap w) This) (places_ Other) = true ->
  PetriNet_merge this other interconnections w =
  (Thrown duplicate_place_ids, w).
Proof. intros H. merge_checks Hne HT HO HnT HnO. now rewrite H. Qed.

Lemma merge_transition_check_fails :
  existsb (place_id_taken (w_heap w) This) (places_ Other) = false ->
  existsb (fun t => transition_id_taken (w_heap w) This
                      (Transition_getID (w_heap w) t))
          (transitions_ Other) = true ->
  PetriNet_merge this other interconnections w =
  (Thrown duplicate_transaction_ids, w).
Proof.
  unfold transition_id_taken. intros H1 H2. merge_checks Hne HT HO HnT HnO. rewrite H1.
  unfold bind at 1.
  rewrite (for_each_check
             (fun t => exists_transition_id (w_heap w) (transitions_ This)
                         (Transition_getID (w_heap w) t))
             duplicate_transaction_ids (transitions_ Other) w).
  now rewrite H2.
Qed.

Lemma merge_interconnection_check_fails :
  existsb (place_id_taken (w_heap w) This) (places_ Other) = false ->
  existsb (fun t => transition_id_taken (w_heap w) This
                      (Transition_getID (w_heap w) t))
          (transitions_ Other) = false ->
  existsb (fun sk => transition_id_taken (w_heap w) This (sketch_id sk))
          interconnections = true ->
  PetriNet_merge this other interconnections w =
  (Thrown duplicate_transition_ids, w).
Proof.
  unfold transition_id_taken. intros H1 H2 H3. merge_checks Hne HT HO HnT HnO. rewrite H1.
  unfold bind at 1.
  rewrite (for_each_check
             (fun t => exists_transition_id (w_heap w) (transitions_ This)
                         (Transition_getID (w_heap w) t))
             duplicate_transaction_ids (transitions_ Other) w).
  rewrite H2. unfold bind at 1.
  rewrite (for_each_check
             (fun sk => exists_transition_id (w_heap w) (transitions_ This)
                          (sketch_id sk))
             duplicate_transition_ids interconnections w).
  now rewrite H3.
Qed.

End MergeValidation.

Lemma place_id_taken_true h This ps :
  (exists p q, Some p ∈ ps /\ Some q ∈ places_ This /\
     Place_getID h p = Place_getID h q) ->
  existsb (place_id_taken h This) ps = true.
Proof.
  intros (p & q & Hp & Hq & Hid). apply existsb_elem_of.
  exists (Some p). split; [exact Hp|]. simpl. apply bool_decide_eq_true.
  destruct (find_place h (places_ This) (Place_getID h p)) eqn:E; [eauto|].
  rewrite find_place_None in E. now destruct (E q Hq).
Qed.

Lemma transition_id_taken_true h This id :
  (exists t, t ∈ transitions_ This /\ Transition_getID h t = id) ->
  transition_id_taken h This id = true.
Proof.
  intros (t & Ht & Hid). unfold transition_id_taken, exists_transition_id.
  apply bool_decide_eq_true.
  destruct (find_transition h (transitions_ This) id) eqn:E; [eauto|].
  rewrite find_transition_None in E. now destruct (E t Ht).
Qed.

(** X17: [merge] checks for collisions before it changes anything.  When
    a place of the other net has the id of a place of this net, or a
    transition of the other net or an interconnection sketch has the id
    of a transition of this net, [merge] throws [invalid_argument] and
    both nets, the heap and the log are as they were; a shared place id
    is reported first. *)
Theorem merge_collision_keeps_world (this other : net)
    (interconnections : list TransitionSketch) (w : World)
    (This Other : PetriNet) :
  this <> other ->
  w_nets w !! this = Some This -> w_nets w !! other = Some Other ->
  None ∉ places_ This -> None ∉ places_ Other ->
  let h := w_heap w in
  ((exists p q, Some p ∈ places_ Other /\ Some q ∈ places_ This /\
      Place_getID h p = Place_getID h q) ->
   PetriNet_merge this other interconnections w =
     (Thrown duplicate_place_ids, w)) /\
  ((exists t t', t ∈ transitions_ Other /\ t' ∈ transitions_ This /\
      Transition_getID h t' = Transition_getID h t) \/
   (exists sk t', sk ∈ interconnections /\ t' ∈ transitions_ This /\
      Transition_getID h t' = sketch_id sk) ->
   exists e,
     e ∈ [duplicate_place_ids; duplicate_transaction_ids;
          duplicate_transition_ids] /\
     PetriNet_merge this other interconnections w = (Thrown e, w)).
Proof.
  intros Hne HT HO HnT HnO h. split.
  - intros H. apply (merge_place_check_fails _ _ _ _ This Other); auto.
    now apply place_id_taken_true.
  - intros H.
    destruct (existsb (place_id_taken h This) (places_ Other)) eqn:E1.
    { exists duplicate_place_ids. split; [apply elem_of_cons; now left|].
      now apply (merge_place_check_fails _ _ _ _ This Other). }
    destruct (existsb (fun t => transition_id_taken h This
                                  (Transition_getID h t))
                      (transitions_ Other)) eqn:E2.
    { exists duplicate_transaction_ids.
      split; [apply elem_of_cons; right; apply elem_of_cons; now left|].
      now apply (merge_transition_check_fails _ _ _ _ This Other). }
    exists duplicate_transition_ids.
    split; [do 2 (apply elem_of_cons; right); apply elem_of_cons; now left|].
    apply (merge_interconnection_check_fails _ _ _ _ This Other); auto.
    destruct H as [(t & t' & Ht & Ht' & Hid)|(sk & t' & Hsk & Ht' & Hid)].
    + exfalso. assert (Et : existsb (fun t => transition_id_taken h This
                              (Transition_getID h t)) (transitions_ Other) = true).
      { apply existsb_elem_of. exists t. split; [exact Ht|].
        apply transition_id_taken_true. now exists t'. }
      congruence.
    + apply existsb_elem_of. exists sk. split; [exact Hsk|].
      apply transition_id_taken_true. now exists t'.
Qed.

Lemma merge_collision_keeps_world_witness :
  let w := (run two_nets_same_place).2 in
  PetriNet_merge 0%nat 1%nat [] w = (Thrown duplicate_place_ids, w).
Proof.
  apply (merge_collision_keeps_world 0%nat 1%nat [] (run two_nets_same_place).2
           (mkNet [Some 0%nat] []) (mkNet [Some 1%nat] [])).
  - discriminate.
  - reflexivity.
  - reflexivity.
  - intros H. apply list_elem_of_singleton in H. discriminate.
  - intros H. apply list_elem_of_singleton in H. discriminate.
  - exists 1%nat, 0%nat.
    split; [now apply list_elem_of_singleton|].
    split; [now apply list_elem_of_singleton|reflexivity].
Defined.

(** ** [merge]: what a successful merge leaves *)

Lemma returns_addTransitionAcquired_nets n sketch w :
  returns (addTransitionAcquired n sketch) w
    (fun _ w' => forall m, m <> n -> w_nets w' !! m = w_nets w !! m).
Proof.
  intros ptr w' E m Hm.
  destruct (w_nets w !! n) as [N|] eqn:HN.
  - rewrite (addTransitionAcquired_eq n sketch w N HN) in E.
    destruct (findTransitionAcquired _ _ _); [discriminate|].
    destruct (resolved _ _ (sketch_ingoing sketch)); [|discriminate].
    destruct (resolved _ _ (sketch_outgoing sketch)); [|discriminate].
    inversion E; subst. cbn [w_nets].
    now rewrite list_lookup_insert_ne by congruence.
  - unfold addTransitionAcquired, bind at 1 in E.
    rewrite get_net_eq, HN in E. discriminate.
Qed.

Lemma Place_getID_cores h h' a :
  place_core <$> heap_places h' = place_core <$> heap_places h ->
  Place_getID h' a = Place_getID h a.
Proof. destruct h, h'. apply cores_Place_getID. Qed.

Lemma sketched_sketch_of h t s w :
  sketched h t s <-> sketch_of h t w = (Returned s, w).
Proof.
  unfold sketched, sketch_of. split.
  - intros (T & -> & ->). reflexivity.
  - destruct (heap_transitions h !! t) as [T|]; [|discriminate].
    intros [= <-]. now exists T.
Qed.

Lemma sketched_id h t s :
  sketched h t s -> Transition_getID h t = sketch_id s.1.
Proof. intros (T & HT & ->). unfold Transition_getID. now rewrite HT. Qed.

Lemma sketched_ext h h' t s :
  (forall a, Place_getID h' a = Place_getID h a) ->
  heap_transitions h' !! t = heap_transitions h !! t ->
  sketched h t s -> sketched h' t s.
Proof.
  intros Hid Ht (T & HT & ->). exists T. split; [congruence|].
  now rewrite !(to_sketch_weight_pair_ext h h') by exact Hid.
Qed.

Lemma find_transition_grow h h' ts l id t :
  (forall a, a ∈ ts -> Transition_getID h' a = Transition_getID h a) ->
  find_transition h ts id = Some t ->
  find_transition h' (ts ++ l) id = Some t.
Proof.
  induction ts as [|a rest IH]; simpl; intros Hsame; [discriminate|].
  rewrite (Hsame a) by (apply elem_of_cons; now left).
  destruct (decide (Transition_getID h a = id)); [tauto|].
  apply IH. intros b Hb. apply Hsame, elem_of_cons. now right.
Qed.

Lemma Transition_getID_app pl pl' tr more t :
  (t < length tr)%nat ->
  Transition_getID (mkHeap pl' (tr ++ more)) t =
  Transition_getID (mkHeap pl tr) t.
Proof.
  intros Ht. unfold Transition_getID. simpl. now rewrite lookup_app_l.
Qed.

Lemma sketches_of_Returned h ts acc w l w' :
  sketches_of h ts acc w = (Returned l, w') ->
  w' = w /\ exists l', l = acc ++ l' /\ Forall2 (sketched h) ts l'.
Proof.
  revert acc. induction ts as [|t rest IH]; intros acc; simpl.
  - intros [= <- <-]. split; [reflexivity|]. exists [].
    split; [now rewrite app_nil_r|constructor].
  - unfold bind at 1.
    destruct (sketch_of h t w) as [[s| | | |] w1] eqn:E; try discriminate.
    assert (w1 = w) as ->.
    { unfold sketch_of in E. destruct (heap_transitions h !! t);
        inversion E; reflexivity. }
    apply (sketched_sketch_of h t s w) in E.
    intros H. destruct (IH _ H) as (-> & l' & -> & Hl').
    split; [reflexivity|]. exists (s :: l').
    split; [now rewrite <- app_assoc|]. now constructor.
Qed.

Lemma rebuilding_step this ps ts0 h0 done s N sk ingoing outgoing cond :
  rebuilding this ps ts0 h0 done s ->
  w_nets s !! this = Some N ->
  find_transition (w_heap s) (transitions_ N) (sketch_id sk) = None ->
  resolved (w_heap s) N (sketch_ingoing sk) = Some ingoing ->
  resolved (w_heap s) N (sketch_outgoing sk) = Some outgoing ->
  let ptr := length (heap_transitions (w_heap s)) in
  rebuilding this ps ts0 h0 (done ++ [(sk, cond)])
    (mkWorld
       (mkHeap
          (wired push_outgoing_to ptr outgoing
             (wired push_ingoing_to ptr ingoing (heap_places (w_heap s))))
          (heap_transitions (w_heap s) ++
           [mkTransition (sketch_id sk) ingoing outgoing cond]))
       (<[this := mkNet (places_ N) (transitions_ N ++ [ptr])]> (w_nets s))
       (w_log s)).
Proof.
  intros (extra & more & Hn & Hlen & Hc & Htr & Hal & Hdone) HN Hfresh Ei Eo ptr.
  assert (N = mkNet ps (ts0 ++ extra)) as -> by congruence.
  cbn [places_ transitions_] in *.
  set (T := mkTransition (sketch_id sk) ingoing outgoing cond).
  set (pl' := wired _ _ _ _).
  set (h' := mkHeap pl' (heap_transitions (w_heap s) ++ [T])).
  assert (Hcores : place_core <$> pl' = place_core <$> heap_places (w_heap s))
    by apply wired_both_cores.
  assert (Hid : forall a, Place_getID h' a = Place_getID (w_heap s) a).
  { intros a. now apply Place_getID_cores. }
  assert (Hold : forall a, a ∈ ts0 ++ extra ->
            Transition_getID h' a = Transition_getID (w_heap s) a).
  { intros a Ha. unfold h'. destruct (w_heap s) as [pl tr] eqn:Eh.
    apply Transition_getID_app. cbn [heap_transitions] in Hal.
    now apply Hal. }
  exists (extra ++ [ptr]), (more ++ [T]). cbn [w_nets w_heap w_log].
  split; [|split; [|split; [|split; [|split]]]].
  - rewrite app_assoc. apply list_lookup_insert_eq.
    eapply lookup_lt_Some; eassumption.
  - rewrite !length_app. simpl. lia.
  - cbn [heap_places h']. now rewrite Hcores.
  - cbn [heap_transitions h']. now rewrite Htr, app_assoc.
  - intros t Ht. cbn [heap_transitions h']. rewrite length_app. simpl.
    rewrite app_assoc in Ht. apply elem_of_app in Ht as [Ht|Ht].
    + specialize (Hal t Ht). lia.
    + apply list_elem_of_singleton in Ht. subst t. unfold ptr. lia.
  - intros sc Hsc. rewrite app_assoc.
    apply elem_of_app in Hsc as [Hsc|Hsc].
    + destruct (Hdone sc Hsc) as (t & Hf & Hs). exists t. split.
      * eapply find_transition_grow; eassumption.
      * apply (sketched_ext (w_heap s)); [exact Hid| |exact Hs].
        cbn [heap_transitions h']. apply lookup_app_l.
        apply Hal. now apply find_transition_Some in Hf as [Hf _].
    + apply list_elem_of_singleton in Hsc. subst sc. cbn [fst].
      exists ptr. split.
      * unfold h'.
        rewrite (find_transition_heap_places _ (heap_places (w_heap s))).
        exact (find_transition_added (w_heap s) (ts0 ++ extra) T
                 (sketch_id sk) eq_refl Hfresh).
      * exists T. split.
        { cbn [heap_transitions h']. rewrite lookup_app_r by (unfold ptr; lia).
          unfold ptr. now rewrite Nat.sub_diag. }
        destruct (resolved_Some _ _ _ _ Ei) as [Hsi _].
        destruct (resolved_Some _ _ _ _ Eo) as [Hso _].
        unfold T. cbn [Transition_id_ Transition_ingoing_ Transition_outgoing_
                       Transition_evaluate_condition_].
        rewrite !(to_sketch_weight_pair_ext (w_heap s) h') by exact Hid.
        rewrite Hsi, Hso. now destruct sk.
Qed.

Lemma returns_for_each_prefix {S X} (body : X -> M S unit)
    (I : list X -> S -> Prop) xs pre s :
  I pre s ->
  (forall pre x s1, I pre s1 ->
     returns (body x) s1 (fun _ s2 => I (pre ++ [x]) s2)) ->
  returns (for_each body xs) s (fun _ s' => I (pre ++ xs) s').
Proof.
  intros Hs Hbody. revert pre s Hs.
  induction xs as [|x xs IH]; intros pre s Hs; simpl.
  - apply returns_ret. now rewrite app_nil_r.
  - apply returns_bind. eapply returns_weaken; [apply Hbody, Hs|].
    intros u s1 H1. cbv beta in H1.
    eapply returns_weaken; [apply (IH _ _ H1)|].
    intros u' s2 H2. cbv beta in H2. now rewrite cons_middle, app_assoc.
Qed.

Lemma alter_last {A} (f : A -> A) (l : list A) x :
  alter f (length l) (l ++ [x]) = l ++ [f x].
Proof. induction l as [|a l IH]; simpl; [reflexivity|now f_equal]. Qed.

Lemma returns_merge_split this other interconnections w
    (Q : unit -> World -> Prop) :
  (forall This Other new_transitions w4,
     this <> other ->
     w_nets w !! this = Some This -> w_nets w !! other = Some Other ->
     Forall2 (sketched (w_heap w)) (transitions_ Other) new_transitions ->
     w_nets w4 = nets_moved this other This Other (w_nets w) ->
     place_core <$> heap_places (w_heap w4) =
       place_core <$> heap_places (w_heap w) ->
     heap_transitions (w_heap w4) = heap_transitions (w_heap w) ->
     returns (merge_rebuild this new_transitions interconnections) w4 Q) ->
  returns (PetriNet_merge this other interconnections) w Q.
Proof.
  intros Hrest.
  unfold PetriNet_merge. apply returns_bind.
  destruct (decide (this = other)) as [|Hne]; [apply returns_undefined|].
  apply returns_ret.
  apply returns_bind, returns_get_net. intros Other HO.
  apply returns_bind, returns_get_net. intros This HT.
  apply returns_bind. intros h w0 E. run_step E.
  apply returns_bind.
  eapply returns_weaken;
    [apply (returns_for_each _ _ (eq w0)); [reflexivity|]|].
  { intros place s1 <-.
    apply returns_bind.
    eapply returns_weaken; [apply returns_exists_place_id|].
    intros [] s2 ->; [apply returns_throw|now apply returns_ret]. }
  intros u1 s1 <-. apply returns_bind.
  eapply returns_weaken;
    [apply (returns_for_each _ _ (eq w0)); [reflexivity|]|].
  { intros t s1 <-.
    destruct (exists_transition_id _ _ _);
      [apply returns_throw|now apply returns_ret]. }
  intros u2 s2 <-. apply returns_bind.
  eapply returns_weaken;
    [apply (returns_for_each _ _ (eq w0)); [reflexivity|]|].
  { intros sk s1 <-.
    destruct (exists_transition_id _ _ _);
      [apply returns_throw|now apply returns_ret]. }
  intros u3 s3 <-. apply returns_bind.
  intros new_transitions s4 Esk.
  apply sketches_of_Returned in Esk as (-> & l' & -> & Hsk). simpl app.
  apply returns_bind. intros u4 w1 E. run_step E.
  set (w1 := mkWorld _ _ _).
  apply returns_bind.
  eapply returns_weaken;
    [apply (returns_for_each _ _
              (fun s => w_nets s = w_nets w1 /\
                        place_core <$> heap_places (w_heap s) =
                          place_core <$> heap_places (w_heap w0) /\
                        heap_transitions (w_heap s) =
                          heap_transitions (w_heap w0)));
     [now split|]|].
  { intros [p|] s1 (Hn1 & Hc1 & Ht1); [|apply returns_undefined].
    intros u0 s2 E2. run_step E2. cbn [w_nets w_heap heap_places
                                       heap_transitions].
    split; [exact Hn1|]. split; [|exact Ht1].
    now rewrite cores_alter. }
  intros u5 w2 (Hn2 & Hc2 & Ht2).
  apply returns_bind. intros u6 w3 E. run_step E.
  apply returns_bind. intros u7 w4 E. run_step E. cbn [w_heap w_nets w_log].
  apply (Hrest This Other l'); auto.
  cbn [w_nets]. rewrite Hn2. reflexivity.
Qed.

Lemma returns_recreate this ps ts0 h0 done s sk cond :
  rebuilding this ps ts0 h0 done s ->
  returns (addTransitionAcquired this sk >>
           found <- PetriNet_findTransition this (sketch_id sk) ;;
           match found with
           | None => undefined
           | Some t => store_evaluate_condition t cond
           end) s
    (fun _ s' =>
       rebuilding this ps ts0 h0 (done ++ [(sk, cond)]) s' /\
       forall m, m <> this -> w_nets s' !! m = w_nets s !! m).
Proof.
  intros Hr. pose proof Hr as (extra & more & HN & _).
  apply returns_bind. intros ptr s1 E1.
  destruct (addTransition_Returned_inv _ _ _ _ _ _ HN E1)
    as (ingoing & outgoing & Hfresh & Ei & Eo & -> & ->).
  pose proof (rebuilding_step _ _ _ _ _ _ _ sk _ _ cond Hr HN Hfresh Ei Eo)
    as Hstep. cbv zeta in Hstep.
  apply returns_bind. intros found s2 E2.
  rewrite PetriNet_findTransition_eq in E2.
  unfold world_with_transition in E2. cbn [w_nets w_heap] in E2.
  rewrite list_lookup_insert_eq in E2
    by (eapply lookup_lt_Some; eassumption).
  unfold findTransitionAcquired in E2. cbn [transitions_] in E2.
  rewrite (find_transition_heap_places _ (heap_places (w_heap s))) in E2.
  cbn [transitions_] in Hfresh.
  rewrite (find_transition_added (w_heap s) (ts0 ++ extra)
             (mkTransition (sketch_id sk) ingoing outgoing None)
             (sketch_id sk) eq_refl Hfresh) in E2.
  inversion E2; subst found s2. clear E2.
  intros u s3 E3. run_step E3. cbn [w_heap w_nets w_log heap_places
                                    heap_transitions].
  rewrite alter_last. split; [exact Hstep|].
  intros m Hm. now rewrite list_lookup_insert_ne by congruence.
Qed.

Lemma returns_interconnect this ps ts0 h0 done s sk :
  rebuilding this ps ts0 h0 done s ->
  returns (addTransitionAcquired this sk >> ret tt) s
    (fun _ s' =>
       rebuilding this ps ts0 h0 (done ++ [(sk, None)]) s' /\
       forall m, m <> this -> w_nets s' !! m = w_nets s !! m).
Proof.
  intros Hr. pose proof Hr as (extra & more & HN & _).
  apply returns_bind. intros ptr s1 E1.
  destruct (addTransition_Returned_inv _ _ _ _ _ _ HN E1)
    as (ingoing & outgoing & Hfresh & Ei & Eo & -> & ->).
  apply returns_ret. split.
  - exact (rebuilding_step _ _ _ _ _ _ _ sk _ _ None Hr HN Hfresh Ei Eo).
  - intros m Hm. unfold world_with_transition. cbn [w_nets].
    now rewrite list_lookup_insert_ne by congruence.
Qed.

Lemma returns_merge_donor this other interconnections w Other :
  w_nets w !! other = Some Other ->
  returns (PetriNet_merge this other interconnections) w
    (fun _ w' =>
       w_nets w' !! other =
       Some (mkNet ((fun _ => None) <$> places_ Other) [])).
Proof.
  intros HO0. apply returns_merge_split.
  intros This Other' new_transitions w4 Hne HT HO _ Hn4 _ _.
  assert (Other' = Other) as -> by congruence.
  set (E := mkNet ((fun _ => None) <$> places_ Other) []).
  assert (H4 : w_nets w4 !! other = Some E).
  { rewrite Hn4. unfold nets_moved. apply list_lookup_insert_eq.
    rewrite !length_insert. eapply lookup_lt_Some; eassumption. }
  unfold merge_rebuild. apply returns_bind.
  eapply returns_weaken;
    [apply (returns_for_each _ _ (fun s => w_nets s !! other = Some E));
     [exact H4|]|].
  { intros [sketch eval_cond] s1 Hs1.
    apply returns_bind.
    eapply returns_weaken; [apply returns_addTransitionAcquired_nets|].
    intros ptr s2 Hs2. cbv beta in Hs2.
    apply returns_bind.
    eapply returns_weaken; [apply returns_PetriNet_findTransition|].
    intros [t|] s3 ->; [|apply returns_undefined].
    intros u0 s4 E4. run_step E4. cbn [w_nets].
    rewrite Hs2 by congruence. exact Hs1. }
  intros u8 w5 H5. cbv beta in H5.
  eapply returns_weaken;
    [apply (returns_for_each _ _ (fun s => w_nets s !! other = Some E));
     [exact H5|]|].
  { intros sketch s1 Hs1.
    apply returns_bind.
    eapply returns_weaken; [apply returns_addTransitionAcquired_nets|].
    intros ptr s2 Hs2. cbv beta in Hs2. apply returns_ret.
    rewrite Hs2 by congruence. exact Hs1. }
  intros u9 w6 H6. exact H6.
Qed.

Lemma returns_merge_rebuilt this other interconnections w This Other :
  w_nets w !! this = Some This -> w_nets w !! other = Some Other ->
  (forall t, t ∈ transitions_ This ->
     (t < length (heap_transitions (w_heap w)))%nat) ->
  returns (PetriNet_merge this other interconnections) w
    (fun _ w' =>
       exists new_transitions,
         Forall2 (sketched (w_heap w)) (transitions_ Other) new_transitions /\
         rebuilding this (places_ This ++ places_ Other) (transitions_ This)
           (w_heap w)
           (new_transitions ++ ((fun sk => (sk, None)) <$> interconnections))
           w').
Proof.
  intros HT0 HO0 Hal. apply returns_merge_split.
  intros This' Other' new_transitions w4 Hne HT HO Hsk Hn4 Hc4 Ht4.
  assert (This' = This) as -> by congruence.
  assert (Other' = Other) as -> by congruence.
  set (ps := places_ This ++ places_ Other).
  assert (H4 : rebuilding this ps (transitions_ This) (w_heap w) [] w4).
  { exists [], []. rewrite !app_nil_r.
    split; [|split; [reflexivity|split; [exact Hc4|split; [exact Ht4|split]]]].
    - rewrite Hn4. unfold nets_moved.
      rewrite list_lookup_insert_ne by congruence.
      apply list_lookup_insert_eq. rewrite length_insert.
      eapply lookup_lt_Some; eassumption.
    - intros t Ht. rewrite Ht4. now apply Hal.
    - intros sc Hsc. now apply elem_of_nil in Hsc. }
  unfold merge_rebuild. apply returns_bind.
  eapply returns_weaken;
    [apply (returns_for_each_prefix _
              (rebuilding this ps (transitions_ This) (w_heap w)) _ []);
     [exact H4|]|].
  { intros pre [sketch eval_cond] s1 Hs1.
    eapply returns_weaken; [apply returns_recreate, Hs1|].
    intros u s2 [Hs2 _]. exact Hs2. }
  intros u8 w5 H5. cbv beta in H5. rewrite app_nil_l in H5.
  eapply returns_weaken;
    [apply (returns_for_each_prefix _
              (fun pre => rebuilding this ps (transitions_ This) (w_heap w)
                            (new_transitions ++
                             ((fun sk => (sk, None)) <$> pre))) _ []);
     [now rewrite app_nil_r|]|].
  { intros pre sketch s1 Hs1.
    eapply returns_weaken; [apply returns_interconnect, Hs1|].
    intros u s2 [Hs2 _]. rewrite fmap_app, app_assoc. exact Hs2. }
  intros u9 w6 H6. cbv beta in H6. rewrite app_nil_l in H6.
  exists new_transitions. now split.
Qed.

Lemma PetriNet_tick_eq n w N :
  w_nets w !! n = Some N ->
  PetriNet_tick n w =
  noexcept (for_each (fun transition => tick_at transition >> ret tt)
                     (transitions_ N)) w.
Proof.
  intros HN. unfold PetriNet_tick, noexcept, bind at 1.
  now rewrite get_net_eq, HN.
Qed.

(** X18: after a successful [merge] the other net has no transitions, and
    its [places_] still has as many entries as before, every one a
    moved-from (null) pointer.  So [tick()] on it does nothing, and
    [deepTickCover()] on it dereferences a null pointer as soon as the net
    had a place. *)
Theorem merge_leaves_null_places (this other : net)
    (interconnections : list TransitionSketch) (w w' : World)
    (Other : PetriNet) :
  PetriNet_merge this other interconnections w = (Returned tt, w') ->
  w_nets w !! other = Some Other ->
  (exists Other',
     w_nets w' !! other = Some Other' /\
     transitions_ Other' = [] /\
     length (places_ Other') = length (places_ Other) /\
     forall o, o ∈ places_ Other' -> o = None) /\
  PetriNet_tick other w' = (Returned tt, w') /\
  (places_ Other <> [] -> PetriNet_deepTickCover other w' = (Undefined, w')).
Proof.
  intros Hm HO.
  pose proof (returns_merge_donor _ _ _ _ _ HO _ _ Hm) as Hd. cbv beta in Hd.
  split; [|split].
  - eexists. split; [exact Hd|]. cbn [transitions_ places_].
    split; [reflexivity|]. split; [apply length_fmap|].
    intros o Ho. apply list_elem_of_fmap in Ho as (x & -> & _). reflexivity.
  - now rewrite (PetriNet_tick_eq _ _ _ Hd).
  - intros Hne. rewrite PetriNet_deepTickCover_eq, Hd. cbn [places_].
    destruct (places_ Other) as [|o ps]; [congruence|]. reflexivity.
Qed.

Lemma merge_leaves_null_places_witness :
  let w' := (run merge_valid_interconnection).2 in
  PetriNet_tick 1%nat w' = (Returned tt, w') /\
  PetriNet_deepTickCover 1%nat w' = (Undefined, w').
Proof.
  destruct (merge_leaves_null_places 0%nat 1%nat
              [mkSketch "T3" [("A", 1)] [("B", 2)]]
              (run two_nets).2 (run merge_valid_interconnection).2
              (mkNet [Some 1%nat] [1%nat]) eq_refl eq_refl)
    as (_ & Ht & Hd).
  split; [exact Ht|]. apply Hd. discriminate.
Defined.

(** X19: a successful [merge] builds every transition of the other net
    again in this net.  [findTransition] finds it under its id, and it
    reads back as the same sketch with the same predicate: the same id,
    the same place ids with the same weights, in the same order.  Every
    interconnection is found under its id too, as the sketch that was
    passed and without a predicate.  The transitions this net had are
    still registered and unchanged, and the net has no further
    transitions. *)
Theorem merge_rebuilds_transitions (this other : net)
    (interconnections : list TransitionSketch) (w w' : World)
    (This Other : PetriNet) :
  PetriNet_merge this other interconnections w = (Returned tt, w') ->
  w_nets w !! this = Some This -> w_nets w !! other = Some Other ->
  (forall t, t ∈ transitions_ This ->
     is_Some (heap_transitions (w_heap w) !! t)) ->
  (forall t, t ∈ transitions_ Other ->
     exists t' s,
       PetriNet_findTransition this (Transition_getID (w_heap w) t) w' =
         (Returned (Some t'), w') /\
       sketch_of (w_heap w) t w = (Returned s, w) /\
       sketch_of (w_heap w') t' w' = (Returned s, w')) /\
  (forall sk, sk ∈ interconnections ->
     exists t',
       PetriNet_findTransition this (sketch_id sk) w' =
         (Returned (Some t'), w') /\
       sketch_of (w_heap w') t' w' = (Returned (sk, None), w')) /\
  (exists N',
     w_nets w' !! this = Some N' /\
     length (transitions_ N') =
       (length (transitions_ This) + length (transitions_ Other) +
        length interconnections)%nat /\
     forall t, t ∈ transitions_ This ->
       t ∈ transitions_ N' /\
       heap_transitions (w_heap w') !! t = heap_transitions (w_heap w) !! t).
Proof.
  intros Hm HT HO Hal.
  assert (Hal' : forall t, t ∈ transitions_ This ->
            (t < length (heap_transitions (w_heap w)))%nat).
  { intros t Ht. apply lookup_lt_is_Some_1. now apply Hal. }
  destruct (returns_merge_rebuilt _ _ _ _ _ _ HT HO Hal' _ _ Hm)
    as (new_transitions & Hsk &
        extra & more & HN' & Hlen & Hc & Htr & Halloc & Hdone).
  assert (Hfind : forall sc,
            sc ∈ new_transitions ++ ((fun sk => (sk, None)) <$> interconnections) ->
            exists t',
              PetriNet_findTransition this (sketch_id sc.1) w' =
                (Returned (Some t'), w') /\
              sketch_of (w_heap w') t' w' = (Returned sc, w')).
  { intros sc Hsc. destruct (Hdone sc Hsc) as (t' & Hf & Hs). exists t'.
    split; [|now apply sketched_sketch_of].
    rewrite PetriNet_findTransition_eq, HN'. unfold findTransitionAcquired.
    cbn [transitions_]. now rewrite Hf. }
  split; [|split].
  - intros t Ht. apply list_elem_of_lookup in Ht as [i Hi].
    destruct (Forall2_lookup_l _ _ _ _ _ Hsk Hi) as (s & Hs & Hts).
    destruct (Hfind s) as (t' & Hf & Hs').
    { apply elem_of_app. left. eapply list_elem_of_lookup_2; eassumption. }
    exists t', s. rewrite (sketched_id _ _ _ Hts).
    split; [exact Hf|]. split; [now apply sketched_sketch_of|exact Hs'].
  - intros sk Hsk'. apply (Hfind (sk, None)).
    apply elem_of_app. right. apply list_elem_of_fmap. now exists sk.
  - eexists. split; [exact HN'|]. cbn [transitions_]. split.
    + rewrite length_app, Hlen, length_app, length_fmap.
      rewrite (Forall2_length _ _ _ Hsk). lia.
    + intros t Ht. split; [apply elem_of_app; now left|].
      rewrite Htr. apply lookup_app_l. now apply Hal'.
Qed.

Lemma merge_rebuilds_transitions_witness :
  let w' := (run merge_valid_interconnection).2 in
  exists t',
    PetriNet_findTransition 0%nat "T3" w' = (Returned (Some t'), w') /\
    sketch_of (w_heap w') t' w' =
      (Returned (mkSketch "T3" [("A", 1)] [("B", 2)], None), w').
Proof.
  destruct (merge_rebuilds_transitions 0%nat 1%nat
              [mkSketch "T3" [("A", 1)] [("B", 2)]]
              (run two_nets).2 (run merge_valid_interconnection).2
              (mkNet [Some 0%nat] [0%nat]) (mkNet [Some 1%nat] [1%nat])
              eq_refl eq_refl eq_refl) as (_ & Hi & _).
  - intros t Ht. apply list_elem_of_singleton in Ht. subst t.
    eexists. reflexivity.
  - apply (Hi (mkSketch "T3" [("A", 1)] [("B", 2)])).
    now apply list_elem_of_singleton.
Defined.

(** ** The harbor example *)

Lemma harbor_setup_eq :
  run harbor_setup =
  (Returned harbor_port,
   mkWorld (harbor_heap 0 1 0 1 0 28 10 (Some (enabled_pred false))
                        (Some (enabled_pred false)))
           harbor_nets []).
Proof. vm_compute. reflexivity. Qed.

Lemma tok_sub_small a b : 0 <= b <= a -> a < 2 ^ 32 -> tok_sub a b = a - b.
Proof. intros H1 H2. unfold tok_sub, wrap32. apply Z.mod_small. lia. Qed.

Lemma tok_add_small a b : 0 <= a + b < 2 ^ 32 -> tok_add a b = a + b.
Proof. intros H. unfold tok_add, wrap32. now apply Z.mod_small. Qed.

Lemma harbor_transition a af b bf fr s1 s2 c1 c2 t :
  (t < 6)%nat ->
  is_Some (heap_transitions (harbor_heap a af b bf fr s1 s2 c1 c2) !! t).
Proof.
  intros Ht. apply lookup_lt_is_Some_2. simpl. lia.
Qed.

Ltac harbor_marking :=
  do 9 eexists; split; [reflexivity|]; split; [reflexivity|];
  rewrite ?tok_sub_small, ?tok_add_small by lia; lia.

Lemma harbor_fire t w :
  harbor_safe w -> (t < 6)%nat ->
  exists r w', fire_at t w = (Returned r, w') /\ harbor_safe w'.
Proof.
  intros (a & af & b & bf & fr & s1 & s2 & c1 & c2 & Hh & Hn & Hm) Ht.
  destruct w as [h nets log]. cbn [w_heap w_nets] in Hh, Hn. subst h nets.
  destruct t as [|[|[|[|[|[|t]]]]]]; [..|lia];
    erewrite fire_at_eq by reflexivity;
    unfold Transition_fire, fireLocked, Transition_readyAcquired;
    cbn [Transition_ingoing_ Transition_outgoing_ readyLoop w_heap
         harbor_heap tokens_at heap_places lookup list_lookup from_option
         Place_tokens_].
  all: repeat match goal with
              | |- context [(?x <? ?y)] => destruct (Z.ltb_spec x y)
              end;
       cbn -[tok_sub tok_add];
       do 2 eexists; (split; [reflexivity|]); harbor_marking.
Qed.


Lemma tick_at_cases t w T :
  heap_transitions (w_heap w) !! t = Some T ->
  tick_at t w = fire_at t w \/
  tick_at t w =
    (Returned false, mkWorld (w_heap w) (w_nets w) (w_log w ++ [])).
Proof.
  intros HT. rewrite (tick_at_eq _ _ _ HT), (fire_at_eq _ _ _ HT).
  rewrite Transition_tick_condition.
  destruct (condition_holds (w_heap w) T); [now left|now right].
Qed.

Lemma harbor_tick_at t w :
  harbor_safe w -> (t < 6)%nat ->
  exists r w', tick_at t w = (Returned r, w') /\ harbor_safe w'.
Proof.
  intros Hs Ht. pose proof Hs as (a & af & b & bf & fr & s1 & s2 & c1 & c2 &
                                  Hh & Hn & Hm).
  destruct (harbor_transition a af b bf fr s1 s2 c1 c2 t Ht) as [T HT].
  rewrite <- Hh in HT.
  destruct (tick_at_cases _ _ _ HT) as [-> | ->].
  - now apply harbor_fire.
  - do 2 eexists. split; [reflexivity|].
    exists a, af, b, bf, fr, s1, s2, c1, c2. auto.
Qed.

Lemma for_each_preserves {S X} (body : X -> M S unit) (I : S -> Prop)
    (P : X -> Prop) xs s :
  (forall x s1, P x -> I s1 ->
     exists s2, body x s1 = (Returned tt, s2) /\ I s2) ->
  Forall P xs -> I s ->
  exists s', for_each body xs s = (Returned tt, s') /\ I s'.
Proof.
  intros Hbody HP. revert s.
  induction HP as [|x xs Hx _ IH]; intros s Hs; simpl.
  - now exists s.
  - destruct (Hbody x s Hx Hs) as (s1 & E1 & H1).
    unfold bind at 1. rewrite E1. now apply IH.
Qed.

Lemma harbor_tick w :
  harbor_safe w ->
  exists w', PetriNet_tick 0%nat w = (Returned tt, w') /\ harbor_safe w'.
Proof.
  intros Hs. pose proof Hs as (a & af & b & bf & fr & s1 & s2 & c1 & c2 &
                               Hh & Hn & Hm).
  rewrite (PetriNet_tick_eq 0%nat w (mkNet
             [Some 0; Some 1; Some 2; Some 3; Some 4; Some 5; Some 6]%nat
             [0; 1; 2; 3; 4; 5]%nat)) by now rewrite Hn.
  cbn [transitions_]. unfold noexcept.
  destruct (for_each_preserves
              (fun transition => tick_at transition >> ret tt)
              harbor_safe (fun t => (t < 6)%nat) [0; 1; 2; 3; 4; 5]%nat w)
    as (w' & -> & Hs'); [| |exact Hs|now exists w'].
  - intros t s1' Ht Hs1. destruct (harbor_tick_at t s1' Hs1 Ht)
      as (r & s2' & E & Hs2).
    exists s2'. unfold bind. now rewrite E.
  - repeat constructor.
Qed.

Lemma harbor_install amount per_tick (b : bool) w :
  (amount, per_tick) = (28, 2) \/ (amount, per_tick) = (10, 1) ->
  harbor_safe w ->
  exists w',
    Supplier_install amount per_tick b 0%nat w = (Returned tt, w') /\
    harbor_safe w'.
Proof.
  intros Hs (a & af & bb & bf & fr & s1 & s2 & c1 & c2 & Hh & Hn & Hm).
  destruct w as [h nets log]. cbn [w_heap w_nets] in Hh, Hn. subst h nets.
  destruct Hs as [[= -> ->]|[= -> ->]].
  - eexists. split; [reflexivity|].
    exists a, af, bb, bf, fr, s1, s2, (Some (enabled_pred b)), c2.
    split; [reflexivity|]. split; [reflexivity|exact Hm].
  - eexists. split; [reflexivity|].
    exists a, af, bb, bf, fr, s1, s2, c1, (Some (enabled_pred b)).
    split; [reflexivity|]. split; [reflexivity|exact Hm].
Qed.

Lemma harbor_call c w :
  harbor_safe w ->
  exists w', do_call harbor_port c w = (Returned tt, w') /\ harbor_safe w'.
Proof.
  intros Hs. destruct c; cbn [do_call harbor_port enter_a_ enter_b_ leave_a_
                              leave_b_ net_ fire_stored].
  1-4: match goal with
       | |- context [fire_at ?t] =>
           destruct (harbor_fire t w Hs ltac:(lia)) as (r & w' & E & Hs');
           exists w'; unfold bind; now rewrite E
       end.
  - now apply harbor_tick.
  - apply harbor_install; auto.
  - apply harbor_install; auto.
Qed.

(** X20: the harbor example is safe under every interleaving.  Whatever
    calls the threads of [main] make, in whatever order they take effect,
    every call returns, each port holds one ship or none and its marker
    place holds the complement, and no counter wraps: the freight on the
    quay and the stocks of the suppliers are never negative and together
    never exceed the 38 units the suppliers started with. *)
Theorem harbor_ports_hold_one_ship (calls : list port_call) :
  exists port w,
    run (harbor_main calls) = (Returned port, w) /\
    exists a af b bf fr s1 s2,
      tokens_of w (net_ port) "port_a" = Some a /\
      tokens_of w (net_ port) "port_a_free" = Some af /\
      tokens_of w (net_ port) "port_b" = Some b /\
      tokens_of w (net_ port) "port_b_free" = Some bf /\
      tokens_of w (net_ port) "freight" = Some fr /\
      tokens_of w (net_ port) "supplier_stock_28@2" = Some s1 /\
      tokens_of w (net_ port) "supplier_stock_10@1" = Some s2 /\
      (a = 0 /\ af = 1 \/ a = 1 /\ af = 0) /\
      (b = 0 /\ bf = 1 \/ b = 1 /\ bf = 0) /\
      0 <= fr /\ 0 <= s1 <= 28 /\ 0 <= s2 <= 10 /\
      fr + s1 + s2 <= 38.
Proof.
  pose proof harbor_setup_eq as Hsetup. unfold run in Hsetup.
  unfold run, harbor_main, bind at 1. rewrite Hsetup.
  set (w0 := mkWorld _ _ _).
  assert (H0 : harbor_safe w0).
  { exists 0, 1, 0, 1, 0, 28, 10, (Some (enabled_pred false)),
      (Some (enabled_pred false)).
    split; [reflexivity|]. split; [reflexivity|lia]. }
  destruct (for_each_preserves (do_call harbor_port) harbor_safe
              (fun _ => True) calls w0) as (w & E & Hs); [| |exact H0|].
  - intros c s1 _ Hs1. now apply harbor_call.
  - apply Forall_forall. auto.
  - exists harbor_port, w. unfold bind at 1. rewrite E.
    split; [reflexivity|].
    destruct Hs as (a & af & b & bf & fr & s1 & s2 & c1 & c2 & Hh & Hn & Hm).
    destruct w as [h nets log]. cbn [w_heap w_nets] in Hh, Hn. subst h nets.
    exists a, af, b, bf, fr, s1, s2.
    repeat (split; [reflexivity|]). lia.
Qed.
